(** * The ZIP archiver of PhysicsFS (archivers/zip.c)

    A shallow embedding of the directory engine and of the per-file reader,
    followed by the properties the specification states about them.

    Conventions of the embedding.
    - C integers are [Z]; the wrap-around of each C type is written out
      ([u32], [u16], [s32], [s64]).
    - A [char] is an [ascii]; [code] is its value as an [unsigned char].
    - A C string is a [string]: the characters before the terminating NUL.
      The buffer that holds it is [strlen + 1] bytes long, so reading the
      character at index [strlen] yields the NUL and reading further is a
      read outside the object.
    - The entry table is a [list ZIPentry]; a pointer to an entry is its
      index in the table.
    - A call either returns, or reads or writes outside an object
      ([Undef]: undefined behaviour in C), or is cut off by the loop budget
      of the model ([NoFuel]). *)

From Stdlib Require Import ZArith Ascii String Lia.
From Stdlib Require Import Sorting.Sorted Sorting.Permutation.
From stdpp Require Import base option list sorting.

Local Open Scope string_scope.
Local Open Scope list_scope.
Local Open Scope Z_scope.

(* ===================================================================== *)
(** * Machine integers *)
(* ===================================================================== *)

Definition u8 (x : Z) : Z := x mod 2 ^ 8.
Definition u16 (x : Z) : Z := x mod 2 ^ 16.
Definition u32 (x : Z) : Z := x mod 2 ^ 32.

(** Conversion to a signed type of the given width (two's complement). *)
Definition signed (w : Z) (x : Z) : Z :=
  let y := x mod 2 ^ w in if y <? 2 ^ (w - 1) then y else y - 2 ^ w.

Definition s32 (x : Z) : Z := signed 32 x.
Definition s64 (x : Z) : Z := signed 64 x.

(* ===================================================================== *)
(** * Outcomes of a call *)
(* ===================================================================== *)

Inductive result (A : Type) : Type :=
| Ret (a : A)      (* the call returns [a] *)
| Undef            (* an access outside an object *)
| NoFuel.          (* the loop budget of the model is used up *)

Arguments Ret {A} a.
Arguments Undef {A}.
Arguments NoFuel {A}.

#[global] Instance result_ret : MRet result := fun A a => Ret a.
#[global] Instance result_bind : MBind result := fun A B f m =>
  match m with
  | Ret a => f a
  | Undef => Undef
  | NoFuel => NoFuel
  end.

#[global] Instance result_fmap : FMap result := fun A B f m =>
  match m with
  | Ret a => Ret (f a)
  | Undef => Undef
  | NoFuel => NoFuel
  end.

Definition of_option {A : Type} (o : option A) : result A :=
  match o with Some a => Ret a | None => Undef end.

(* ===================================================================== *)
(** * C strings *)
(* ===================================================================== *)

Definition code (c : ascii) : Z := Z.of_N (N_of_ascii c).

(** The value of a plain [char] in a comparison such as [ch < '/']:
    plain [char] is signed on the x86 targets of the library. *)
Definition char_val (c : Z) : Z := signed 8 c.

Definition strlen (s : string) : Z := Z.of_nat (String.length s).

(** [s[k]] for a string held in a buffer of [strlen s + 1] bytes. *)
Definition char_at (s : string) (k : Z) : result Z :=
  if (k <? 0) || (strlen s <? k) then Undef
  else match String.get (Z.to_nat k) s with
       | Some c => Ret (code c)
       | None => Ret 0                    (* the terminator *)
       end.

(** [strcmp]: the difference of the first pair of bytes that differ,
    compared as [unsigned char]. *)
Fixpoint strcmp (a b : string) : Z :=
  match a, b with
  | EmptyString, EmptyString => 0
  | EmptyString, String d _ => - code d
  | String c _, EmptyString => code c
  | String c a', String d b' =>
      if code c =? code d then strcmp a' b' else code c - code d
  end.

Fixpoint strncmp (a b : string) (n : nat) : Z :=
  match n with
  | O => 0
  | S n' =>
      match a, b with
      | EmptyString, EmptyString => 0
      | EmptyString, String d _ => - code d
      | String c _, EmptyString => code c
      | String c a', String d b' =>
          if code c =? code d then strncmp a' b' n' else code c - code d
      end
  end.

(** [s + k]: the string that starts [k] characters into [s]. *)
Definition str_from (s : string) (k : Z) : string :=
  String.substring (Z.to_nat k) (String.length s - Z.to_nat k) s.

(** [strchr(s, c) - s], or [None] for a NULL result. *)
Fixpoint strchr (s : string) (c : Z) : option Z :=
  match s with
  | EmptyString => if c =? 0 then Some 0 else None
  | String d s' =>
      if code d =? c then Some 0
      else match strchr s' c with Some k => Some (k + 1) | None => None end
  end.

Definition slash : Z := 47.      (* '/' *)
Definition dot : Z := 46.        (* '.' *)
Definition backslash : Z := 92.  (* '\\' *)

(* ===================================================================== *)
(** * Data model *)
(* ===================================================================== *)

Definition ZIP_QUICKSORT_THRESHOLD : Z := 4.
Definition ZIP_READBUFSIZE : Z := 16 * 1024.

Inductive ZipResolveType : Type :=
| ZIP_UNRESOLVED_FILE
| ZIP_UNRESOLVED_SYMLINK
| ZIP_RESOLVING
| ZIP_RESOLVED
| ZIP_BROKEN_FILE
| ZIP_BROKEN_SYMLINK.

#[global] Instance ZipResolveType_eq_dec : EqDecision ZipResolveType.
Proof. solve_decision. Defined.

Record ZIPentry : Type := mkZIPentry {
  name : string;                 (* Name of file in archive        *)
  symlink : option nat;          (* NULL or file we symlink to     *)
  resolved : ZipResolveType;     (* Have we resolved file/symlink? *)
  offset : Z;                    (* offset of data in archive      *)
  version : Z;                   (* version made by                *)
  version_needed : Z;            (* version needed to extract      *)
  compression_method : Z;        (* compression method             *)
  crc : Z;                       (* crc-32                         *)
  compressed_size : Z;           (* compressed size                *)
  uncompressed_size : Z;         (* uncompressed size              *)
  last_mod_time : Z              (* last file mod time             *)
}.

Record ZIPinfo : Type := mkZIPinfo {
  archiveName : string;          (* path to ZIP                    *)
  entryCount : Z;                (* Number of files in ZIP         *)
  entries : list ZIPentry        (* info on all files in ZIP       *)
}.

(** The error strings handed to [__PHYSFS_setError]. [ERR_IO] stands for
    the message the platform layer sets when a call of its own fails, and
    [ERR_ZLIB] for the messages of [zlib_err]. *)
Inductive PHYSFS_error : Type :=
| ERR_PAST_EOF
| ERR_NOT_AN_ARCHIVE
| ERR_UNSUPPORTED_ARCHIVE
| ERR_CORRUPTED
| ERR_SYMLINK_LOOP
| ERR_NO_SUCH_FILE
| ERR_NOT_A_DIR
| ERR_OUT_OF_MEMORY
| ERR_IO
| ERR_ZLIB.

#[global] Instance PHYSFS_error_eq_dec : EqDecision PHYSFS_error.
Proof. solve_decision. Defined.

Definition COMPMETH_NONE : Z := 0.

Definition ZIP_LOCAL_FILE_SIG : Z := 0x04034b50.
Definition ZIP_CENTRAL_DIR_SIG : Z := 0x02014b50.
Definition ZIP_END_OF_CENTRAL_DIR_SIG : Z := 0x06054b50.

Definition UNIX_FILETYPE_MASK : Z := 0xF000.     (* 0170000 *)
Definition UNIX_FILETYPE_SYMLINK : Z := 0xA000.  (* 0120000 *)

(** [a[i]] for the entry table [a]. *)
Definition entry_at (a : list ZIPentry) (i : Z) : result ZIPentry :=
  if (i <? 0) || (Z.of_nat (length a) <=? i) then Undef
  else of_option (a !! Z.to_nat i).

(** An archive handle as [zip_load_entries] leaves it. *)
Definition mounted (a : list ZIPentry) : ZIPinfo :=
  {| archiveName := "archive.zip";
     entryCount := Z.of_nat (length a);
     entries := a |}.

Definition file_entry (n : string) : ZIPentry :=
  {| name := n; symlink := None; resolved := ZIP_UNRESOLVED_FILE;
     offset := 0; version := 0; version_needed := 20;
     compression_method := COMPMETH_NONE; crc := 0;
     compressed_size := 0; uncompressed_size := 0; last_mod_time := 0 |}.

(* ===================================================================== *)
(** * The entry index *)
(* ===================================================================== *)

(** ** [zip_find_entry] *)

Fixpoint zip_find_entry_loop (fuel : nat) (a : list ZIPentry) (path : string)
    (lo hi : Z) : result (option Z) :=
  match fuel with
  | O => NoFuel
  | S fuel' =>
      if lo <=? hi then
        let middle := lo + (hi - lo) / 2 in
        e ← entry_at a middle;
        let rc := strcmp path (name e) in
        if rc =? 0 then Ret (Some middle)           (* found it! *)
        else if rc >? 0 then zip_find_entry_loop fuel' a path (middle + 1) hi
        else zip_find_entry_loop fuel' a path lo (middle - 1)
      else Ret None                                 (* ERR_NO_SUCH_FILE *)
  end.

(** The index of the entry found, [None] for NULL. Every turn of the loop
    shrinks [hi - lo], so [entryCount + 1] turns are enough. *)
Definition zip_find_entry (info : ZIPinfo) (path : string) : result (option Z) :=
  zip_find_entry_loop (S (Z.to_nat (entryCount info))) (entries info) path
    0 (s32 (entryCount info - 1)).

(** ** [zip_find_start_of_dir] *)

Fixpoint zip_find_start_of_dir_loop (fuel : nat) (a : list ZIPentry)
    (path : string) (dlen : Z) (stop_on_first_find : bool)
    (lo hi retval : Z) : result Z :=
  match fuel with
  | O => NoFuel
  | S fuel' =>
      if lo <=? hi then
        let middle := lo + (hi - lo) / 2 in
        e ← entry_at a middle;
        let rc := strncmp path (name e) (Z.to_nat dlen) in
        if rc =? 0 then
          ch ← char_at (name e) dlen;
          if char_val ch <? slash then
            (* make sure this isn't just a substr match. *)
            zip_find_start_of_dir_loop fuel' a path dlen stop_on_first_find
              lo (middle - 1) retval
          else if char_val ch >? slash then
            zip_find_start_of_dir_loop fuel' a path dlen stop_on_first_find
              (middle + 1) hi retval
          else
            nxt ← char_at (name e) (dlen + 1);
            if (nxt =? 0) || stop_on_first_find then Ret middle
            else
              (* there might be more entries earlier in the list. *)
              zip_find_start_of_dir_loop fuel' a path dlen stop_on_first_find
                lo (middle - 1) middle
        else if rc >? 0 then
          zip_find_start_of_dir_loop fuel' a path dlen stop_on_first_find
            (middle + 1) hi retval
        else
          zip_find_start_of_dir_loop fuel' a path dlen stop_on_first_find
            lo (middle - 1) retval
      else Ret retval
  end.

Definition zip_find_start_of_dir (info : ZIPinfo) (path : string)
    (stop_on_first_find : bool) : result Z :=
  let lo := 0 in
  let hi := s32 (entryCount info) in
  let dlen := u32 (strlen path) in
  first ← char_at path 0;
  if first =? 0 then Ret 0                          (* root dir? *)
  else
    last ← (if 0 <? dlen then char_at path (dlen - 1) else Ret 0);
    let dlen := if (0 <? dlen) && (last =? slash) then dlen - 1 else dlen in
    zip_find_start_of_dir_loop (S (S (Z.to_nat (entryCount info))))
      (entries info) path dlen stop_on_first_find lo hi (-1).

(** ** [zip_entry_is_symlink] *)

Definition zip_entry_is_symlink (entry : ZIPentry) : bool :=
  bool_decide (resolved entry = ZIP_UNRESOLVED_SYMLINK)
  || bool_decide (resolved entry = ZIP_BROKEN_SYMLINK)
  || bool_decide (is_Some (symlink entry)).

(** ** [ZIP_enumerateFiles] *)

(** The loop [while (slash != NULL)] that follows the emission of a
    subdirectory; returns the index it stops at. *)
Fixpoint skip_children (fuel : nat) (a : list ZIPentry) (dirname : string)
    (dlen : Z) (i : Z) : result Z :=
  match fuel with
  | O => NoFuel
  | S fuel' =>
      e ← entry_at a i;
      if strncmp (name e) dirname (Z.to_nat dlen) =? 0 then
        ch ← char_at (name e) dlen;
        if ch =? slash then skip_children fuel' a dirname dlen (i + 1)  (* skip it. *)
        else Ret i
      else Ret i
  end.

(** What the caller is left with: the names appended to the list so far,
    and how the call ended ([Ret e]: it returned, with [e] the error it
    set, if any). *)
Definition listing : Type := list string * result (option PHYSFS_error).

Fixpoint enumerate_loop (fuel : nat) (a : list ZIPentry) (dirname : string)
    (dlen : Z) (omitSymLinks : bool) (max : Z) (i : Z)
    (retval : list string) : listing :=
  match fuel with
  | O => (retval, NoFuel)
  | S fuel' =>
      match entry_at a i with
      | Ret entry =>
          let skip := dlen + (if 0 <? dlen then 1 else 0) in
          if omitSymLinks && zip_entry_is_symlink entry then
            enumerate_loop fuel' a dirname dlen omitSymLinks max (i + 1) retval
          else
            match char_at (name entry) skip with
            | Ret c =>
                if c =? 0 then           (* skip the dir entry itself. *)
                  enumerate_loop fuel' a dirname dlen omitSymLinks max (i + 1)
                    retval
                else
                  let add_file := str_from (name entry) skip in
                  (* handle subdirs under dirname... *)
                  let sl := strchr add_file slash in
                  let strsize :=
                    match sl with Some k => k | None => strlen add_file end in
                  let retval :=
                    retval ++ [String.substring 0 (Z.to_nat strsize) add_file] in
                  let i := i + 1 in
                  if i >=? max then (retval, Ret None)
                  else
                    match (if 0 <? dlen then entry_at a i else Ret entry) with
                    | Ret nxt =>
                        if (0 <? dlen)
                           && negb (strncmp (name nxt) dirname (Z.to_nat dlen) =? 0)
                        then (retval, Ret None)   (* past this dir's entries. *)
                        else
                          (* We added a subdir? Skip its children. *)
                          match sl with
                          | Some _ =>
                              match skip_children fuel' a dirname dlen i with
                              | Ret i' =>
                                  enumerate_loop fuel' a dirname dlen
                                    omitSymLinks max i' retval
                              | Undef => (retval, Undef)
                              | NoFuel => (retval, NoFuel)
                              end
                          | None =>
                              enumerate_loop fuel' a dirname dlen omitSymLinks
                                max i retval
                          end
                    | Undef => (retval, Undef)
                    | NoFuel => (retval, NoFuel)
                    end
            | Undef => (retval, Undef)
            | NoFuel => (retval, NoFuel)
            end
      | Undef => (retval, Undef)
      | NoFuel => (retval, NoFuel)
      end
  end.

Definition ZIP_enumerateFiles (fuel : nat) (info : ZIPinfo) (dirname : string)
    (omitSymLinks : bool) : listing :=
  let max := s32 (entryCount info) in
  let dlen := u32 (strlen dirname) in
  match char_at dirname (u32 (dlen - 1)) with
  | Ret last =>
      let dlen := if last =? slash then u32 (dlen - 1) else dlen in
      match zip_find_start_of_dir info dirname false with
      | Ret i =>
          if i =? -1 then ([], Ret (Some ERR_NO_SUCH_FILE))
          else enumerate_loop fuel (entries info) dirname dlen omitSymLinks
                 max i []
      | Undef => ([], Undef)
      | NoFuel => ([], NoFuel)
      end
  | Undef => ([], Undef)
  | NoFuel => ([], NoFuel)
  end.

(** ** [ZIP_exists] *)

Definition ZIP_exists (info : ZIPinfo) (nm : string) : result bool :=
  entry ← zip_find_entry info nm;
  Ret (bool_decide (is_Some entry)).

(** The archive of the directory-enumeration scenario, as sorted at mount:
    [d/], [d/sub/], [d/sub/z], [d/x], [d/y], [e]. *)
Definition scenario_dirs : ZIPinfo :=
  mounted (file_entry <$> ["d/"; "d/sub/"; "d/sub/z"; "d/x"; "d/y"; "e"]).

Definition one_entry : ZIPinfo := mounted [file_entry "a"].

(* ===================================================================== *)
(** * Sorting the entry table *)
(* ===================================================================== *)

(** [a[i] = e]. *)
Definition store_entry (a : list ZIPentry) (i : Z) (e : ZIPentry)
    : result (list ZIPentry) :=
  if (i <? 0) || (Z.of_nat (length a) <=? i) then Undef
  else Ret (<[Z.to_nat i := e]> a).

Definition zip_entry_swap (a : list ZIPentry) (one two : Z)
    : result (list ZIPentry) :=
  tmp ← entry_at a one;
  e ← entry_at a two;
  a ← store_entry a one e;
  store_entry a two tmp.

(** [if (strcmp(a[x].name, a[y].name) > 0) zip_entry_swap(a, x, y);] *)
Definition order_pair (a : list ZIPentry) (x y : Z) : result (list ZIPentry) :=
  ex ← entry_at a x;
  ey ← entry_at a y;
  if strcmp (name ex) (name ey) >? 0 then zip_entry_swap a x y else Ret a.

(** [while (strcmp(a[++i].name, v->name) < 0) {}] *)
Fixpoint scan_up (fuel : nat) (a : list ZIPentry) (v i : Z) : result Z :=
  match fuel with
  | O => NoFuel
  | S fuel' =>
      let i := u32 (i + 1) in
      e ← entry_at a i;
      p ← entry_at a v;
      if strcmp (name e) (name p) <? 0 then scan_up fuel' a v i else Ret i
  end.

(** [while (strcmp(a[--j].name, v->name) > 0) {}] *)
Fixpoint scan_down (fuel : nat) (a : list ZIPentry) (v j : Z) : result Z :=
  match fuel with
  | O => NoFuel
  | S fuel' =>
      let j := u32 (j - 1) in
      e ← entry_at a j;
      p ← entry_at a v;
      if strcmp (name e) (name p) >? 0 then scan_down fuel' a v j else Ret j
  end.

(** The partitioning loop [while (1)]; returns the table with [i] and [j]. *)
Fixpoint partition_loop (fuel : nat) (a : list ZIPentry) (v i j : Z)
    : result (list ZIPentry * Z * Z) :=
  match fuel with
  | O => NoFuel
  | S fuel' =>
      i ← scan_up fuel' a v i;
      j ← scan_down fuel' a v j;
      if j <? i then Ret (a, i, j)
      else a ← zip_entry_swap a i j; partition_loop fuel' a v i j
  end.

Fixpoint zip_quick_sort (fuel : nat) (a : list ZIPentry) (lo hi : Z)
    : result (list ZIPentry) :=
  match fuel with
  | O => NoFuel
  | S fuel' =>
      if u32 (hi - lo) >? ZIP_QUICKSORT_THRESHOLD then
        let i := u32 (hi + lo) / 2 in
        a ← order_pair a lo i;
        a ← order_pair a lo hi;
        a ← order_pair a i hi;
        let j := u32 (hi - 1) in
        a ← zip_entry_swap a i j;
        let i := lo in
        let v := j in
        '(a, i, j) ← partition_loop fuel' a v i j;
        a ← zip_entry_swap a i (u32 (hi - 1));
        a ← zip_quick_sort fuel' a lo j;
        zip_quick_sort fuel' a (u32 (i + 1)) hi
      else Ret a
  end.

(** The loop [while ((j > lo) && (strcmp(a[j - 1].name, tmp.name) > 0))];
    returns the table and the final [j]. *)
Fixpoint insertion_shift (fuel : nat) (a : list ZIPentry) (lo j : Z)
    (tmp : ZIPentry) : result (list ZIPentry * Z) :=
  match fuel with
  | O => NoFuel
  | S fuel' =>
      if lo <? j then
        prev ← entry_at a (j - 1);
        if strcmp (name prev) (name tmp) >? 0 then
          a ← store_entry a j prev;
          insertion_shift fuel' a lo (j - 1) tmp
        else Ret (a, j)
      else Ret (a, j)
  end.

(** The loop [for (i = lo + 1; i <= hi; i++)]. The inner loop moves [j]
    down from [i], so [i + 1] turns are enough for it. *)
Fixpoint insertion_loop (fuel : nat) (a : list ZIPentry) (lo hi i : Z)
    : result (list ZIPentry) :=
  match fuel with
  | O => NoFuel
  | S fuel' =>
      if i <=? hi then
        tmp ← entry_at a i;
        '(a, j) ← insertion_shift (S (Z.to_nat i)) a lo i tmp;
        a ← store_entry a j tmp;
        insertion_loop fuel' a lo hi (u32 (i + 1))
      else Ret a
  end.

(** Every turn of the outer loop reads [a[i]] for a fresh [i], so
    [length a + 1] turns are enough. *)
Definition zip_insertion_sort (a : list ZIPentry) (lo hi : Z)
    : result (list ZIPentry) :=
  insertion_loop (S (length a)) a lo hi (u32 (lo + 1)).

Definition zip_sort_entries (a : list ZIPentry) (max : Z)
    : result (list ZIPentry) :=
  a ← (if max <=? ZIP_QUICKSORT_THRESHOLD
       then zip_quick_sort (S (length a)) a 0 (u32 (max - 1))
       else Ret a);
  zip_insertion_sort a 0 (u32 (max - 1)).

(** A name is a C string: no NUL inside. *)
Fixpoint nul_free (s : string) : bool :=
  match s with
  | EmptyString => true
  | String c s' => negb (code c =? 0) && nul_free s'
  end.

(** The order of the index. *)
Definition name_le (x y : ZIPentry) : Prop := strcmp (name x) (name y) <= 0.

Definition sorted_by_name (a : list ZIPentry) : Prop :=
  ∀ (i j : nat) (x y : ZIPentry),
    (i <= j)%nat → a !! i = Some x → a !! j = Some y → name_le x y.

(** The entries of a table all carry C strings as names. *)
Definition c_names (a : list ZIPentry) : Prop :=
  Forall (λ e, nul_free (name e) = true) a.

(* ===================================================================== *)
(** * The host I/O layer *)
(* ===================================================================== *)

(** Modelled from the spec: the platform layer ([__PHYSFS_platformOpenRead],
    [Seek], [Read], [Tell], [FileLength]) is not part of zip.c. It is the
    random-access byte stream of the specification: a file is its bytes, a
    handle adds a cursor; a read delivers whole objects only and stops at
    the end of the file; a seek to a negative position fails; the length
    asked for is the size of the file, or -1 when the platform cannot tell
    it. [length_error] is the error that the platform sets in that case,
    and [None] for a handle whose length it can tell. *)
Record handle : Type := mkhandle {
  content : list ascii;
  cursor : Z;
  length_error : option PHYSFS_error
}.

(** The file is there, and the platform can tell its length. *)
Definition __PHYSFS_platformOpenRead (file : list ascii) : handle :=
  {| content := file; cursor := 0; length_error := None |}.

Definition __PHYSFS_platformFileLength (h : handle) : Z :=
  match length_error h with
  | Some _ => -1
  | None => Z.of_nat (length (content h))
  end.

Definition __PHYSFS_platformTell (h : handle) : Z := cursor h.

Definition __PHYSFS_platformSeek (h : handle) (pos : Z) : option handle :=
  if 0 <=? pos
  then Some {| content := content h; cursor := pos;
               length_error := length_error h |}
  else None.

(** Returns the number of objects read, the bytes, and the moved handle. *)
Definition __PHYSFS_platformRead (h : handle) (size count : Z)
    : Z * list ascii * handle :=
  let left := Z.max 0 (Z.of_nat (length (content h)) - cursor h) in
  let n := Z.max 0 (Z.min count (left / size)) in
  (n,
   take (Z.to_nat (n * size)) (drop (Z.to_nat (cursor h)) (content h)),
   {| content := content h; cursor := cursor h + n * size;
      length_error := length_error h |}).

(** Little-endian decoding ([PHYSFS_swapULE32], [PHYSFS_swapULE16]). *)
Fixpoint le_decode (l : list ascii) : Z :=
  match l with
  | [] => 0
  | c :: l' => code c + 256 * le_decode l'
  end.

(** [readui32] and [readui16]: [None] is the return value 0. *)
Definition readui32 (h : handle) : option (Z * handle) :=
  let '(n, bytes, h') := __PHYSFS_platformRead h 4 1 in
  if n =? 1 then Some (le_decode bytes, h') else None.

Definition readui16 (h : handle) : option (Z * handle) :=
  let '(n, bytes, h') := __PHYSFS_platformRead h 2 1 in
  if n =? 1 then Some (le_decode bytes, h') else None.

(** Little-endian encoding, to write archives down. *)
Fixpoint le_encode (width : nat) (v : Z) : list ascii :=
  match width with
  | O => []
  | S w => ascii_of_N (Z.to_N (v mod 256)) :: le_encode w (v / 256)
  end.

Definition bytes_of_string (s : string) : list ascii := list_ascii_of_string s.

(* ===================================================================== *)
(** * Locating the end-of-central-directory record *)
(* ===================================================================== *)

(** The test of the scan: [buf[i..i+3]] is [50 4B 05 06]. *)
Definition signature_at (buf : list ascii) (i : nat) : bool :=
  bool_decide (code <$> take 4 (drop i buf) = [0x50; 0x4B; 0x05; 0x06]).

(** [for (i = maxread - 4; i > 0; i--)]: the index found, if any. *)
Fixpoint scan_window (buf : list ascii) (i : nat) : option Z :=
  match i with
  | O => None
  | S i' =>
      if signature_at buf i then Some (Z.of_nat i)   (* that's the signature! *)
      else scan_window buf i'
  end.

(** What a call [zip_find_end_of_central_dir(in, &len)] leaves behind. *)
Record located : Type := mklocated {
  loc_pos : Z;                           (* the return value *)
  loc_error : option PHYSFS_error;       (* the error set, if any *)
  loc_len : option Z;                    (* [*len], where it is written *)
  loc_handle : handle                    (* [in], where it is left *)
}.

(** The loop [while ((totalread < filelen) && (totalread < 65557))] and
    what follows it. [extra] holds the first four bytes of the previous
    window. *)
Fixpoint find_eocd_loop (fuel : nat) (h : handle)
    (filelen filepos maxread totalread : Z) (extra : list ascii)
    : result located :=
  match fuel with
  | O => NoFuel
  | S fuel' =>
      if (totalread <? filelen) && (totalread <? 65557) then
        match __PHYSFS_platformSeek h filepos with
        | None => Ret (mklocated (-1) (Some ERR_IO) None h)
        | Some h =>
            (* make sure we catch a signature between buffers. *)
            let want := if totalread =? 0 then maxread else maxread - 4 in
            let '(n, bytes, h) := __PHYSFS_platformRead h want 1 in
            if n =? 1 then
              let buf := if totalread =? 0 then bytes else bytes ++ extra in
              let totalread := s32 (totalread + want) in
              let extra := take 4 buf in
              match scan_window buf (Z.to_nat (maxread - 4)) with
              | Some i =>                         (* that's the signature! *)
                  Ret (mklocated (filepos + i) None (Some filelen) h)
              | None =>
                  find_eocd_loop fuel' h filelen (filepos - (maxread - 4))
                    maxread totalread extra
              end
            else Ret (mklocated (-1) None None h)
        end
      else Ret (mklocated (-1) (Some ERR_NOT_AN_ARCHIVE) None h)
  end.

(** The body of [zip_find_end_of_central_dir]. When the platform cannot
    tell the length of the file, the call is left with the value 0, not
    -1, and with the error of the platform; [*len] is not written.
    Otherwise [totalread] grows by at least 252 in every turn after the
    first, so the loop is left before the 300th turn. *)
Definition locate_end_of_central_dir (h : handle) : result located :=
  let filelen := __PHYSFS_platformFileLength h in
  if filelen =? -1 then Ret (mklocated 0 (length_error h) None h)
  else
    let '(filepos, maxread) :=
      if 256 <? filelen then (filelen - 256, 256) else (0, s32 filelen) in
    find_eocd_loop 300 h filelen filepos maxread 0 [].

(** The call as [ZIP_isArchive] makes it, with NULL for [len]: the return
    value and the error set. *)
Definition zip_find_end_of_central_dir (h : handle)
    : result (Z * option PHYSFS_error) :=
  l ← locate_end_of_central_dir h;
  Ret (loc_pos l, loc_error l).

(** ** [ZIP_isArchive] *)

Definition ZIP_isArchive (file : list ascii) : result bool :=
  let h := __PHYSFS_platformOpenRead file in
  match readui32 h with
  | None => Ret false
  | Some (sig, h) =>
      if sig =? ZIP_LOCAL_FILE_SIG then Ret true
      else
        (* No sig...might be a ZIP with data at the start *)
        '(pos, _) ← zip_find_end_of_central_dir h;
        Ret (pos =? -1)
  end.

(** Where the signature [50 4B 05 06] occurs in a file. *)
Definition eocd_signature_at (file : list ascii) (pos : Z) : Prop :=
  0 <= pos ∧ signature_at file (Z.to_nat pos) = true.

(** The end-of-central-directory record of an archive without entries:
    signature, four 16-bit zeros, two 32-bit zeros, comment length. *)
Definition empty_eocd (comment : list ascii) : list ascii :=
  le_encode 4 ZIP_END_OF_CENTRAL_DIR_SIG ++ le_encode 2 0 ++ le_encode 2 0
  ++ le_encode 2 0 ++ le_encode 2 0 ++ le_encode 4 0 ++ le_encode 4 0
  ++ le_encode 2 (Z.of_nat (length comment)) ++ comment.

(* ===================================================================== *)
(** * Symlink targets *)
(* ===================================================================== *)

(** A target is worked on in place, in the buffer it was read into: a
    [list ascii] with the terminator as its last byte. Pointers into the
    buffer are indices; [path] itself is index 0. *)

Definition NUL : ascii := Ascii.zero.

Definition c_buffer (s : string) : list ascii := bytes_of_string s ++ [NUL].

(** The C string a buffer holds: the bytes before the first NUL. *)
Fixpoint c_string (b : list ascii) : string :=
  match b with
  | [] => EmptyString
  | c :: b' => if code c =? 0 then EmptyString else String c (c_string b')
  end.

(** [b[i]] *)
Definition peek (b : list ascii) (i : Z) : result Z :=
  if (i <? 0) || (Z.of_nat (length b) <=? i) then Undef
  else of_option (code <$> b !! Z.to_nat i).

(** [b[i] = c] *)
Definition poke (b : list ascii) (i : Z) (c : ascii) : result (list ascii) :=
  if (i <? 0) || (Z.of_nat (length b) <=? i) then Undef
  else Ret (<[Z.to_nat i := c]> b).

(** The offset of the first [c] in [l], looked for up to the terminator. *)
Fixpoint find_char (l : list ascii) (c : Z) : result (option Z) :=
  match l with
  | [] => Undef
  | x :: l' =>
      if code x =? c then Ret (Some 0)
      else if code x =? 0 then Ret None
      else k ← find_char l' c; Ret (fmap (M:=option) (Z.add 1) k)
  end.

(** [strchr(b + p, c)] *)
Definition buf_strchr (b : list ascii) (p c : Z) : result (option Z) :=
  if (p <? 0) || (Z.of_nat (length b) <? p) then Undef
  else k ← find_char (drop (Z.to_nat p) b) c; Ret (fmap (M:=option) (Z.add p) k).

(** [strlen(b + p)] *)
Definition buf_strlen (b : list ascii) (p : Z) : result Z :=
  if (p <? 0) || (Z.of_nat (length b) <? p) then Undef
  else k ← find_char (drop (Z.to_nat p) b) 0; of_option k.

(** [memmove(b + dst, b + src, n)] *)
Definition memmove (b : list ascii) (dst src n : Z) : result (list ascii) :=
  if (dst <? 0) || (src <? 0) || (n <? 0)
     || (Z.of_nat (length b) <? dst + n) || (Z.of_nat (length b) <? src + n)
  then Undef
  else Ret (take (Z.to_nat dst) b
            ++ take (Z.to_nat n) (drop (Z.to_nat src) b)
            ++ drop (Z.to_nat (dst + n)) b).

(** ** [zip_convert_dos_path] *)

Definition hosttype (version : Z) : Z := u8 (Z.land (Z.shiftr version 8) 0xFF).

(** The loop over the characters of [path]: up to the terminator, every
    backslash becomes a slash. *)
Fixpoint convert_backslashes (b : list ascii) : list ascii :=
  match b with
  | [] => []
  | c :: b' =>
      if code c =? 0 then b
      else (if code c =? backslash then "/"%char else c) :: convert_backslashes b'
  end.

Definition zip_convert_dos_path (entry : ZIPentry) (path : list ascii)
    : list ascii :=
  if hosttype (version entry) =? 0 then convert_backslashes path  (* FS_FAT_ *)
  else path.

(** ** [zip_expand_symlink_path] *)

(** The loop [while (prevptr != path)] that moves [prevptr] back to the
    start of the segment before it. *)
Fixpoint move_back (fuel : nat) (b : list ascii) (prevptr : Z) : result Z :=
  match fuel with
  | O => NoFuel
  | S fuel' =>
      if prevptr =? 0 then Ret prevptr
      else
        let prevptr := prevptr - 1 in
        c ← peek b prevptr;
        if c =? slash then Ret (prevptr + 1) else move_back fuel' b prevptr
  end.

(** One turn of the loop [while (1)]: either the [break], or the buffer
    and the two pointers the next turn starts from. *)
Inductive expand_turn_end : Type :=
| Break (b : list ascii)
| Again (b : list ascii) (ptr prevptr : Z).

Definition expand_turn (b : list ascii) (ptr prevptr : Z)
    : result expand_turn_end :=
  found ← buf_strchr b ptr slash;
  match found with
  | None => Ret (Break b)
  | Some ptr =>
      c1 ← peek b (ptr + 1);
      if c1 =? dot then
        c2 ← peek b (ptr + 2);
        if c2 =? slash then
          (* current dir in middle of string: ditch it. *)
          n ← buf_strlen b (ptr + 2);
          b ← memmove b ptr (ptr + 2) (n + 1);
          Ret (Again b ptr prevptr)
        else if c2 =? 0 then
          (* current dir at end of string: ditch it. *)
          b ← poke b ptr NUL;
          Ret (Again b ptr prevptr)
        else if c2 =? dot then
          c3 ← peek b (ptr + 3);
          '(b, ptr, prevptr) ←
            (if c3 =? slash then
               (* parent dir in middle: move back one, if possible. *)
               n ← buf_strlen b (ptr + 4);
               b ← memmove b prevptr (ptr + 4) (n + 1);
               let ptr := prevptr in
               prevptr ← move_back (S (Z.to_nat prevptr)) b prevptr;
               Ret (b, ptr, prevptr)
             else Ret (b, ptr, prevptr));
          c3 ← peek b (ptr + 3);
          if c3 =? 0 then
            (* parent dir at end: move back one, if possible. *)
            b ← poke b prevptr NUL;
            Ret (Again b ptr prevptr)
          else Ret (Again b ptr prevptr)
        else Ret (Again b ptr prevptr)
      else Ret (Again b ptr ptr)
  end.

Fixpoint expand_loop (fuel : nat) (b : list ascii) (ptr prevptr : Z)
    : result (list ascii) :=
  match fuel with
  | O => NoFuel
  | S fuel' =>
      turn ← expand_turn b ptr prevptr;
      match turn with
      | Break b => Ret b
      | Again b ptr prevptr => expand_loop fuel' b ptr prevptr
      end
  end.

Definition zip_expand_symlink_path (fuel : nat) (path : list ascii)
    : result (list ascii) :=
  expand_loop fuel path 0 0.

(* ===================================================================== *)
(** * Parsing the central directory *)
(* ===================================================================== *)

(** A parsing step works on the handle and either goes on with a value, or
    makes the function return 0, with the error it set (if it set one) and
    with the handle where the seeks and the reads made so far have left it.

    Modelled from the spec: the macros [BAIL_IF_MACRO(c, e, r)] and
    [BAIL_MACRO(e, r)] come from physfs_internal.h, which is not at hand.
    They leave the function with the value [r], after setting the error
    [e] unless [e] is NULL. *)
Inductive step (A : Type) : Type :=
| Go (a : A) (h : handle)
| Bail (e : option PHYSFS_error) (h : handle).

Arguments Go {A} a h.
Arguments Bail {A} e h.

Definition io (A : Type) : Type := handle → step A.

#[global] Instance io_ret : MRet io := fun A a h => Go a h.
#[global] Instance io_bind : MBind io := fun A B f m h =>
  match m h with
  | Go a h' => f a h'
  | Bail e h' => Bail e h'
  end.

(** [BAIL_IF_MACRO(!readui32(in, &v), NULL, 0)] *)
Definition get32 : io Z := fun h =>
  match readui32 h with
  | Some (v, h') => Go v h'
  | None => Bail None (__PHYSFS_platformRead h 4 1).2
  end.

Definition get16 : io Z := fun h =>
  match readui16 h with
  | Some (v, h') => Go v h'
  | None => Bail None (__PHYSFS_platformRead h 2 1).2
  end.

(** [BAIL_IF_MACRO(c, e, 0)] *)
Definition bail_if (c : bool) (e : PHYSFS_error) : io unit := fun h =>
  if c then Bail (Some e) h else Go tt h.

Definition seek_to (pos : Z) : io unit := fun h =>
  match __PHYSFS_platformSeek h pos with
  | Some h' => Go tt h'
  | None => Bail (Some ERR_IO) h
  end.

(** A read of one object of [size] bytes that must succeed. *)
Definition read_block (size : Z) : io (list ascii) := fun h =>
  let '(n, bytes, h') := __PHYSFS_platformRead h size 1 in
  if n =? 1 then Go bytes h' else Bail None h'.

Definition tell : io Z := fun h => Go (__PHYSFS_platformTell h) h.

(** ** [zip_version_does_symlinks] *)

Definition zip_version_does_symlinks (version : Z) : bool :=
  match hosttype version with
  (* These are the platforms that can NOT build an archive with symlinks,
     according to the Info-ZIP project. *)
  | 0     (* FS_FAT_  *)
  | 1     (* AMIGA_   *)
  | 2     (* VMS_     *)
  | 4     (* VM_CSM_  *)
  | 6     (* FS_HPFS_ *)
  | 11    (* FS_NTFS_ *)
  | 14    (* FS_VFAT_ *)
  | 13    (* ACORN_   *)
  | 15    (* MVS_     *)
  | 18    (* THEOS_   *) => false
  | _ => true    (* assume the rest to be unix-like. *)
  end.

(** ** [zip_has_symlink_attr] *)

Definition zip_has_symlink_attr (entry : ZIPentry) (extern_attr : Z) : bool :=
  let xattr := u16 (Z.land (Z.shiftr extern_attr 16) 0xFFFF) in
  zip_version_does_symlinks (version entry)
  && (uncompressed_size entry >? 0)
  && (Z.land xattr UNIX_FILETYPE_MASK =? UNIX_FILETYPE_SYMLINK).

(** ** [zip_dos_time_to_physfs_time] *)

Record tm : Type := mktm {
  tm_year : Z; tm_mon : Z; tm_mday : Z;
  tm_hour : Z; tm_min : Z; tm_sec : Z; tm_isdst : Z
}.

(** [mktime] belongs to the host; it is a parameter. *)
Definition zip_dos_time_to_physfs_time (mktime : tm → Z) (dostime : Z) : Z :=
  let dosdate := u32 (Z.land (Z.shiftr dostime 16) 0xFFFF) in
  let dostime := Z.land dostime 0xFFFF in
  s64 (mktime
    {| (* dissect date *)
       tm_year := Z.land (Z.shiftr dosdate 9) 0x7F + 80;
       tm_mon := Z.land (Z.shiftr dosdate 5) 0x0F - 1;
       tm_mday := Z.land dosdate 0x1F;
       (* dissect time *)
       tm_hour := Z.land (Z.shiftr dostime 11) 0x1F;
       tm_min := Z.land (Z.shiftr dostime 5) 0x3F;
       tm_sec := Z.land (Z.shiftl dostime 1) 0x3E;
       (* let mktime calculate daylight savings time. *)
       tm_isdst := -1 |}).

(** ** [zip_load_entry] *)

Definition zip_load_entry (mktime : tm → Z) (ofs_fixup : Z) : io ZIPentry :=
  (* sanity check with central directory signature... *)
  sig ← get32;
  _ ← bail_if (negb (sig =? ZIP_CENTRAL_DIR_SIG)) ERR_CORRUPTED;
  (* Get the pertinent parts of the record... *)
  version ← get16;
  version_needed ← get16;
  _ ← get16;                                   (* general bits *)
  compression_method ← get16;
  dostime ← get32;
  let last_mod_time := zip_dos_time_to_physfs_time mktime dostime in
  crc ← get32;
  compressed_size ← get32;
  uncompressed_size ← get32;
  fnamelen ← get16;
  extralen ← get16;
  commentlen ← get16;
  _ ← get16;                                   (* disk number start *)
  _ ← get16;                                   (* internal file attribs *)
  external_attr ← get32;
  ofs ← get32;
  let entry :=
    {| name := EmptyString;
       symlink := None;         (* will be resolved later, if necessary. *)
       resolved := ZIP_UNRESOLVED_FILE;
       offset := u32 (ofs + ofs_fixup);
       version := version;
       version_needed := version_needed;
       compression_method := compression_method;
       crc := crc;
       compressed_size := compressed_size;
       uncompressed_size := uncompressed_size;
       last_mod_time := last_mod_time |} in
  let resolved :=
    if zip_has_symlink_attr entry external_attr
    then ZIP_UNRESOLVED_SYMLINK else ZIP_UNRESOLVED_FILE in
  bytes ← read_block fnamelen;
  let buffer := zip_convert_dos_path entry (bytes ++ [NUL]) in
  si64 ← tell;
  (* seek to the start of the next entry in the central directory... *)
  _ ← seek_to (si64 + extralen + commentlen);
  mret {| name := c_string buffer;
          symlink := symlink entry;
          resolved := resolved;
          offset := offset entry;
          version := version;
          version_needed := version_needed;
          compression_method := compression_method;
          crc := crc;
          compressed_size := compressed_size;
          uncompressed_size := uncompressed_size;
          last_mod_time := last_mod_time |}.

(** ** [zip_load_entries] *)

(** The loop [for (i = 0; i < max; i++)] over the records. *)
Fixpoint load_entries_loop (mktime : tm → Z) (data_ofs : Z) (n : nat)
    : io (list ZIPentry) :=
  match n with
  | O => mret []
  | S n' =>
      entry ← zip_load_entry mktime data_ofs;
      rest ← load_entries_loop mktime data_ofs n';
      mret (entry :: rest)
  end.

(** The table as read, before it is sorted. *)
Definition read_central_directory (mktime : tm → Z)
    (max data_ofs central_ofs : Z) : io (list ZIPentry) :=
  _ ← seek_to central_ofs;
  load_entries_loop mktime data_ofs (Z.to_nat max).

(** [Go a h]: the return value 1, with the table [a]; the allocation of the
    table is taken to succeed. *)
Definition zip_load_entries (mktime : tm → Z) (h : handle)
    (max data_ofs central_ofs : Z) : result (step (list ZIPentry)) :=
  match read_central_directory mktime max data_ofs central_ofs h with
  | Go a h' => a ← zip_sort_entries a max; Ret (Go a h')
  | Bail e h' => Ret (Bail e h')
  end.

(** The handle [k] bytes further. *)
Definition advance (h : handle) (k : Z) : handle :=
  {| content := content h; cursor := cursor h + k;
     length_error := length_error h |}.

(** The fields of the central-directory record under the cursor, by their
    offsets in the record. *)
Definition field (h : handle) (ofs : Z) (width : nat) : Z :=
  le_decode (take width (drop (Z.to_nat (cursor h + ofs)) (content h))).

Definition record_version_made_by (h : handle) : Z := field h 4 2.
Definition record_uncompressed_size (h : handle) : Z := field h 24 4.
Definition record_external_attr (h : handle) : Z := field h 38 4.

(** The initial state of an entry in the words of the specification. *)
Definition spec_initial_resolved (version_made_by uncompressed_size
    external_attr : Z) : ZipResolveType :=
  let host_os := Z.shiftr version_made_by 8 in
  if bool_decide (host_os ∉ [0; 1; 2; 4; 6; 11; 14; 13; 15; 18])
     && bool_decide (uncompressed_size > 0)
     && bool_decide (Z.land (Z.shiftr external_attr 16) 0xF000 (* 0170000 *)
                     = 0xA000 (* 0120000 *))
  then ZIP_UNRESOLVED_SYMLINK else ZIP_UNRESOLVED_FILE.

(** A central-directory record, to write archives down. *)
Definition central_record (made_by needed method crc csize usize : Z)
    (nm : string) (attr ofs : Z) : list ascii :=
  le_encode 4 ZIP_CENTRAL_DIR_SIG ++ le_encode 2 made_by ++ le_encode 2 needed
  ++ le_encode 2 0 ++ le_encode 2 method ++ le_encode 4 0 ++ le_encode 4 crc
  ++ le_encode 4 csize ++ le_encode 4 usize
  ++ le_encode 2 (strlen nm) ++ le_encode 2 0 ++ le_encode 2 0
  ++ le_encode 2 0 ++ le_encode 2 0 ++ le_encode 4 attr ++ le_encode 4 ofs
  ++ bytes_of_string nm.

(* ===================================================================== *)
(** * The inflater *)
(* ===================================================================== *)

(** zlib is not part of zip.c. The functions below take it as a parameter:
    the state behind a [z_stream], [inflateInit2(&s, -MAX_WBITS)] (with
    [None] for a return value other than [Z_OK]), and [inflate], which is
    given the pending input, the room left in the output and the flush
    mode, and returns its return value, the number of input bytes it
    consumed, the bytes it produced, and the new state. *)
Record zlib : Type := mkzlib {
  z_state : Type;
  inflateInit2 : option z_state;
  inflate : z_state → list ascii → Z → Z → Z * Z * list ascii * z_state
}.

Definition Z_OK : Z := 0.
Definition Z_STREAM_END : Z := 1.
Definition Z_SYNC_FLUSH : Z := 2.
Definition Z_FINISH : Z := 4.

(** [zlib_err]: the error it sets, if any. *)
Definition zlib_err (rc : Z) : option PHYSFS_error :=
  if (rc =? Z_OK) || (rc =? Z_STREAM_END) then None else Some ERR_ZLIB.

(** An inflater that accepts no stream, for archives that store only. *)
Definition no_zlib : zlib :=
  {| z_state := unit; inflateInit2 := None;
     inflate := λ _ _ _ _, (-2, 0, [], tt) |}.

(* ===================================================================== *)
(** * Resolution of entries *)
(* ===================================================================== *)

(** What a resolution works on: the archive handle of the caller, the
    entry table behind [info], and the error state of the library. *)
Record rstate : Type := mkrstate {
  info : ZIPinfo;
  src : handle;
  err : option PHYSFS_error
}.

Definition set_error (e : option PHYSFS_error) (st : rstate) : rstate :=
  match e with
  | Some _ => {| info := info st; src := src st; err := e |}
  | None => st
  end.

Definition set_src (h : handle) (st : rstate) : rstate :=
  {| info := info st; src := h; err := err st |}.

(** [info->entries[i] = e] *)
Definition set_entry (i : Z) (e : ZIPentry) (st : rstate) : result rstate :=
  a ← store_entry (entries (info st)) i e;
  Ret {| info := {| archiveName := archiveName (info st);
                    entryCount := entryCount (info st);
                    entries := a |};
         src := src st; err := err st |}.

Definition with_resolved (r : ZipResolveType) (e : ZIPentry) : ZIPentry :=
  {| name := name e; symlink := symlink e; resolved := r;
     offset := offset e; version := version e;
     version_needed := version_needed e;
     compression_method := compression_method e; crc := crc e;
     compressed_size := compressed_size e;
     uncompressed_size := uncompressed_size e;
     last_mod_time := last_mod_time e |}.

Definition with_symlink (s : option nat) (e : ZIPentry) : ZIPentry :=
  {| name := name e; symlink := s; resolved := resolved e;
     offset := offset e; version := version e;
     version_needed := version_needed e;
     compression_method := compression_method e; crc := crc e;
     compressed_size := compressed_size e;
     uncompressed_size := uncompressed_size e;
     last_mod_time := last_mod_time e |}.

Definition with_offset (o : Z) (e : ZIPentry) : ZIPentry :=
  {| name := name e; symlink := symlink e; resolved := resolved e;
     offset := o; version := version e;
     version_needed := version_needed e;
     compression_method := compression_method e; crc := crc e;
     compressed_size := compressed_size e;
     uncompressed_size := uncompressed_size e;
     last_mod_time := last_mod_time e |}.

(** ** [zip_parse_local] *)

(** Parse the local file header of an entry; yields the new
    [entry->offset]. *)
Definition parse_local_header (entry : ZIPentry) : io Z :=
  _ ← seek_to (offset entry);
  ui32 ← get32;
  _ ← bail_if (negb (ui32 =? ZIP_LOCAL_FILE_SIG)) ERR_CORRUPTED;
  ui16 ← get16;
  _ ← bail_if (negb (ui16 =? version_needed entry)) ERR_CORRUPTED;
  _ ← get16;                                    (* general bits. *)
  ui16 ← get16;
  _ ← bail_if (negb (ui16 =? compression_method entry)) ERR_CORRUPTED;
  _ ← get32;                                    (* date/time *)
  ui32 ← get32;
  _ ← bail_if (negb (ui32 =? crc entry)) ERR_CORRUPTED;
  ui32 ← get32;
  _ ← bail_if (negb (ui32 =? compressed_size entry)) ERR_CORRUPTED;
  ui32 ← get32;
  _ ← bail_if (negb (ui32 =? uncompressed_size entry)) ERR_CORRUPTED;
  fnamelen ← get16;
  extralen ← get16;
  mret (u32 (offset entry + (fnamelen + extralen + 30))).

Definition zip_parse_local (st : rstate) (i : Z) : result (bool * rstate) :=
  entry ← entry_at (entries (info st)) i;
  match parse_local_header entry (src st) with
  | Go ofs h =>
      st ← set_entry i (with_offset ofs entry) (set_src h st);
      Ret (true, st)
  | Bail e h => Ret (false, set_error e (set_src h st))
  end.

(** ** [zip_follow_symlink] *)

(** [resolve] is the recursive call of [zip_resolve]. The result is the
    entry returned, [None] for NULL. *)
Definition zip_follow_symlink
    (resolve : rstate → Z → result (bool * rstate)) (fuel : nat)
    (st : rstate) (path : list ascii) : result (option nat * rstate) :=
  path ← zip_expand_symlink_path fuel path;
  found ← zip_find_entry (info st) (c_string path);
  match found with
  | Some i =>
      '(ok, st) ← resolve st i;                 (* recursive! *)
      if ok : bool then
        entry ← entry_at (entries (info st)) i;
        match symlink entry with
        | Some target => Ret (Some target, st)
        | None => Ret (Some (Z.to_nat i), st)
        end
      else Ret (None, st)
  | None => Ret (None, set_error (Some ERR_NO_SUCH_FILE) st)
  end.

(** ** [zip_resolve_symlink] *)

(** The bytes of the link, read from the file data: [None] when [rc]
    stays 0. A compressed link that inflates to fewer bytes than the entry
    announces leaves the rest of the buffer unset. *)
Definition read_link (zl : zlib) (entry : ZIPentry) (h : handle)
    : result (option (list ascii) * handle * option PHYSFS_error) :=
  let size := uncompressed_size entry in
  if compression_method entry =? COMPMETH_NONE then
    let '(n, bytes, h) := __PHYSFS_platformRead h size 1 in
    Ret (if n =? 1 then Some bytes else None, h, None)
  else
    (* symlink target path is compressed... *)
    let compsize := compressed_size entry in
    let '(n, compressed, h) := __PHYSFS_platformRead h compsize 1 in
    if n =? 1 then
      match inflateInit2 zl with
      | Some stream =>
          let '(rc, _, produced, _) :=
            inflate zl stream compressed size Z_FINISH in
          (* both are acceptable outcomes... *)
          if (rc =? Z_OK) || (rc =? Z_STREAM_END) then
            if Z.of_nat (length produced) =? size
            then Ret (Some produced, h, None)
            else Undef
          else Ret (None, h, zlib_err rc)
      | None => Ret (None, h, Some ERR_ZLIB)
      end
    else Ret (None, h, None).

Definition zip_resolve_symlink (zl : zlib)
    (resolve : rstate → Z → result (bool * rstate)) (fuel : nat)
    (st : rstate) (i : Z) : result (bool * rstate) :=
  entry ← entry_at (entries (info st)) i;
  (* We've already parsed the local file header of the symlink at this
     point. Now we need to read the actual link from the file data and
     follow it. *)
  match __PHYSFS_platformSeek (src st) (offset entry) with
  | None => Ret (false, set_error (Some ERR_IO) st)
  | Some h =>
      '(link, h, e) ← read_link zl entry h;
      let st := set_error e (set_src h st) in
      st ← match link with
           | None => Ret st
           | Some bytes =>
               let path := bytes ++ [NUL] in      (* null-terminate it. *)
               let path := zip_convert_dos_path entry path in
               '(target, st) ← zip_follow_symlink resolve fuel st path;
               entry ← entry_at (entries (info st)) i;
               set_entry i (with_symlink target entry) st
           end;
      entry ← entry_at (entries (info st)) i;
      Ret (bool_decide (is_Some (symlink entry)), st)
  end.

(** ** [zip_resolve] *)

Fixpoint zip_resolve (zl : zlib) (fuel : nat) (st : rstate) (i : Z)
    : result (bool * rstate) :=
  match fuel with
  | O => NoFuel
  | S fuel' =>
      entry ← entry_at (entries (info st)) i;
      let resolve_type := resolved entry in
      (* Don't bother if we've failed to resolve this entry before. *)
      if bool_decide (resolve_type = ZIP_BROKEN_FILE) then
        Ret (false, set_error (Some ERR_CORRUPTED) st)
      else if bool_decide (resolve_type = ZIP_BROKEN_SYMLINK) then
        Ret (false, set_error (Some ERR_CORRUPTED) st)
      (* uhoh...infinite symlink loop! *)
      else if bool_decide (resolve_type = ZIP_RESOLVING) then
        Ret (false, set_error (Some ERR_SYMLINK_LOOP) st)
      else if bool_decide (resolve_type ≠ ZIP_RESOLVED) then
        st ← set_entry i (with_resolved ZIP_RESOLVING entry) st;
        '(retval, st) ← zip_parse_local st i;
        '(retval, st) ←
          (if retval && bool_decide (resolve_type = ZIP_UNRESOLVED_SYMLINK)
           then
             (* If it's a symlink, find the original file. *)
             zip_resolve_symlink zl (zip_resolve zl fuel') fuel' st i
           else Ret (retval, st));
        entry ← entry_at (entries (info st)) i;
        st ← (if bool_decide (resolve_type = ZIP_UNRESOLVED_SYMLINK) then
                set_entry i
                  (with_resolved
                     (if retval : bool then ZIP_RESOLVED else ZIP_BROKEN_SYMLINK)
                     entry) st
              else if bool_decide (resolve_type = ZIP_UNRESOLVED_FILE) then
                set_entry i
                  (with_resolved
                     (if retval : bool then ZIP_RESOLVED else ZIP_BROKEN_FILE)
                     entry) st
              else Ret st);
        Ret (retval, st)
      else Ret (true, st)
  end.

(* ===================================================================== *)
(** * Open files *)
(* ===================================================================== *)

(** One [ZIPfileinfo] is kept for each open file. [fi_entry] is the entry
    the file points to (its sizes, method and data offset are fixed once
    it is resolved); [fi_stream] is the zlib state and [fi_input] the
    compressed bytes read into the buffer and not yet consumed
    ([next_in], [avail_in]). *)
Record ZIPfileinfo (zl : zlib) : Type := mkZIPfileinfo {
  fi_entry : ZIPentry;
  fi_handle : handle;
  compressed_position : Z;
  uncompressed_position : Z;
  fi_stream : option (z_state zl);
  fi_input : list ascii
}.

Arguments mkZIPfileinfo {zl}.
Arguments fi_entry {zl}.
Arguments fi_handle {zl}.
Arguments compressed_position {zl}.
Arguments uncompressed_position {zl}.
Arguments fi_stream {zl}.
Arguments fi_input {zl}.

(** What a call on an open file hands back: its return value, the bytes
    it put into the buffer of the caller, the file, and the error it set,
    if any. *)
Record io_result (zl : zlib) : Type := mkio_result {
  retval : Z;
  delivered : list ascii;
  file_after : ZIPfileinfo zl;
  error_set : option PHYSFS_error
}.

Arguments mkio_result {zl}.
Arguments retval {zl}.
Arguments delivered {zl}.
Arguments file_after {zl}.
Arguments error_set {zl}.

(** ** [ZIP_read] *)

(** The loop [while (retval < maxread)] of a compressed read. *)
Fixpoint inflate_loop (zl : zlib) (fuel : nat) (finfo : ZIPfileinfo zl)
    (maxread retval avail_out : Z) (out : list ascii)
    (e : option PHYSFS_error) : result (io_result zl) :=
  match fuel with
  | O => NoFuel
  | S fuel' =>
      if retval <? maxread then
        let entry := fi_entry finfo in
        let refilled :=
          match fi_input finfo with
          | [] =>
              let br := s64 (u32 (compressed_size entry
                                  - compressed_position finfo)) in
              if 0 <? br then
                let br := if ZIP_READBUFSIZE <? br then ZIP_READBUFSIZE else br in
                let '(br, bytes, h) :=
                  __PHYSFS_platformRead (fi_handle finfo) 1 br in
                if br <=? 0 then None
                else Some {| fi_entry := entry; fi_handle := h;
                             compressed_position :=
                               u32 (compressed_position finfo + br);
                             uncompressed_position :=
                               uncompressed_position finfo;
                             fi_stream := fi_stream finfo;
                             fi_input := bytes |}
              else Some finfo
          | _ :: _ => Some finfo
          end in
        match refilled with
        | None => Ret (mkio_result retval out finfo e)
        | Some finfo =>
            stream ← of_option (fi_stream finfo);
            let '(rc, consumed, produced, stream) :=
              inflate zl stream (fi_input finfo) avail_out Z_SYNC_FLUSH in
            let e := match zlib_err rc with Some x => Some x | None => e end in
            let retval := retval + Z.of_nat (length produced) in
            let finfo :=
              {| fi_entry := entry; fi_handle := fi_handle finfo;
                 compressed_position := compressed_position finfo;
                 uncompressed_position := uncompressed_position finfo;
                 fi_stream := Some stream;
                 fi_input := drop (Z.to_nat consumed) (fi_input finfo) |} in
            if rc =? Z_OK then
              inflate_loop zl fuel' finfo maxread retval
                (avail_out - Z.of_nat (length produced)) (out ++ produced) e
            else Ret (mkio_result retval (out ++ produced) finfo e)
        end
      else Ret (mkio_result retval out finfo e)
  end.

Definition advance_position {zl : zlib} (finfo : ZIPfileinfo zl) (n : Z)
    : ZIPfileinfo zl :=
  {| fi_entry := fi_entry finfo; fi_handle := fi_handle finfo;
     compressed_position := compressed_position finfo;
     uncompressed_position := u32 (uncompressed_position finfo + n);
     fi_stream := fi_stream finfo; fi_input := fi_input finfo |}.

Definition ZIP_read (zl : zlib) (fuel : nat) (finfo : ZIPfileinfo zl)
    (objSize objCount : Z) : result (io_result zl) :=
  let entry := fi_entry finfo in
  let maxread := s64 (objSize * objCount) in
  let avail := s64 (u32 (uncompressed_size entry
                         - uncompressed_position finfo)) in
  if maxread =? 0 then Ret (mkio_result 0 [] finfo None)  (* quick rejection. *)
  else
    let clamp := avail <? maxread in
    let maxread := if clamp then avail - Z.rem avail objSize else maxread in
    let objCount := if clamp then u32 (Z.quot maxread objSize) else objCount in
    if clamp && (objCount =? 0) then
      Ret (mkio_result 0 [] finfo (Some ERR_PAST_EOF))     (* quick rejection. *)
    else
      (* this is always true here. *)
      let e := if clamp then Some ERR_PAST_EOF else None in
      r ← (if compression_method entry =? COMPMETH_NONE then
             let '(n, bytes, h) :=
               __PHYSFS_platformRead (fi_handle finfo) objSize objCount in
             Ret (mkio_result n bytes
                    {| fi_entry := entry; fi_handle := h;
                       compressed_position := compressed_position finfo;
                       uncompressed_position := uncompressed_position finfo;
                       fi_stream := fi_stream finfo;
                       fi_input := fi_input finfo |} e)
           else
             r ← inflate_loop zl fuel finfo maxread 0
                   (u32 (objSize * objCount)) [] e;
             Ret (mkio_result (Z.quot (retval r) objSize) (delivered r)
                    (file_after r) (error_set r)));
      if 0 <? retval r then
        Ret (mkio_result (retval r) (delivered r)
               (advance_position (file_after r) (retval r * objSize))
               (error_set r))
      else Ret r.

(** ** [ZIP_eof], [ZIP_tell], [ZIP_fileLength] *)

Definition ZIP_eof {zl : zlib} (finfo : ZIPfileinfo zl) : bool :=
  uncompressed_position finfo >=? uncompressed_size (fi_entry finfo).

Definition ZIP_tell {zl : zlib} (finfo : ZIPfileinfo zl) : Z :=
  uncompressed_position finfo.

Definition ZIP_fileLength {zl : zlib} (finfo : ZIPfileinfo zl) : Z :=
  uncompressed_size (fi_entry finfo).

(** [entry->offset], where a parameter is called [offset]. *)
Definition offset_of (e : ZIPentry) : Z := offset e.

(** ** [ZIP_seek] *)

(** The loop [while (finfo->uncompressed_position != offset)], which
    reads into a 512-byte buffer up to the offset. *)
Fixpoint seek_forward (zl : zlib) (fuel : nat) (finfo : ZIPfileinfo zl)
    (offset : Z) (e : option PHYSFS_error) : result (io_result zl) :=
  match fuel with
  | O => NoFuel
  | S fuel' =>
      if uncompressed_position finfo =? offset then
        Ret (mkio_result 1 [] finfo e)
      else
        let maxread := u32 (offset - uncompressed_position finfo) in
        let maxread := if 512 <? maxread then 512 else maxread in
        r ← ZIP_read zl fuel' finfo maxread 1;
        let e := match error_set r with Some x => Some x | None => e end in
        if retval r =? 1 then seek_forward zl fuel' (file_after r) offset e
        else Ret (mkio_result 0 [] (file_after r) e)
  end.

Definition ZIP_seek (zl : zlib) (fuel : nat) (finfo : ZIPfileinfo zl)
    (offset : Z) : result (io_result zl) :=
  let entry := fi_entry finfo in
  let h := fi_handle finfo in
  if uncompressed_size entry <? offset then
    Ret (mkio_result 0 [] finfo (Some ERR_PAST_EOF))
  else if compression_method entry =? COMPMETH_NONE then
    let newpos := s64 (offset + offset_of entry) in
    match __PHYSFS_platformSeek h newpos with
    | None => Ret (mkio_result 0 [] finfo (Some ERR_IO))
    | Some h =>
        Ret (mkio_result 1 []
               {| fi_entry := entry; fi_handle := h;
                  compressed_position := compressed_position finfo;
                  uncompressed_position := u32 newpos;
                  fi_stream := fi_stream finfo;
                  fi_input := fi_input finfo |} None)
    end
  else
    (* If seeking backwards, we need to redecode the file from the start
       and throw away the compressed bits until we hit the offset we need.
       If seeking forward, we still need to decode, but we don't rewind
       first. *)
    if offset <? uncompressed_position finfo then
      (* we do a copy so state is sane if inflateInit2() fails. *)
      match inflateInit2 zl with
      | None => Ret (mkio_result 0 [] finfo (Some ERR_ZLIB))
      | Some str =>
          match __PHYSFS_platformSeek h (offset_of entry) with
          | None => Ret (mkio_result 0 [] finfo (Some ERR_IO))
          | Some h =>
              seek_forward zl fuel
                {| fi_entry := entry; fi_handle := h;
                   compressed_position := 0;
                   uncompressed_position := 0;
                   fi_stream := Some str;
                   fi_input := [] |} offset None
          end
      end
    else seek_forward zl fuel finfo offset None.

(** ** [zip_get_file_handle] and [ZIP_openRead] *)

(** [file] holds the bytes of the archive named [info->archiveName]. *)
Definition zip_get_file_handle (zl : zlib) (fuel : nat) (file : list ascii)
    (st : rstate) (i : Z) : result (option handle * rstate) :=
  let h := __PHYSFS_platformOpenRead file in
  '(success, st') ← zip_resolve zl fuel (set_src h st) i;
  if success : bool then
    entry ← entry_at (entries (info st')) i;
    ofs ← match symlink entry with
          | Some t => e ← entry_at (entries (info st')) (Z.of_nat t);
                      Ret (offset_of e)
          | None => Ret (offset_of entry)
          end;
    match __PHYSFS_platformSeek (src st') ofs with
    | Some h => Ret (Some h, st')
    | None => Ret (None, set_error (Some ERR_IO) st')
    end
  else Ret (None, st').

Definition ZIP_openRead (zl : zlib) (fuel : nat) (file : list ascii)
    (st : rstate) (filename : string)
    : result (option (ZIPfileinfo zl) * rstate) :=
  found ← zip_find_entry (info st) filename;
  match found with
  | None => Ret (None, set_error (Some ERR_NO_SUCH_FILE) st)
  | Some i =>
      '(h, st) ← zip_get_file_handle zl fuel file st i;
      match h with
      | None => Ret (None, st)
      | Some h =>
          entry ← entry_at (entries (info st)) i;
          entry ← match symlink entry with
                  | Some t => entry_at (entries (info st)) (Z.of_nat t)
                  | None => Ret entry
                  end;
          if compression_method entry =? COMPMETH_NONE then
            Ret (Some (mkZIPfileinfo entry h 0 0 None []), st)
          else
            match inflateInit2 zl with
            | Some s => Ret (Some (mkZIPfileinfo entry h 0 0 (Some s) []), st)
            | None => Ret (None, set_error (Some ERR_ZLIB) st)
            end
      end
  end.

(* ===================================================================== *)
(** * The archives of the scenarios *)
(* ===================================================================== *)

(** A local file header, to write archives down. *)
Definition local_header (needed method crc csize usize : Z) (nm : string)
    : list ascii :=
  le_encode 4 ZIP_LOCAL_FILE_SIG ++ le_encode 2 needed ++ le_encode 2 0
  ++ le_encode 2 method ++ le_encode 4 0 ++ le_encode 4 crc
  ++ le_encode 4 csize ++ le_encode 4 usize
  ++ le_encode 2 (strlen nm) ++ le_encode 2 0 ++ bytes_of_string nm.

(** A stored symlink made on Unix (host byte 3), as the central directory
    describes it. *)
Definition symlink_entry (nm : string) (ofs size : Z) : ZIPentry :=
  {| name := nm; symlink := None; resolved := ZIP_UNRESOLVED_SYMLINK;
     offset := ofs; version := 0x0314; version_needed := 10;
     compression_method := COMPMETH_NONE; crc := 0;
     compressed_size := size; uncompressed_size := size;
     last_mod_time := 0 |}.

Definition stored_entry (nm : string) (ofs size : Z) : ZIPentry :=
  {| name := nm; symlink := None; resolved := ZIP_UNRESOLVED_FILE;
     offset := ofs; version := 0x0314; version_needed := 10;
     compression_method := COMPMETH_NONE; crc := 0;
     compressed_size := size; uncompressed_size := size;
     last_mod_time := 0 |}.

(** The symlink loop: [a -> b], [b -> a]. *)
Definition loop_file : list ascii :=
  local_header 10 0 0 1 1 "a" ++ bytes_of_string "b"
  ++ local_header 10 0 0 1 1 "b" ++ bytes_of_string "a".

Definition loop_archive : rstate :=
  {| info := mounted [symlink_entry "a" 0 1; symlink_entry "b" 32 1];
     src := __PHYSFS_platformOpenRead loop_file;
     err := None |}.

(** The symlink chain: [target.txt] holding [OK], [link1 -> link2],
    [link2 -> target.txt]. *)
Definition chain_file : list ascii :=
  local_header 10 0 0 5 5 "link1" ++ bytes_of_string "link2"
  ++ local_header 10 0 0 10 10 "link2" ++ bytes_of_string "target.txt"
  ++ local_header 10 0 0 2 2 "target.txt" ++ bytes_of_string "OK".

Definition chain_archive : rstate :=
  {| info := mounted [symlink_entry "link1" 0 5; symlink_entry "link2" 40 10;
                      stored_entry "target.txt" 85 2];
     src := __PHYSFS_platformOpenRead chain_file;
     err := None |}.

(** A symlink to a file in a directory: [l -> d/f]. *)
Definition dirlink_file : list ascii :=
  local_header 10 0 0 1 1 "d/f" ++ bytes_of_string "x"
  ++ local_header 10 0 0 3 3 "l" ++ bytes_of_string "d/f".

Definition dirlink_archive : rstate :=
  {| info := mounted [stored_entry "d/f" 0 1; symlink_entry "l" 34 3];
     src := __PHYSFS_platformOpenRead dirlink_file;
     err := None |}.

(** The minimal stored archive: [hello.txt] holding ["Hello, World!\n"],
    followed by its central directory and the end record. *)
Definition hello_data : list ascii :=
  bytes_of_string "Hello, World!" ++ ["010"%char].

(** The archive with an archive comment behind its end record. *)
Definition hello_with_comment (comment : list ascii) : list ascii :=
  local_header 10 0 0 14 14 "hello.txt" ++ hello_data
  ++ central_record 0x0314 10 0 0 14 14 "hello.txt" 0 0
  ++ le_encode 4 ZIP_END_OF_CENTRAL_DIR_SIG ++ le_encode 2 0 ++ le_encode 2 0
  ++ le_encode 2 1 ++ le_encode 2 1 ++ le_encode 4 55 ++ le_encode 4 53
  ++ le_encode 2 (Z.of_nat (length comment)) ++ comment.

Definition hello_file : list ascii := hello_with_comment [].

Definition hello_archive : rstate :=
  {| info := mounted [stored_entry "hello.txt" 0 14];
     src := __PHYSFS_platformOpenRead hello_file;
     err := None |}.

(** The state a failed resolution leaves an entry in, by the kind the
    entry had. *)
Definition pinned (r : ZipResolveType) : ZipResolveType :=
  match r with
  | ZIP_UNRESOLVED_FILE | ZIP_BROKEN_FILE => ZIP_BROKEN_FILE
  | ZIP_UNRESOLVED_SYMLINK | ZIP_BROKEN_SYMLINK => ZIP_BROKEN_SYMLINK
  | r => r
  end.

(** The moves of [resolved] from before a call of [zip_resolve] to after
    it: an entry keeps its state, or an unresolved entry ends resolved or
    broken, by its kind. *)
Definition resolve_move (r r' : ZipResolveType) : Prop :=
  r' = r
  ∨ (r = ZIP_UNRESOLVED_FILE ∧ (r' = ZIP_RESOLVED ∨ r' = ZIP_BROKEN_FILE))
  ∨ (r = ZIP_UNRESOLVED_SYMLINK
     ∧ (r' = ZIP_RESOLVED ∨ r' = ZIP_BROKEN_SYMLINK)).

(** The states of the entries of the table. *)
Definition states (st : rstate) : list ZipResolveType :=
  resolved <$> entries (info st).

(** No resolution is under way: the table as it is between two calls of
    the archiver. *)
Definition quiescent (st : rstate) : Prop :=
  Forall (λ r, r ≠ ZIP_RESOLVING) (states st).


(* ===================================================================== *)
(** * The remaining operations of the archiver *)
(* ===================================================================== *)

(** ** [ZIP_getLastModTime] and [ZIP_isSymLink] *)

(** The return value and the error set: -1 with [ERR_NO_SUCH_FILE] (set
    by [zip_find_entry]) when there is no such entry. *)
Definition ZIP_getLastModTime (info : ZIPinfo) (nm : string)
    : result (Z * option PHYSFS_error) :=
  found ← zip_find_entry info nm;
  match found with
  | None => Ret (-1, Some ERR_NO_SUCH_FILE)
  | Some i => entry ← entry_at (entries info) i; Ret (last_mod_time entry, None)
  end.

Definition ZIP_isSymLink (info : ZIPinfo) (nm : string)
    : result (bool * option PHYSFS_error) :=
  found ← zip_find_entry info nm;
  match found with
  | None => Ret (false, Some ERR_NO_SUCH_FILE)
  | Some i =>
      entry ← entry_at (entries info) i;
      Ret (zip_entry_is_symlink entry, None)
  end.

(** ** [ZIP_isDirectory] *)

(** [pos] is a [PHYSFS_uint32]: the result of the search is converted to
    it before the test [pos >= 0]. [file] holds the bytes of the archive
    named [info->archiveName]. *)
Definition ZIP_isDirectory (zl : zlib) (fuel : nat) (file : list ascii)
    (st : rstate) (nm : string) : result (bool * rstate) :=
  p ← zip_find_start_of_dir (info st) nm true;
  let pos := u32 p in
  if pos >=? 0 then Ret (true, st)                  (* definitely a dir. *)
  else
    (* Follow symlinks. This means we might need to resolve entries. *)
    found ← zip_find_entry (info st) nm;
    match found with
    | None => Ret (false, set_error (Some ERR_NO_SUCH_FILE) st)
    | Some i =>
        entry ← entry_at (entries (info st)) i;
        '(rc, st) ←
          (if bool_decide (resolved entry = ZIP_UNRESOLVED_SYMLINK) then
             (* gotta resolve it. *)
             zip_resolve zl fuel
               (set_src (__PHYSFS_platformOpenRead file) st) i
           else Ret (true, st));
        if rc : bool then
          entry ← entry_at (entries (info st)) i;
          if bool_decide (resolved entry = ZIP_BROKEN_SYMLINK) then
            Ret (false, st)
          else
            match symlink entry with
            | None => Ret (false, set_error (Some ERR_NOT_A_DIR) st)
            | Some t =>
                target ← entry_at (entries (info st)) (Z.of_nat t);
                p ← zip_find_start_of_dir (info st) (name target) true;
                Ret (p >=? 0, st)
            end
        else Ret (false, st)
    end.

(** ** [zip_parse_end_of_central_dir] *)

(** What the parse hands back: the entry count, [*data_start] and the
    fixed-up [*central_dir_ofs]. *)
Record eocd_result : Type := mkeocd {
  eocd_entryCount : Z;
  eocd_data_start : Z;
  eocd_central_dir_ofs : Z
}.

(** The part behind the locator, up to the comment length: [pos] is the
    offset the locator returned. The comment length read is handed on
    with the result. *)
Definition parse_eocd_at (pos : Z) : io (eocd_result * Z) :=
  _ ← seek_to pos;
  (* check signature again, just in case. *)
  ui32 ← get32;
  _ ← bail_if (negb (ui32 =? ZIP_END_OF_CENTRAL_DIR_SIG)) ERR_NOT_AN_ARCHIVE;
  (* number of this disk *)
  ui16 ← get16;
  _ ← bail_if (negb (ui16 =? 0)) ERR_UNSUPPORTED_ARCHIVE;
  (* number of the disk with the start of the central directory *)
  ui16 ← get16;
  _ ← bail_if (negb (ui16 =? 0)) ERR_UNSUPPORTED_ARCHIVE;
  (* total number of entries in the central dir on this disk *)
  ui16 ← get16;
  (* total number of entries in the central dir *)
  count ← get16;
  _ ← bail_if (negb (ui16 =? count)) ERR_UNSUPPORTED_ARCHIVE;
  (* size of the central directory *)
  ui32 ← get32;
  (* offset of central directory *)
  central_dir_ofs ← get32;
  _ ← bail_if (pos <? u32 (central_dir_ofs + ui32)) ERR_UNSUPPORTED_ARCHIVE;
  (* the difference in bytes is how much arbitrary data is at the start of
     the physical file. *)
  let data_start := u32 (pos - u32 (central_dir_ofs + ui32)) in
  (* Now that we know the difference, fix up the central dir offset... *)
  let central_dir_ofs := u32 (central_dir_ofs + data_start) in
  (* zipfile comment length *)
  ui16 ← get16;
  mret (mkeocd count data_start central_dir_ofs, ui16).

(** The error of the library after a step that set [e'], when [e] was set
    before. *)
Definition error_after (e e' : option PHYSFS_error) : option PHYSFS_error :=
  match e' with
  | Some _ => e'
  | None => e
  end.

(** [len] is the variable that the locator writes the length of the file
    to. It is not written when the locator is left early, with the value
    0, because the platform could not tell the length: the comparison with
    [len] at the end then reads a variable that has never been set, and
    the error of the platform is still the error set when a later step
    fails without one. *)
Definition zip_parse_end_of_central_dir (h : handle)
    : result (step eocd_result) :=
  (* find the end-of-central-dir record, and seek to it. *)
  l ← locate_end_of_central_dir h;
  let pos := loc_pos l in
  if pos =? -1 then Ret (Bail (loc_error l) (loc_handle l))
  else
    match parse_eocd_at pos (loc_handle l) with
    | Bail e h => Ret (Bail (error_after (loc_error l) e) h)
    | Go (r, ui16) h =>
        len ← of_option (loc_len l);
        (* Make sure that the comment length matches to the end of file... *)
        if negb (pos + 22 + ui16 =? len)
        then Ret (Bail (Some ERR_UNSUPPORTED_ARCHIVE) h)
        else Ret (Go r h)
    end.

(** ** [ZIP_openArchive] *)

(** How a mount fails: on a request for writing, with
    [ERR_ARC_IS_READ_ONLY]; otherwise with the error set on the way, if
    one was set. *)
Inductive open_failure : Type :=
| ReadOnlyArchive
| Failed (e : option PHYSFS_error).

(** The archive handle of a mount, or the way it failed. The allocations
    are taken to succeed. *)
Definition ZIP_openArchive (mktime : tm → Z) (nm : string)
    (file : list ascii) (forWriting : bool)
    : result (ZIPinfo + open_failure) :=
  if forWriting then Ret (inr ReadOnlyArchive)
  else
    let h := __PHYSFS_platformOpenRead file in
    parsed ← zip_parse_end_of_central_dir h;
    match parsed with
    | Bail e _ => Ret (inr (Failed e))
    | Go eocd h =>
        loaded ← zip_load_entries mktime h (eocd_entryCount eocd)
                   (eocd_data_start eocd) (eocd_central_dir_ofs eocd);
        match loaded with
        | Bail e _ => Ret (inr (Failed e))
        | Go a _ =>
            Ret (inl {| archiveName := nm;
                        entryCount := eocd_entryCount eocd;
                        entries := a |})
        end
    end.

(* ===================================================================== *)
(** * Properties of the table *)
(* ===================================================================== *)

(** The entry at [m] lies in the directory searched for: its name repeats
    the first [dlen] characters of the path and goes on with a slash. *)
Definition in_directory (a : list ZIPentry) (path : string) (dlen : Z)
    (m : Z) : Prop :=
  ∃ e, entry_at a m = Ret e
       ∧ strncmp path (name e) (Z.to_nat dlen) = 0
       ∧ char_at (name e) dlen = Ret slash.

(** An entry that no resolution has been started on. *)
Definition unresolved (e : ZIPentry) : Prop :=
  resolved e = ZIP_UNRESOLVED_FILE ∨ resolved e = ZIP_UNRESOLVED_SYMLINK.

(** Two versions of one entry: what was read from the central directory
    is the same; the state, the data offset and the link target may
    differ. *)
Definition same_file (e e' : ZIPentry) : Prop :=
  name e' = name e
  ∧ version e' = version e
  ∧ version_needed e' = version_needed e
  ∧ compression_method e' = compression_method e
  ∧ crc e' = crc e
  ∧ compressed_size e' = compressed_size e
  ∧ uncompressed_size e' = uncompressed_size e
  ∧ last_mod_time e' = last_mod_time e.

(** What a resolution does to an entry: nothing; or it settles an
    unresolved entry. A file ends resolved or broken, with the link target
    it had; a symlink ends broken, or resolved with a link target. *)
Definition entry_step (e e' : ZIPentry) : Prop :=
  e' = e
  ∨ (same_file e e'
     ∧ ((resolved e = ZIP_UNRESOLVED_FILE
         ∧ symlink e' = symlink e
         ∧ (resolved e' = ZIP_RESOLVED ∨ resolved e' = ZIP_BROKEN_FILE))
        ∨ (resolved e = ZIP_UNRESOLVED_SYMLINK
           ∧ (resolved e' = ZIP_BROKEN_SYMLINK
              ∨ (resolved e' = ZIP_RESOLVED ∧ is_Some (symlink e')))))).

(** The tables at two moments of the resolution of the entry at [i]:
    that entry is one file throughout, the others take steps. *)
Definition resolving (i : nat) (a b : list ZIPentry) : Prop :=
  length b = length a
  ∧ ∀ j e e', a !! j = Some e → b !! j = Some e' →
      same_file e e' ∧ (j ≠ i → entry_step e e').

(** The archive handle apart from its table. *)
Definition same_archive (x y : ZIPinfo) : Prop :=
  archiveName y = archiveName x ∧ entryCount y = entryCount x.

(** What the queries of the archiver read of an entry: its name, its
    modification time, and whether it is a symlink. *)
Definition alike (e e' : ZIPentry) : Prop :=
  name e' = name e
  ∧ last_mod_time e' = last_mod_time e
  ∧ zip_entry_is_symlink e' = zip_entry_is_symlink e.

(** The link targets of the table: every target recorded in an entry is
    an entry of the table that is resolved and is not a link itself. *)
Definition targets_settled (a : list ZIPentry) : Prop :=
  ∀ (j : nat) (e : ZIPentry) (t : nat),
    a !! j = Some e → symlink e = Some t →
    ∃ f, a !! t = Some f ∧ resolved f = ZIP_RESOLVED ∧ symlink f = None.

(** The handle that a step leaves, whether it goes on or not. *)
Definition handle_after {A : Type} (s : step A) : handle :=
  match s with
  | Go _ h => h
  | Bail _ h => h
  end.

(** A step of a parser that leaves the bytes of the file alone. *)
Definition keeps_content {A : Type} (m : io A) : Prop :=
  ∀ h, content (handle_after (m h)) = content h.

(** The DOS date and time word of a moment, to write archives down: the
    year from 1980 in 7 bits, month and day, then hour, minute, and the
    second halved. *)
Definition dos_time_word (year month day hour minute second : Z) : Z :=
  ((year - 1980) * 2 ^ 9 + month * 2 ^ 5 + day) * 2 ^ 16
  + hour * 2 ^ 11 + minute * 2 ^ 5 + second / 2.

(** The bytes of the entry of an open stored file, as they lie in the
    archive. *)
Definition entry_data {zl : zlib} (f : ZIPfileinfo zl) : list ascii :=
  take (Z.to_nat (uncompressed_size (fi_entry f)))
    (drop (Z.to_nat (offset (fi_entry f))) (content (fi_handle f))).

(** An open stored file in step with its handle: the data of the entry
    lies in the archive, the position is within the entry, and the handle
    stands at the data offset plus the position. *)
Definition stored_file_ok {zl : zlib} (f : ZIPfileinfo zl) : Prop :=
  compression_method (fi_entry f) = COMPMETH_NONE
  ∧ 0 <= offset (fi_entry f)
  ∧ 0 <= uncompressed_size (fi_entry f) < 2 ^ 32
  ∧ offset (fi_entry f) + uncompressed_size (fi_entry f)
    <= Z.of_nat (length (content (fi_handle f)))
  ∧ 0 <= uncompressed_position f <= uncompressed_size (fi_entry f)
  ∧ cursor (fi_handle f) = offset (fi_entry f) + uncompressed_position f.

(** An open compressed file in step with its handle: the compressed
    position is within the compressed data of the entry, and the handle
    stands at the data offset plus that position. *)
Definition compressed_file_ok {zl : zlib} (f : ZIPfileinfo zl) : Prop :=
  0 <= offset (fi_entry f)
  ∧ 0 <= compressed_size (fi_entry f) < 2 ^ 32
  ∧ 0 <= compressed_position f <= compressed_size (fi_entry f)
  ∧ cursor (fi_handle f) = offset (fi_entry f) + compressed_position f.

(** An inflater for the scenarios: it hands on the input it is given, as
    much as there is room for, the way a stream of stored data inflates. *)
Definition copy_zlib : zlib :=
  {| z_state := unit; inflateInit2 := Some tt;
     inflate := λ _ input avail_out _,
       let n := Z.min (Z.of_nat (length input)) avail_out in
       (Z_OK, n, take (Z.to_nat n) input, tt) |}.

(** [hello.txt] of [hello_file] taken as a compressed entry, opened. *)
Definition hello_compressed : ZIPfileinfo copy_zlib :=
  {| fi_entry :=
       {| name := "hello.txt"; symlink := None; resolved := ZIP_RESOLVED;
          offset := 39; version := 0x0314; version_needed := 20;
          compression_method := 8; crc := 0;
          compressed_size := 14; uncompressed_size := 14;
          last_mod_time := 0 |};
     fi_handle := {| content := hello_file; cursor := 39;
                     length_error := None |};
     compressed_position := 0;
     uncompressed_position := 0;
     fi_stream := inflateInit2 copy_zlib;
     fi_input := [] |}.

(* ===================================================================== *)
(** * Unmounting *)
(* ===================================================================== *)

(** Modelled from the spec: [free] belongs to the C library, not to
    zip.c. The heap is the list of the blocks that are allocated; [free]
    of an allocated block returns it, and [free] of a block that is not
    allocated, as in a second [free] of the same pointer, is undefined. *)
Definition block : Type := nat.
Definition heap : Type := list block.

Definition free (hp : heap) (b : block) : result heap :=
  if bool_decide (b ∈ hp) then Ret (filter (λ x, x ≠ b) hp) else Undef.

(** The blocks behind a [DirHandle] of this archiver: the handle, its
    [ZIPinfo], the archive name, the entry table, and the name of each
    entry ([None] for a NULL pointer). *)
Record DirHandle : Type := mkDirHandle {
  dh_block : block;
  opaque_block : block;
  archiveName_block : block;
  entries_block : block;
  name_blocks : list (option block);
  dh_entryCount : Z
}.

(** ** [zip_free_entries] *)

(** The loop [for (i = 0; i < max; i++)], with [n] turns to go. *)
Fixpoint zip_free_entries_loop (n : nat) (hp : heap)
    (names : list (option block)) (i : nat) : result heap :=
  match n with
  | O => Ret hp
  | S n' =>
      nm ← of_option (names !! i);
      hp ← match nm with
           | Some b => free hp b
           | None => Ret hp
           end;
      zip_free_entries_loop n' hp names (S i)
  end.

Definition zip_free_entries (hp : heap) (entries : block)
    (names : list (option block)) (max : Z) : result heap :=
  hp ← zip_free_entries_loop (Z.to_nat max) hp names 0;
  free hp entries.

(** ** [ZIP_dirClose] *)

Definition ZIP_dirClose (hp : heap) (h : DirHandle) : result heap :=
  hp ← zip_free_entries hp (entries_block h) (name_blocks h)
         (dh_entryCount h);
  hp ← free hp (entries_block h);
  hp ← free hp (archiveName_block h);
  hp ← free hp (opaque_block h);
  free hp (dh_block h).
(** Deciding a comparison of the code from the arithmetic context. *)
Ltac cmp_true x y :=
  first [ rewrite (proj2 (Z.ltb_lt x y)) by lia
        | rewrite (proj2 (Z.leb_le x y)) by lia
        | rewrite (proj2 (Z.eqb_eq x y)) by lia ].
Ltac cmp_false x y :=
  first [ rewrite (proj2 (Z.ltb_ge x y)) by lia
        | rewrite (proj2 (Z.leb_gt x y)) by lia
        | rewrite (proj2 (Z.eqb_neq x y)) by lia ].
Ltac in_range :=
  repeat match goal with
  | |- context [?x <? 0] => rewrite (proj2 (Z.ltb_ge x 0)) by lia
  | |- context [Z.of_nat ?n <=? ?i] =>
      rewrite (proj2 (Z.leb_gt (Z.of_nat n) i)) by lia
  end; cbn [orb].

(** A bind that returns went through a step that returned. *)
Lemma bind_Ret_inv {A B} (m : result A) (k : A → result B) (v : B) :
  m ≫= k = Ret v → ∃ a, m = Ret a ∧ k a = Ret v.
Proof. destruct m as [a| |]; cbn; [eauto|done|done]. Qed.

(* ===================================================================== *)
(** * Properties of the string primitives *)
(* ===================================================================== *)

Section string_facts.

Lemma code_range c : 0 <= code c < 256.
Proof. unfold code. pose proof (N_ascii_bounded c). lia. Qed.

Lemma code_inj c d : code c = code d → c = d.
Proof.
  unfold code. intros H. apply N2Z.inj in H.
  rewrite <- (ascii_N_embedding c), <- (ascii_N_embedding d).
  by rewrite H.
Qed.

Lemma strcmp_refl a : strcmp a a = 0.
Proof. induction a as [|c a IH]; simpl; [done|]. by rewrite Z.eqb_refl. Qed.

Lemma strcmp_flip a b : strcmp b a = - strcmp a b.
Proof.
  revert b. induction a as [|c a IH]; intros [|d b]; simpl; try lia.
  rewrite (Z.eqb_sym (code d)).
  destruct (code c =? code d); [apply IH | lia].
Qed.

Lemma strcmp_eq a b :
  nul_free a = true → nul_free b = true → strcmp a b = 0 → a = b.
Proof.
  revert b. induction a as [|c a IH]; intros [|d b]; simpl; try done.
  - intros _ [Hd _]%andb_prop Hz.
    apply negb_true_iff, Z.eqb_neq in Hd. lia.
  - intros [Hc _]%andb_prop _ Hz.
    apply negb_true_iff, Z.eqb_neq in Hc. lia.
  - intros [_ Ha]%andb_prop [_ Hb]%andb_prop.
    destruct (Z.eqb_spec (code c) (code d)) as [Hcd|Hcd]; [|lia].
    intros Hz. apply code_inj in Hcd. f_equal; auto.
Qed.

Lemma strcmp_trans a b c :
  nul_free a = true → nul_free b = true → nul_free c = true →
  strcmp a b <= 0 → strcmp b c <= 0 → strcmp a c <= 0.
Proof.
  revert b c.
  induction a as [|x a IH]; intros [|y b] [|z c]; simpl; try lia;
    try (pose proof (code_range z); lia).
  - intros [Hx _]%andb_prop _ _.
    apply negb_true_iff, Z.eqb_neq in Hx. pose proof (code_range x). lia.
  - intros _ [Hy _]%andb_prop _.
    apply negb_true_iff, Z.eqb_neq in Hy. pose proof (code_range y). lia.
  - intros [_ Ha]%andb_prop [_ Hb]%andb_prop [_ Hc]%andb_prop.
    destruct (Z.eqb_spec (code x) (code y)), (Z.eqb_spec (code y) (code z)),
      (Z.eqb_spec (code x) (code z)); try lia.
    by apply IH.
Qed.

End string_facts.

(* ===================================================================== *)
(** * Reading and writing the entry table *)
(* ===================================================================== *)

Section table_access.
Implicit Types (a p r : list ZIPentry) (e y : ZIPentry).

Lemma entry_at_lookup a i e :
  0 <= i → a !! Z.to_nat i = Some e → entry_at a i = Ret e.
Proof.
  intros Hi Hl. unfold entry_at.
  apply lookup_lt_Some in Hl as Hlt.
  in_range. by rewrite Hl.
Qed.

Lemma entry_at_inv a i e :
  entry_at a i = Ret e → 0 <= i ∧ a !! Z.to_nat i = Some e.
Proof.
  unfold entry_at. destruct (Z.ltb_spec i 0); simpl; [done|].
  destruct (_ <=? _); [done|].
  destruct (a !! Z.to_nat i); simpl; [|done]. intros [= ->]. auto.
Qed.

Lemma entry_at_middle p y r :
  entry_at (p ++ y :: r) (Z.of_nat (length p)) = Ret y.
Proof.
  apply entry_at_lookup; [lia|].
  rewrite Nat2Z.id. by rewrite list_lookup_middle.
Qed.

Lemma store_entry_middle p y r e :
  store_entry (p ++ y :: r) (Z.of_nat (length p)) e = Ret (p ++ e :: r).
Proof.
  unfold store_entry. rewrite length_app, length_cons.
  in_range. rewrite Nat2Z.id. f_equal.
  rewrite insert_app_r_alt by lia.
  by rewrite Nat.sub_diag.
Qed.

End table_access.

(* ===================================================================== *)
(** * The sort of the entry table *)
(* ===================================================================== *)

Section sorting.
Implicit Types (a p r s rest : list ZIPentry) (e x y z tmp : ZIPentry).

Lemma name_le_refl x : name_le x x.
Proof. unfold name_le. by rewrite strcmp_refl. Qed.

Lemma name_le_trans x y z :
  nul_free (name x) = true → nul_free (name y) = true →
  nul_free (name z) = true →
  name_le x y → name_le y z → name_le x z.
Proof. unfold name_le. apply strcmp_trans. Qed.

Lemma StronglySorted_lookup_le a i j x y :
  StronglySorted name_le a → (i <= j)%nat →
  a !! i = Some x → a !! j = Some y → name_le x y.
Proof.
  intros Hs Hij Hx Hy.
  destruct (decide (i = j)) as [->|Hne].
  { rewrite Hx in Hy. injection Hy as ->. apply name_le_refl. }
  rewrite <- (take_drop j a) in Hs.
  eapply StronglySorted_app_1_elem_of; [exact Hs| |].
  - apply list_elem_of_lookup. exists i. rewrite lookup_take_lt by lia. done.
  - apply list_elem_of_lookup. exists 0%nat. rewrite lookup_drop.
    by rewrite Nat.add_0_r.
Qed.

(** The inner loop opens a hole at the place where [tmp] belongs: what is
    left of it compares at most [tmp], what was moved right compares
    greater. *)
Lemma insertion_shift_spec tmp p :
  ∀ y r fuel, (length p < fuel)%nat →
  ∃ p1 p2 z,
    p = p1 ++ p2 ∧
    Forall (λ e, strcmp (name e) (name tmp) > 0) p2 ∧
    (∀ e, last p1 = Some e → strcmp (name e) (name tmp) <= 0) ∧
    insertion_shift fuel (p ++ y :: r) 0 (Z.of_nat (length p)) tmp
      = Ret (p1 ++ z :: p2 ++ r, Z.of_nat (length p1)).
Proof.
  induction p as [|x p IH] using rev_ind; intros y r fuel Hfuel.
  - destruct fuel as [|fuel]; [simpl in Hfuel; lia|].
    exists [], [], y. simpl. repeat split; auto. intros e; done.
  - rewrite length_app in Hfuel. simpl in Hfuel.
    destruct fuel as [|fuel]; [lia|].
    cbn [insertion_shift].
    rewrite length_app. cbn [length].
    cmp_true 0 (Z.of_nat (length p + 1)).
    replace (Z.of_nat (length p + 1) - 1) with (Z.of_nat (length p)) by lia.
    rewrite <- (app_assoc p [x]). cbn [app].
    rewrite entry_at_middle. cbn [mbind result_bind].
    destruct (Z.gtb_spec (strcmp (name x) (name tmp)) 0) as [Hgt|Hle].
    + replace (p ++ x :: y :: r) with ((p ++ [x]) ++ y :: r)
        by (by rewrite <- app_assoc).
      replace (Z.of_nat (length p + 1)) with (Z.of_nat (length (p ++ [x])))
        by (rewrite length_app; simpl; lia).
      rewrite store_entry_middle. cbn [mbind result_bind].
      rewrite <- (app_assoc p [x]). cbn [app].
      destruct (IH x (x :: r) fuel ltac:(lia)) as (p1 & p2 & z & -> & Hp2 & Hp1 & ->).
      exists p1, (p2 ++ [x]), z. repeat split.
      * by rewrite app_assoc.
      * apply Forall_app. split; [done|]. constructor; [lia|constructor].
      * done.
      * by rewrite <- (app_assoc p2 [x]).
    + exists (p ++ [x]), [], y. repeat split.
      * by rewrite app_nil_r.
      * constructor.
      * intros e. rewrite last_snoc. intros [= <-]. lia.
      * rewrite length_app. cbn [length app]. f_equal. f_equal.
        by rewrite <- app_assoc.
Qed.

Lemma sorted_last_le p e x :
  StronglySorted name_le p → last p = Some e → x ∈ p → name_le x e.
Proof.
  intros Hs [q ->]%last_Some [Hq|Hx]%elem_of_app.
  - eapply StronglySorted_app_1_elem_of; [exact Hs|done|]. by left.
  - apply list_elem_of_singleton in Hx as ->. apply name_le_refl.
Qed.

(** Putting [tmp] into the hole keeps the prefix sorted. *)
Lemma insert_sorted p1 p2 tmp :
  c_names (p1 ++ tmp :: p2) →
  StronglySorted name_le (p1 ++ p2) →
  Forall (λ e, strcmp (name e) (name tmp) > 0) p2 →
  (∀ e, last p1 = Some e → strcmp (name e) (name tmp) <= 0) →
  StronglySorted name_le (p1 ++ tmp :: p2).
Proof.
  intros Hc Hs Hp2 Hp1.
  apply StronglySorted_app in Hs as (H12 & Hs1 & Hs2).
  assert (Htmp : Forall (name_le tmp) p2).
  { eapply Forall_impl; [exact Hp2|]. intros e He. simpl in He. unfold name_le.
    rewrite strcmp_flip. lia. }
  apply StronglySorted_app_2.
  - intros x1 x2 Hx1 [->|Hx2]%elem_of_cons; [|by apply H12].
    destruct (last p1) as [e|] eqn:Hlast.
    + unfold c_names in Hc. rewrite Forall_forall in Hc.
      apply (name_le_trans x1 e tmp).
      * apply Hc. apply elem_of_app. by left.
      * apply Hc. apply elem_of_app. left.
        apply last_Some in Hlast as [q ->]. apply elem_of_app. right. by left.
      * apply Hc. apply elem_of_app. right. by left.
      * by apply (sorted_last_le p1).
      * by apply Hp1.
    + apply last_None in Hlast as ->. by apply elem_of_nil in Hx1.
  - done.
  - by constructor.
Qed.

Lemma insertion_loop_spec rest :
  ∀ s fuel hi,
    (length rest < fuel)%nat →
    hi = Z.of_nat (length s) + Z.of_nat (length rest) - 1 →
    hi < 2 ^ 32 - 1 →
    c_names (s ++ rest) →
    StronglySorted name_le s →
    ∃ a', insertion_loop fuel (s ++ rest) 0 hi (Z.of_nat (length s)) = Ret a'
          ∧ StronglySorted name_le a' ∧ s ++ rest ≡ₚ a'.
Proof.
  induction rest as [|x rest IH]; intros s fuel hi Hfuel Hhi Hmax Hc Hs.
  - destruct fuel as [|fuel]; [simpl in Hfuel; lia|].
    cbn [insertion_loop length] in *.
    cmp_false (Z.of_nat (length s)) hi.
    exists (s ++ []). rewrite app_nil_r. auto.
  - cbn [length] in Hfuel, Hhi.
    destruct fuel as [|fuel]; [lia|].
    cbn [insertion_loop].
    cmp_true (Z.of_nat (length s)) hi.
    rewrite entry_at_middle. cbn [mbind result_bind].
    destruct (insertion_shift_spec x s x rest (S (Z.to_nat (Z.of_nat (length s))))
                ltac:(lia)) as (p1 & p2 & z & Hsplit & Hp2 & Hp1 & ->).
    cbn [mbind result_bind].
    rewrite store_entry_middle. cbn [mbind result_bind].
    subst s.
    assert (Hperm : (p1 ++ p2) ++ x :: rest ≡ₚ (p1 ++ x :: p2) ++ rest).
    { rewrite <- !app_assoc. apply Permutation_app_head.
      cbn [app]. by rewrite Permutation_middle. }
    assert (Hc' : c_names ((p1 ++ x :: p2) ++ rest)).
    { unfold c_names in *. by rewrite <- Hperm. }
    assert (Hs' : StronglySorted name_le (p1 ++ x :: p2)).
    { apply insert_sorted; auto.
      unfold c_names in *. apply Forall_app in Hc' as [? _]. done. }
    rewrite length_app in Hhi.
    replace (u32 (Z.of_nat (length (p1 ++ p2)) + 1))
      with (Z.of_nat (length (p1 ++ x :: p2))).
    2:{ unfold u32. rewrite !length_app. cbn [length].
        rewrite Z.mod_small; lia. }
    replace (p1 ++ x :: p2 ++ rest) with ((p1 ++ x :: p2) ++ rest)
      by (by rewrite <- app_assoc).
    destruct (IH (p1 ++ x :: p2) fuel hi) as (a' & Ha' & Hsa' & Hpa'); auto.
    { lia. }
    { rewrite length_app. cbn [length]. lia. }
    exists a'. split; [done|]. split; [done|]. by rewrite Hperm.
Qed.

Lemma zip_insertion_sort_spec a :
  a ≠ [] → Z.of_nat (length a) < 2 ^ 32 → c_names a →
  ∃ a', zip_insertion_sort a 0 (u32 (Z.of_nat (length a) - 1)) = Ret a'
        ∧ StronglySorted name_le a' ∧ a ≡ₚ a'.
Proof.
  intros Hne Hlen Hc. destruct a as [|x rest]; [done|].
  unfold zip_insertion_sort. cbn [length] in *.
  unfold u32 at 1. rewrite Z.mod_small by lia.
  change (u32 (0 + 1)) with (Z.of_nat (length [x])).
  change (x :: rest) with ([x] ++ rest).
  apply insertion_loop_spec; cbn [length app] in *; auto; try lia.
  repeat constructor.
Qed.

(** The quicksort is called for tables of at most
    [ZIP_QUICKSORT_THRESHOLD] entries only, and leaves them as they are. *)
Lemma zip_quick_sort_small a fuel hi :
  0 <= hi <= ZIP_QUICKSORT_THRESHOLD → zip_quick_sort (S fuel) a 0 hi = Ret a.
Proof.
  intros Hhi. cbn [zip_quick_sort]. unfold ZIP_QUICKSORT_THRESHOLD in *.
  unfold u32. rewrite Z.sub_0_r, Z.mod_small by lia.
  rewrite Z.gtb_ltb. by cmp_false 4 hi.
Qed.

Lemma zip_sort_entries_spec a :
  a ≠ [] → Z.of_nat (length a) < 2 ^ 32 → c_names a →
  ∃ a', zip_sort_entries a (Z.of_nat (length a)) = Ret a'
        ∧ StronglySorted name_le a' ∧ a ≡ₚ a'.
Proof.
  intros Hne Hlen Hc. unfold zip_sort_entries.
  assert (0 < Z.of_nat (length a)) by (destruct a; [done|cbn [length]; lia]).
  destruct (Z.leb_spec (Z.of_nat (length a)) ZIP_QUICKSORT_THRESHOLD).
  - rewrite zip_quick_sort_small.
    + cbn [mbind result_bind]. by apply zip_insertion_sort_spec.
    + unfold u32, ZIP_QUICKSORT_THRESHOLD in *. rewrite Z.mod_small; lia.
  - cbn [mbind result_bind]. by apply zip_insertion_sort_spec.
Qed.

Lemma zip_sort_entries_empty : zip_sort_entries [] 0 = Undef.
Proof. reflexivity. Qed.
End sorting.

(* ===================================================================== *)
(** * Lookup in the sorted table *)
(* ===================================================================== *)

Section lookup.
Implicit Types (a : list ZIPentry) (e : ZIPentry).

(** The binary search keeps an entry named [path] between [lo] and [hi]
    as long as there is one, and so ends on one. *)
Lemma zip_find_entry_loop_hit a path :
  StronglySorted name_le a →
  ∀ fuel lo hi k e,
    0 <= lo → hi < Z.of_nat (length a) → hi - lo + 1 < Z.of_nat fuel →
    lo <= k <= hi → a !! Z.to_nat k = Some e → name e = path →
    ∃ m e', zip_find_entry_loop fuel a path lo hi = Ret (Some m)
            ∧ a !! Z.to_nat m = Some e' ∧ strcmp path (name e') = 0.
Proof.
  intros Hs. induction fuel as [|fuel IH]; intros lo hi k e Hlo Hhi Hfuel Hk He Hn.
  { lia. }
  cbn [zip_find_entry_loop].
  cmp_true lo hi.
  set (middle := lo + (hi - lo) / 2).
  assert (Hmid : lo <= middle <= hi).
  { unfold middle. pose proof (Z.div_pos (hi - lo) 2 ltac:(lia) ltac:(lia)).
    pose proof (Z.div_le_upper_bound (hi - lo) 2 (hi - lo) ltac:(lia) ltac:(lia)).
    lia. }
  destruct (lookup_lt_is_Some_2 a (Z.to_nat middle) ltac:(lia)) as [em Hem].
  rewrite (entry_at_lookup a middle em) by (done || lia).
  cbn [mbind result_bind].
  destruct (Z.eqb_spec (strcmp path (name em)) 0) as [Heq|Hneq].
  { exists middle, em. auto. }
  destruct (Z.gtb_spec (strcmp path (name em)) 0) as [Hgt|Hle].
  - (* the entry lies right of the middle *)
    assert (middle < k).
    { destruct (Z.lt_ge_cases middle k) as [|Hkm]; [done|]. exfalso.
      pose proof (StronglySorted_lookup_le a (Z.to_nat k) (Z.to_nat middle)
                    e em Hs ltac:(lia) He Hem) as Hle.
      unfold name_le in Hle. rewrite Hn in Hle. lia. }
    apply (IH (middle + 1) hi k e); auto; lia.
  - (* the entry lies left of the middle *)
    assert (k < middle).
    { destruct (Z.lt_ge_cases k middle) as [|Hkm]; [done|]. exfalso.
      pose proof (StronglySorted_lookup_le a (Z.to_nat middle) (Z.to_nat k)
                    em e Hs ltac:(lia) Hem He) as Hle'.
      unfold name_le in Hle'. rewrite Hn, strcmp_flip in Hle'. lia. }
    apply (IH lo (middle - 1) k e); auto; lia.
Qed.

Lemma zip_find_entry_hit a e :
  StronglySorted name_le a → Z.of_nat (length a) <= 65535 → c_names a →
  e ∈ a →
  ∃ m e', zip_find_entry (mounted a) (name e) = Ret (Some m)
          ∧ a !! Z.to_nat m = Some e' ∧ name e' = name e.
Proof.
  intros Hs Hlen Hc [k Hk]%list_elem_of_lookup.
  apply lookup_lt_Some in Hk as Hlt.
  unfold zip_find_entry, mounted. cbn [entryCount entries].
  assert (Hhi : s32 (Z.of_nat (length a) - 1) = Z.of_nat (length a) - 1).
  { unfold s32, signed. rewrite Z.mod_small by lia.
    change (2 ^ (32 - 1)) with 2147483648.
    by cmp_true (Z.of_nat (length a) - 1) 2147483648. }
  rewrite Hhi.
  destruct (zip_find_entry_loop_hit a (name e) Hs
              (S (Z.to_nat (Z.of_nat (length a)))) 0 (Z.of_nat (length a) - 1)
              (Z.of_nat k) e) as (m & e' & Hfind & Hm & Hcmp); try lia; auto.
  { by rewrite Nat2Z.id. }
  exists m, e'. split; [done|]. split; [done|].
  unfold c_names in Hc. rewrite Forall_forall in Hc.
  symmetry. apply strcmp_eq; auto.
  - apply Hc. apply list_elem_of_lookup. eauto.
  - apply Hc. apply list_elem_of_lookup. eauto.
Qed.
End lookup.

(** After the sort every name is found, by an entry with that name. *)
Lemma zip_sort_entries_then_find (a : list ZIPentry) :
  a ≠ [] → Z.of_nat (length a) <= 65535 → c_names a →
  ∃ a', zip_sort_entries a (Z.of_nat (length a)) = Ret a'
        ∧ a ≡ₚ a'
        ∧ sorted_by_name a'
        ∧ ∀ E, E ∈ a' →
            ∃ m e, zip_find_entry (mounted a') (name E) = Ret (Some m)
                   ∧ a' !! Z.to_nat m = Some e ∧ name e = name E.
Proof.
  intros Hne Hlen Hc.
  destruct (zip_sort_entries_spec a Hne ltac:(lia) Hc) as (a' & Hsort & Hs & Hp).
  exists a'. split; [done|]. split; [done|]. split.
  - intros i j x y Hij Hx Hy. by apply (StronglySorted_lookup_le a' i j).
  - intros E HE. apply zip_find_entry_hit; auto.
    + apply Permutation_length in Hp. lia.
    + unfold c_names in *. by rewrite <- Hp.
Qed.

(* ===================================================================== *)
(** * Directory search and enumeration *)
(* ===================================================================== *)

(** With [lo] and [hi] both at the entry count, the next turn of the
    search reads the entry one past the end of the table. *)
Lemma zip_find_start_of_dir_loop_top a path dlen stop fuel retval :
  zip_find_start_of_dir_loop (S fuel) a path dlen stop
    (Z.of_nat (length a)) (Z.of_nat (length a)) retval = Undef.
Proof.
  cbn [zip_find_start_of_dir_loop].
  cmp_true (Z.of_nat (length a)) (Z.of_nat (length a)).
  rewrite Z.sub_diag. change (0 / 2) with 0. rewrite Z.add_0_r.
  unfold entry_at.
  cmp_false (Z.of_nat (length a)) 0.
  cmp_true (Z.of_nat (length a)) (Z.of_nat (length a)).
  reflexivity.
Qed.

(** C10. The search of [zip_find_start_of_dir] does read past the table:
    in the archive whose only entry is [a], the search for [b] (greater
    than every name) moves [lo] up to the entry count, which [hi] still
    holds, and the next turn reads [entries[1]] of a one-entry table. *)
Theorem zip_find_start_of_dir_reads_past_end :
  entryCount one_entry = 1
  ∧ zip_find_start_of_dir one_entry "b" true = Undef
  ∧ zip_find_start_of_dir one_entry "b" false = Undef
  ∧ entry_at (entries one_entry) (entryCount one_entry) = Undef.
Proof. repeat split; reflexivity. Qed.

(** The same search with [hi] started at [entryCount - 1], as
    [zip_find_entry] does, stays inside the table on that input. *)
Lemma zip_find_start_of_dir_loop_inside :
  zip_find_start_of_dir_loop 3 (entries one_entry) "b" 1 true 0 0 (-1)
  = Ret (-1).
Proof. reflexivity. Qed.

(** C1. On the archive [d/], [d/sub/], [d/sub/z], [d/x], [d/y], [e] the
    enumeration of [d] appends [sub] and nothing else: the loop that is
    meant to skip the children of [sub] skips every later entry of [d],
    [d/x] and [d/y] included, and the next turn reads [e] two bytes in,
    past its terminator. The names [x] and [y] are never appended. *)
Theorem ZIP_enumerateFiles_drops_files_after_subdir :
  ∀ (n : nat) (omitSymLinks : bool),
    ZIP_enumerateFiles (6 + n) scenario_dirs "d" omitSymLinks
    = (["sub"], Undef).
Proof. intros n [|]; reflexivity. Qed.

(** The enumeration of the root reads [dirname[-1]]. *)
Lemma ZIP_enumerateFiles_root :
  ∀ (n : nat), ZIP_enumerateFiles n scenario_dirs "" false = ([], Undef).
Proof. intros n. reflexivity. Qed.

(** Without the entry [e] after the directory, the skipping loop runs off
    the end of the table. *)
Lemma ZIP_enumerateFiles_skips_past_end :
  ∀ (n : nat),
    ZIP_enumerateFiles (4 + n)
      (mounted (file_entry <$> ["d/"; "d/sub/"; "d/x"])) "d" false
    = (["sub"], Undef).
Proof. intros n. reflexivity. Qed.

(* ===================================================================== *)
(** * The end-of-central-directory locator *)
(* ===================================================================== *)

(** C6. The locator misses a signature that is in range. An archive
    without entries and without comment is the 22-byte record alone, its
    signature at offset 0; the scan of the only window stops above index
    0 and the call fails with [ERR_NOT_AN_ARCHIVE]. The archive of
    [hello.txt] with an archive comment of 300 bytes is 430 bytes long,
    its signature at offset 108: the first window starts at 174, the
    second would start at -78, and the call fails on the seek. *)
Theorem zip_find_end_of_central_dir_misses_signature :
  (length (empty_eocd []) = 22%nat
   ∧ eocd_signature_at (empty_eocd []) 0
   ∧ zip_find_end_of_central_dir (__PHYSFS_platformOpenRead (empty_eocd []))
     = Ret (-1, Some ERR_NOT_AN_ARCHIVE))
  ∧
  (let file := hello_with_comment (replicate 300 "c"%char) in
   length file = 430%nat
   ∧ eocd_signature_at file 108
   ∧ ∃ e, zip_find_end_of_central_dir (__PHYSFS_platformOpenRead file)
          = Ret (-1, e)).
Proof.
  split.
  - repeat split; vm_compute; congruence.
  - repeat split; try (vm_compute; congruence).
    eexists. vm_compute. reflexivity.
Qed.

(** Without the comment the same archive is located. *)
Lemma zip_find_end_of_central_dir_hello :
  zip_find_end_of_central_dir (__PHYSFS_platformOpenRead hello_file)
  = Ret (108, None).
Proof. vm_compute. reflexivity. Qed.

(** Where the windows do line up, the signature is found. *)
Lemma zip_find_end_of_central_dir_finds :
  zip_find_end_of_central_dir
    (__PHYSFS_platformOpenRead (bytes_of_string "x" ++ empty_eocd []))
  = Ret (1, None).
Proof. vm_compute. reflexivity. Qed.

(** C2. [ZIP_isArchive] has the test of the locator backwards. The file
    [hello] has neither the local-file signature in front nor an
    end-of-central-directory signature anywhere, and is reported as an
    archive; one byte followed by an end-of-central-directory record, which
    the locator finds at offset 1, is reported as not an archive. *)
Theorem ZIP_isArchive_inverted :
  (zip_find_end_of_central_dir
     (__PHYSFS_platformOpenRead (bytes_of_string "hello"))
   = Ret (-1, Some ERR_NOT_AN_ARCHIVE)
   ∧ ZIP_isArchive (bytes_of_string "hello") = Ret true)
  ∧
  (zip_find_end_of_central_dir
     (__PHYSFS_platformOpenRead (bytes_of_string "x" ++ empty_eocd []))
   = Ret (1, None)
   ∧ ZIP_isArchive (bytes_of_string "x" ++ empty_eocd []) = Ret false).
Proof. repeat split; vm_compute; reflexivity. Qed.

(** In general: without the signature in front, the answer is true exactly
    when the locator returns -1. *)
Lemma ZIP_isArchive_no_local_sig file sig h pos e :
  readui32 (__PHYSFS_platformOpenRead file) = Some (sig, h) →
  sig ≠ ZIP_LOCAL_FILE_SIG →
  zip_find_end_of_central_dir h = Ret (pos, e) →
  ZIP_isArchive file = Ret (pos =? -1).
Proof.
  intros Hr Hs Hf. unfold ZIP_isArchive. rewrite Hr.
  cmp_false sig ZIP_LOCAL_FILE_SIG. by rewrite Hf.
Qed.

(* ===================================================================== *)
(** * Expansion of symlink targets *)
(* ===================================================================== *)

Section expansion.
Implicit Types (b : list ascii) (ptr prevptr : Z).

Lemma peek_lookup b i c :
  0 <= i → b !! Z.to_nat i = Some c → peek b i = Ret (code c).
Proof.
  intros Hi Hl. unfold peek. apply lookup_lt_Some in Hl as Hlt.
  in_range. by rewrite Hl.
Qed.

Lemma buf_strchr_here b ptr c :
  0 <= ptr → b !! Z.to_nat ptr = Some c → code c = slash →
  buf_strchr b ptr slash = Ret (Some ptr).
Proof.
  intros Hp Hl Hc. unfold buf_strchr. apply lookup_lt_Some in Hl as Hlt.
  cmp_false ptr 0. cmp_false (Z.of_nat (length b)) ptr. cbn [orb].
  rewrite (drop_S b c (Z.to_nat ptr) Hl). cbn [find_char].
  rewrite Hc, Z.eqb_refl. cbn. by rewrite Z.add_0_r.
Qed.

(** A slash followed by anything but a dot: the turn changes nothing but
    [prevptr], and leaves [ptr] on the same slash. *)
Lemma expand_turn_same_slash b ptr prevptr c d :
  0 <= ptr → b !! Z.to_nat ptr = Some c → code c = slash →
  b !! Z.to_nat (ptr + 1) = Some d → code d ≠ dot →
  expand_turn b ptr prevptr = Ret (Again b ptr ptr).
Proof.
  intros Hp Hc Hslash Hd Hdot. unfold expand_turn.
  rewrite (buf_strchr_here b ptr c) by done. cbn [mbind result_bind].
  rewrite (peek_lookup b (ptr + 1) d) by (done || lia).
  cbn [mbind result_bind]. by cmp_false (code d) dot.
Qed.

(** So the loop never leaves that slash. *)
Lemma expand_loop_never_returns b ptr c d :
  0 <= ptr → b !! Z.to_nat ptr = Some c → code c = slash →
  b !! Z.to_nat (ptr + 1) = Some d → code d ≠ dot →
  ∀ fuel prevptr, expand_loop fuel b ptr prevptr = NoFuel.
Proof.
  intros Hp Hc Hslash Hd Hdot. induction fuel as [|fuel IH]; intros prevptr.
  - reflexivity.
  - cbn [expand_loop].
    rewrite (expand_turn_same_slash b ptr prevptr c d) by done.
    cbn [mbind result_bind]. apply IH.
Qed.

(** A turn that ends in the state it started from is repeated for ever. *)
Lemma expand_loop_fixed_state b ptr prevptr :
  expand_turn b ptr prevptr = Ret (Again b ptr prevptr) →
  ∀ fuel, expand_loop fuel b ptr prevptr = NoFuel.
Proof.
  intros Hturn. induction fuel as [|fuel IH]; [done|].
  cbn [expand_loop]. rewrite Hturn. cbn [mbind result_bind]. apply IH.
Qed.

End expansion.

(** The expansion does not terminate on [a/b]: the branch for an ordinary
    segment sets [prevptr] and leaves [ptr] on the slash, which the next
    [strchr] finds again. The same holds for [dir/] (the slash before the
    terminator) and for [a/..], where the slash stays in the buffer behind
    the new terminator. *)
Lemma zip_expand_symlink_path_stuck :
  ∀ fuel : nat,
    zip_expand_symlink_path fuel (c_buffer "a/b") = NoFuel
    ∧ zip_expand_symlink_path fuel (c_buffer "dir/") = NoFuel
    ∧ zip_expand_symlink_path fuel (c_buffer "a/..") = NoFuel.
Proof.
  intros fuel. unfold zip_expand_symlink_path. repeat split.
  - destruct fuel as [|fuel]; [done|].
    change (expand_loop (S fuel) (c_buffer "a/b") 0 0)
      with (expand_loop fuel (c_buffer "a/b") 1 1).
    by apply expand_loop_fixed_state.
  - destruct fuel as [|fuel]; [done|].
    change (expand_loop (S fuel) (c_buffer "dir/") 0 0)
      with (expand_loop fuel (c_buffer "dir/") 3 3).
    by apply expand_loop_fixed_state.
  - destruct fuel as [|fuel]; [done|].
    change (expand_loop (S fuel) (c_buffer "a/..") 0 0)
      with (expand_loop fuel (NUL :: bytes_of_string "/.." ++ [NUL]) 1 0).
    by apply expand_loop_fixed_state.
Qed.

(* ===================================================================== *)
(** * The initial state of an entry *)
(* ===================================================================== *)

Section load_entry.

Lemma le_decode_bound l : 0 <= le_decode l < 256 ^ Z.of_nat (length l).
Proof.
  induction l as [|c l IH]; cbn [le_decode length]; [lia|].
  rewrite Nat2Z.inj_succ, Z.pow_succ_r by lia.
  pose proof (code_range c). lia.
Qed.

Lemma field_bound h ofs w : 0 <= field h ofs w < 256 ^ Z.of_nat w.
Proof.
  unfold field.
  pose proof (le_decode_bound (take w (drop (Z.to_nat (cursor h + ofs)) (content h)))) as Hb.
  pose proof (length_take_le (drop (Z.to_nat (cursor h + ofs)) (content h)) w) as Hl.
  rewrite length_take in Hb.
  split; [lia|].
  eapply Z.lt_le_trans; [apply Hb|].
  apply Z.pow_le_mono_r; lia.
Qed.

Lemma platformRead_one h size :
  0 < size →
  (__PHYSFS_platformRead h size 1).1.1 = 1 →
  __PHYSFS_platformRead h size 1
  = (1, take (Z.to_nat size) (drop (Z.to_nat (cursor h)) (content h)),
     advance h size).
Proof.
  intros Hs. unfold __PHYSFS_platformRead. cbn [fst]. intros ->.
  unfold advance. by rewrite Z.mul_1_l.
Qed.

Lemma get32_inv h v h' :
  get32 h = Go v h' → v = field h 0 4 ∧ h' = advance h 4.
Proof.
  unfold get32, readui32.
  destruct (__PHYSFS_platformRead h 4 1) as [[n bytes] h1] eqn:Hr.
  destruct (Z.eqb_spec n 1) as [->|]; [|done].
  rewrite platformRead_one in Hr by (lia || by rewrite Hr).
  injection Hr as <- <-. intros [= <- <-].
  unfold field. by rewrite Z.add_0_r.
Qed.

Lemma get16_inv h v h' :
  get16 h = Go v h' → v = field h 0 2 ∧ h' = advance h 2.
Proof.
  unfold get16, readui16.
  destruct (__PHYSFS_platformRead h 2 1) as [[n bytes] h1] eqn:Hr.
  destruct (Z.eqb_spec n 1) as [->|]; [|done].
  rewrite platformRead_one in Hr by (lia || by rewrite Hr).
  injection Hr as <- <-. intros [= <- <-].
  unfold field. by rewrite Z.add_0_r.
Qed.

Lemma field_advance h k ofs w : field (advance h k) ofs w = field h (k + ofs) w.
Proof. unfold field, advance. cbn [content cursor]. by rewrite Z.add_assoc. Qed.

Lemma advance_advance h a b : advance (advance h a) b = advance h (a + b).
Proof. unfold advance. cbn [content cursor]. by rewrite Z.add_assoc. Qed.

Lemma hosttype_16 v : 0 <= v < 2 ^ 16 → hosttype v = Z.shiftr v 8.
Proof.
  intros Hv. unfold hosttype, u8.
  change 0xFF with (Z.ones 8). rewrite Z.land_ones by lia.
  rewrite Z.mod_mod by lia. rewrite Z.shiftr_div_pow2 by lia.
  apply Z.mod_small. split.
  - apply Z.div_pos; lia.
  - apply Z.div_lt_upper_bound; lia.
Qed.

Lemma zip_version_does_symlinks_spec v :
  0 <= v < 2 ^ 16 →
  zip_version_does_symlinks v
  = bool_decide (Z.shiftr v 8 ∉ [0; 1; 2; 4; 6; 11; 14; 13; 15; 18]).
Proof.
  intros Hv. unfold zip_version_does_symlinks. rewrite hosttype_16 by done.
  generalize (Z.shiftr v 8). intros x.
  destruct x as [|p|p]; [done| |done].
  do 5 (try destruct p as [p|p|]); done.
Qed.

Lemma symlink_mode_spec attr :
  (Z.land (u16 (Z.land (Z.shiftr attr 16) 0xFFFF)) UNIX_FILETYPE_MASK
   =? UNIX_FILETYPE_SYMLINK)
  = bool_decide (Z.land (Z.shiftr attr 16) 0xF000 = 0xA000).
Proof.
  unfold u16, UNIX_FILETYPE_MASK, UNIX_FILETYPE_SYMLINK.
  change 0xFFFF with (Z.ones 16). rewrite Z.land_ones by lia.
  rewrite Z.mod_mod by lia. rewrite <- Z.land_ones by lia.
  rewrite <- Z.land_assoc. change (Z.land (Z.ones 16) 0xF000) with 0xF000.
  destruct (Z.eqb_spec (Z.land (Z.shiftr attr 16) 0xF000) 0xA000) as [H|H].
  - by rewrite bool_decide_eq_true_2.
  - by rewrite bool_decide_eq_false_2.
Qed.


End load_entry.

Ltac next_read H :=
  match type of H with
  | context [get32 ?h] =>
      let v := fresh "v" in let h' := fresh "h" in let E := fresh "E" in
      destruct (get32 h) as [v h'|] eqn:E; [|discriminate H];
      apply get32_inv in E as [-> ->]
  | context [get16 ?h] =>
      let v := fresh "v" in let h' := fresh "h" in let E := fresh "E" in
      destruct (get16 h) as [v h'|] eqn:E; [|discriminate H];
      apply get16_inv in E as [-> ->]
  end.

Section load_entry_fields.

Lemma zip_load_entry_fields mktime fixup h e h' :
  zip_load_entry mktime fixup h = Go e h' →
  version e = record_version_made_by h
  ∧ uncompressed_size e = record_uncompressed_size h
  ∧ resolved e =
      if zip_has_symlink_attr e (record_external_attr h)
      then ZIP_UNRESOLVED_SYMLINK else ZIP_UNRESOLVED_FILE.
Proof.
  unfold zip_load_entry, record_version_made_by, record_uncompressed_size,
    record_external_attr.
  cbv [mbind io_bind mret io_ret]. intros H.
  next_read H.
  unfold bail_if at 1 in H.
  destruct (negb _); [discriminate H|].
  do 15 (next_read H).
  destruct (read_block _ _) as [bytes h1|]; [|discriminate H].
  unfold tell in H.
  destruct (seek_to _ _) as [[] h2|]; [|discriminate H].
  injection H as <- <-. cbn [version uncompressed_size resolved].
  rewrite ?advance_advance, ?field_advance. cbn [Z.add Pos.add Pos.succ].
  unfold zip_has_symlink_attr. cbn [version uncompressed_size].
  rewrite ?advance_advance, ?field_advance. cbn [Z.add Pos.add Pos.succ].
  done.
Qed.

(** C9. The entry that [zip_load_entry] makes of a central-directory
    record starts as [ZIP_UNRESOLVED_SYMLINK] exactly when the host-OS byte
    of the record's version-made-by field is outside
    {0,1,2,4,6,11,14,13,15,18}, its uncompressed size is above 0, and the
    upper 16 bits of its external attributes, masked with 0170000, equal
    0120000; it starts as [ZIP_UNRESOLVED_FILE] otherwise. *)
Theorem zip_load_entry_initial_resolved mktime fixup h e h' :
  zip_load_entry mktime fixup h = Go e h' →
  resolved e = spec_initial_resolved (record_version_made_by h)
                 (record_uncompressed_size h) (record_external_attr h).
Proof.
  intros (Hv & Hs & ->)%zip_load_entry_fields.
  unfold zip_has_symlink_attr, spec_initial_resolved.
  rewrite Hv, Hs.
  rewrite zip_version_does_symlinks_spec
    by (apply (field_bound h 4 2)).
  rewrite symlink_mode_spec.
  replace (record_uncompressed_size h >? 0)
    with (bool_decide (record_uncompressed_size h > 0)); [done|].
  rewrite Z.gtb_ltb. destruct (Z.ltb_spec 0 (record_uncompressed_size h)).
  - apply bool_decide_eq_true_2. lia.
  - apply bool_decide_eq_false_2. lia.
Qed.

Lemma zip_load_entry_initial_resolved_witness :
  let h := __PHYSFS_platformOpenRead
             (central_record 0x0314 20 0 0 1 1 "link" 0xA1FF0000 0) in
  ∃ e h', zip_load_entry (λ _, 0) 0 h = Go e h'
    ∧ resolved e = ZIP_UNRESOLVED_SYMLINK
    ∧ resolved e = spec_initial_resolved (record_version_made_by h)
                     (record_uncompressed_size h) (record_external_attr h).
Proof.
  intros h.
  destruct (zip_load_entry (λ _, 0) 0 h) as [e h'|] eqn:E; [|by vm_compute in E].
  exists e, h'. split; [done|]. split.
  - vm_compute in E. by injection E as <- <-.
  - exact (zip_load_entry_initial_resolved (λ _, 0) 0 h e h' E).
Defined.
End load_entry_fields.

(* ===================================================================== *)
(** * The table of a mounted archive *)
(* ===================================================================== *)

Section mounting.
Context (mktime : tm → Z).

Lemma c_string_nul_free b : nul_free (c_string b) = true.
Proof.
  induction b as [|c b IH]; cbn [c_string nul_free]; [done|].
  destruct (Z.eqb_spec (code c) 0) as [Hz|Hnz]; cbn [nul_free]; [done|].
  rewrite IH. by cmp_false (code c) 0.
Qed.

(** The name of a loaded entry is cut at the first NUL. *)
Lemma zip_load_entry_name fixup h e h' :
  zip_load_entry mktime fixup h = Go e h' → nul_free (name e) = true.
Proof.
  unfold zip_load_entry. cbv [mbind io_bind mret io_ret]. intros H.
  next_read H.
  unfold bail_if at 1 in H.
  destruct (negb _); [discriminate H|].
  do 15 (next_read H).
  destruct (read_block _ _) as [bytes h1|]; [|discriminate H].
  unfold tell in H.
  destruct (seek_to _ _) as [[] h2|]; [|discriminate H].
  injection H as <- <-. cbn [name]. apply c_string_nul_free.
Qed.

Lemma load_entries_loop_table fixup n :
  ∀ h a h', load_entries_loop mktime fixup n h = Go a h' →
            length a = n ∧ c_names a.
Proof.
  induction n as [|n IH]; intros h a h'; cbn [load_entries_loop].
  - intros [= <- <-]. split; [done|constructor].
  - cbv [mbind io_bind mret io_ret].
    destruct (zip_load_entry mktime fixup h) as [e h1|] eqn:He; [|done].
    destruct (load_entries_loop mktime fixup n h1) as [rest h2|] eqn:Hrest;
      [|done].
    intros [= <- <-]. apply IH in Hrest as [Hlen Hc].
    split; [cbn [length]; lia|].
    constructor; [by eapply zip_load_entry_name|done].
Qed.

Lemma read_central_directory_table max data_ofs central_ofs h a h' :
  0 <= max →
  read_central_directory mktime max data_ofs central_ofs h = Go a h' →
  Z.of_nat (length a) = max ∧ c_names a.
Proof.
  intros Hmax. unfold read_central_directory. cbv [mbind io_bind].
  destruct (seek_to central_ofs h) as [[] h1|]; [|done].
  intros [Hlen Hc]%load_entries_loop_table. split; [lia|done].
Qed.

End mounting.

(** C5. For every archive that mounts, with an entry count in the range of
    its 16-bit field: [zip_load_entries] returns whenever the central
    directory was read and holds an entry; the table it returns holds the
    entries read, is sorted by byte-wise name comparison, and
    [zip_find_entry] finds, for the name of every entry in it, an entry
    with that name, the entry itself when the names are unique. The count
    being above or below [ZIP_QUICKSORT_THRESHOLD] makes no difference. *)
Theorem zip_load_entries_sorted_and_found (mktime : tm → Z) (h : handle)
    (max data_ofs central_ofs : Z) :
  0 <= max <= 65535 →
  (∀ a h',
     read_central_directory mktime max data_ofs central_ofs h = Go a h' →
     1 <= max →
     ∃ a', zip_load_entries mktime h max data_ofs central_ofs
           = Ret (Go a' h'))
  ∧ (∀ a' h',
       zip_load_entries mktime h max data_ofs central_ofs = Ret (Go a' h') →
       (∃ a, read_central_directory mktime max data_ofs central_ofs h
             = Go a h' ∧ a ≡ₚ a')
       ∧ Z.of_nat (length a') = max
       ∧ sorted_by_name a'
       ∧ ∀ E, E ∈ a' →
           ∃ m e, zip_find_entry (mounted a') (name E) = Ret (Some m)
                  ∧ a' !! Z.to_nat m = Some e
                  ∧ name e = name E
                  ∧ (NoDup (name <$> a') → e = E)).
Proof.
  intros Hmax. split.
  - intros a h' Hread Hone.
    destruct (read_central_directory_table mktime max data_ofs central_ofs
                h a h' (proj1 Hmax) Hread) as [Hlen Hc].
    assert (Hne : a ≠ []) by (intros ->; cbn [length] in Hlen; lia).
    destruct (zip_sort_entries_then_find a Hne ltac:(lia) Hc)
      as (a' & Hsort & _).
    exists a'. unfold zip_load_entries. rewrite Hread, <- Hlen, Hsort. done.
  - intros a' h'. unfold zip_load_entries.
    destruct (read_central_directory mktime max data_ofs central_ofs h)
      as [a h1|] eqn:Hread; [|done].
    intros (a1 & Hsort & [= <- <-])%bind_Ret_inv.
    destruct (read_central_directory_table mktime max data_ofs central_ofs
                h a h1 (proj1 Hmax) Hread) as [Hlen Hc].
    destruct a as [|x a].
    { cbn [length] in Hlen. subst max. done. }
    destruct (zip_sort_entries_then_find (x :: a) ltac:(done) ltac:(lia) Hc)
      as (a2 & Hsort2 & Hperm & Hsorted & Hfind).
    rewrite Hlen, Hsort in Hsort2. injection Hsort2 as <-.
    split; [eauto|]. split; [apply Permutation_length in Hperm; lia|].
    split; [done|].
    intros E HE. destruct (Hfind E HE) as (m & e & Hm & He & Hname).
    exists m, e. repeat split; try done.
    intros Hnodup. apply list_elem_of_lookup in HE as [k Hk].
    assert (Z.to_nat m = k) as <-; [|congruence].
    apply (NoDup_lookup (name <$> a1) _ _ (name E) Hnodup).
    + by rewrite list_lookup_fmap, He, <- Hname.
    + by rewrite list_lookup_fmap, Hk.
Qed.

(** A central directory of three records, [b], [c], [a]. *)
Lemma zip_load_entries_sorted_and_found_witness :
  let h := __PHYSFS_platformOpenRead
             (central_record 0x0314 10 0 0 1 1 "b" 0 0
              ++ central_record 0x0314 10 0 0 1 1 "c" 0 32
              ++ central_record 0x0314 10 0 0 1 1 "a" 0 64) in
  ∃ a' h',
    zip_load_entries (λ _, 0) h 3 0 0 = Ret (Go a' h')
    ∧ name <$> a' = ["a"; "b"; "c"]
    ∧ sorted_by_name a'
    ∧ ∀ E, E ∈ a' →
        ∃ m e, zip_find_entry (mounted a') (name E) = Ret (Some m)
               ∧ a' !! Z.to_nat m = Some e
               ∧ name e = name E
               ∧ (NoDup (name <$> a') → e = E).
Proof.
  intros h.
  destruct (zip_load_entries (λ _, 0) h 3 0 0) as [[a' h'|]| |] eqn:E;
    try (by vm_compute in E).
  exists a', h'. split; [done|].
  split; [vm_compute in E; by injection E as <- <-|].
  exact (proj2 (proj2
    (proj2 (zip_load_entries_sorted_and_found (λ _, 0) h 3 0 0 ltac:(lia))
       a' h' E))).
Defined.

(* ===================================================================== *)
(** * Resolution *)
(* ===================================================================== *)

Section resolution.
Context (zl : zlib).
Implicit Types (st : rstate) (i : Z) (e : ZIPentry).

Lemma set_entry_lookup i e st st' :
  set_entry i e st = Ret st' →
  entry_at (entries (info st')) i = Ret e ∧ err st' = err st ∧ src st' = src st.
Proof.
  unfold set_entry, store_entry. intros (a & Ha & [= <-])%bind_Ret_inv.
  cbn [info entries err src]. split; [|done].
  destruct (Z.ltb_spec i 0); [done|].
  destruct (Z.leb_spec (Z.of_nat (length (entries (info st)))) i); [done|].
  cbn [orb] in Ha. injection Ha as <-.
  apply entry_at_lookup; [done|]. apply list_lookup_insert_eq. lia.
Qed.

Lemma set_error_info o st : info (set_error o st) = info st.
Proof. by destruct o. Qed.

(** Once an entry is broken, a resolution of it fails at once: with
    [ERR_CORRUPTED], and with the table and the handle as they were. *)
Lemma zip_resolve_broken fuel st i e :
  entry_at (entries (info st)) i = Ret e →
  resolved e = ZIP_BROKEN_FILE ∨ resolved e = ZIP_BROKEN_SYMLINK →
  zip_resolve zl (S fuel) st i = Ret (false, set_error (Some ERR_CORRUPTED) st).
Proof.
  intros He Hb. cbn [zip_resolve]. rewrite He. cbn [mbind result_bind].
  destruct Hb as [-> | ->]; reflexivity.
Qed.

Lemma zip_resolve_failure fuel st i e st' :
  entry_at (entries (info st)) i = Ret e →
  resolved e ≠ ZIP_RESOLVING →
  zip_resolve zl fuel st i = Ret (false, st') →
  ∃ e', entry_at (entries (info st')) i = Ret e'
        ∧ resolved e' = pinned (resolved e)
        ∧ (resolved e' = ZIP_BROKEN_FILE ∨ resolved e' = ZIP_BROKEN_SYMLINK).
Proof.
  intros He Hnr. destruct fuel as [|fuel]; [done|].
  cbn [zip_resolve]. rewrite He. cbn [mbind result_bind].
  destruct (resolved e) eqn:Hr; cbn [bool_decide decide_rel]; try done.
  - (* an unresolved file *)
    rewrite !bool_decide_eq_false_2 by done.
    rewrite bool_decide_eq_true_2 by done.
    intros (st1 & _ & H)%bind_Ret_inv.
    apply bind_Ret_inv in H as ([r2 st2] & _ & H).
    apply bind_Ret_inv in H as ([r3 st3] & H3 & H).
    rewrite andb_false_r in H3. injection H3 as <- <-.
    apply bind_Ret_inv in H as (e3 & _ & H).
    apply bind_Ret_inv in H as (st4 & H4 & [= -> <-]).
    rewrite bool_decide_eq_false_2, bool_decide_eq_true_2 in H4 by done.
    apply set_entry_lookup in H4 as (H4 & _).
    eexists. split; [exact H4|]. cbn. auto.
  - (* an unresolved symlink *)
    rewrite !bool_decide_eq_false_2 by done.
    rewrite bool_decide_eq_true_2 by done.
    intros (st1 & _ & H)%bind_Ret_inv.
    apply bind_Ret_inv in H as ([r2 st2] & _ & H).
    apply bind_Ret_inv in H as ([r3 st3] & _ & H).
    apply bind_Ret_inv in H as (e3 & _ & H).
    apply bind_Ret_inv in H as (st4 & H4 & [= -> <-]).
    rewrite bool_decide_eq_true_2 in H4 by done.
    apply set_entry_lookup in H4 as (H4 & _).
    eexists. split; [exact H4|]. cbn. auto.
  - (* broken file *)
    intros [= <-]. exists e. rewrite Hr. cbn [set_error info pinned]. auto.
  - (* broken symlink *)
    intros [= <-]. exists e. rewrite Hr. cbn [set_error info pinned]. auto.
Qed.

End resolution.

(** ** Mounted archives are quiescent *)

Section mounted_quiescent.
Context (mktime : tm → Z).

Lemma load_entries_loop_unresolved fixup n :
  ∀ h a h', load_entries_loop mktime fixup n h = Go a h' →
            Forall (λ e, resolved e ≠ ZIP_RESOLVING) a.
Proof.
  induction n as [|n IH]; intros h a h'; cbn [load_entries_loop].
  - intros [= <- <-]. constructor.
  - cbv [mbind io_bind mret io_ret].
    destruct (zip_load_entry mktime fixup h) as [e h1|] eqn:He; [|done].
    destruct (load_entries_loop mktime fixup n h1) as [rest h2|] eqn:Hrest;
      [|done].
    intros [= <- <-]. constructor; [|by eapply IH].
    apply zip_load_entry_fields in He as (_ & _ & ->).
    by destruct (zip_has_symlink_attr _ _).
Qed.

(** The table of a mounted archive has no entry in [ZIP_RESOLVING]. *)
Lemma zip_load_entries_quiescent h max data_ofs central_ofs a' h' h0 e0 :
  0 <= max <= 65535 →
  zip_load_entries mktime h max data_ofs central_ofs = Ret (Go a' h') →
  quiescent {| info := mounted a'; src := h0; err := e0 |}.
Proof.
  intros Hmax. unfold zip_load_entries.
  destruct (read_central_directory mktime max data_ofs central_ofs h)
    as [a h1|] eqn:Hread; [|done].
  intros (a1 & Hsort & [= <- <-])%bind_Ret_inv.
  destruct (read_central_directory_table mktime max data_ofs central_ofs
              h a h1 (proj1 Hmax) Hread) as [Hlen Hc].
  destruct a as [|x a].
  { cbn [length] in Hlen. subst max. done. }
  destruct (zip_sort_entries_then_find (x :: a) ltac:(done) ltac:(lia) Hc)
    as (a2 & Hsort2 & Hperm & _).
  rewrite Hlen, Hsort in Hsort2. injection Hsort2 as <-.
  unfold quiescent, states, mounted. cbn [info entries].
  apply Forall_fmap. rewrite <- Hperm.
  unfold read_central_directory in Hread. cbv [mbind io_bind] in Hread.
  destruct (seek_to central_ofs h) as [[] h2|]; [|done].
  by apply load_entries_loop_unresolved in Hread.
Qed.

End mounted_quiescent.

(** ** The moves of the entry states *)

Section resolution_moves.
Context (zl : zlib).
Implicit Types (st : rstate) (i : Z) (e : ZIPentry).

Lemma moves_refl (l : list ZipResolveType) : Forall2 resolve_move l l.
Proof. induction l; constructor; [by left|done]. Qed.

Lemma states_set_error o st : states (set_error o st) = states st.
Proof. by destruct o. Qed.

Lemma set_entry_states i e st st' :
  set_entry i e st = Ret st' →
  states st' = <[Z.to_nat i := resolved e]> (states st).
Proof.
  unfold set_entry, store_entry. intros (a & Ha & [= <-])%bind_Ret_inv.
  unfold states. cbn [info entries].
  destruct (_ || _); [done|]. injection Ha as <-.
  by rewrite list_fmap_insert.
Qed.

Lemma entry_at_states st i e :
  entry_at (entries (info st)) i = Ret e →
  states st !! Z.to_nat i = Some (resolved e).
Proof.
  intros [_ Hl]%entry_at_inv. unfold states.
  by rewrite list_lookup_fmap, Hl.
Qed.

(** Storing an entry with the state it has changes no state. *)
Lemma set_entry_same_state i e e' st st' :
  entry_at (entries (info st)) i = Ret e → resolved e' = resolved e →
  set_entry i e' st = Ret st' → states st' = states st.
Proof.
  intros He Hr Hset. rewrite (set_entry_states _ _ _ _ Hset), Hr.
  apply list_insert_id. by apply entry_at_states.
Qed.

Lemma zip_parse_local_states st i r st' :
  zip_parse_local st i = Ret (r, st') → states st' = states st.
Proof.
  unfold zip_parse_local. intros (e & He & H)%bind_Ret_inv.
  destruct (parse_local_header e (src st)) as [ofs h|o].
  - apply bind_Ret_inv in H as (st1 & Hset & [= _ <-]).
    change (states st) with (states (set_src h st)).
    by apply (set_entry_same_state i e (with_offset ofs e)).
  - injection H as _ <-. by rewrite states_set_error.
Qed.

Section with_resolve.
Context (resolve : rstate → Z → result (bool * rstate)).
Hypothesis resolve_moves : ∀ st i r st',
  resolve st i = Ret (r, st') → Forall2 resolve_move (states st) (states st').

Lemma zip_follow_symlink_states fuel st path t st' :
  zip_follow_symlink resolve fuel st path = Ret (t, st') →
  Forall2 resolve_move (states st) (states st').
Proof.
  unfold zip_follow_symlink. intros (p & _ & H)%bind_Ret_inv.
  apply bind_Ret_inv in H as ([k|] & _ & H).
  - apply bind_Ret_inv in H as ([ok st1] & Hres & H).
    apply resolve_moves in Hres.
    destruct ok.
    + apply bind_Ret_inv in H as (e & _ & H).
      by destruct (symlink e); injection H as _ <-.
    + by injection H as _ <-.
  - injection H as _ <-. rewrite ?states_set_error. apply moves_refl.
Qed.

Lemma zip_resolve_symlink_states fuel st i r st' :
  zip_resolve_symlink zl resolve fuel st i = Ret (r, st') →
  Forall2 resolve_move (states st) (states st').
Proof.
  unfold zip_resolve_symlink. intros (e & _ & H)%bind_Ret_inv.
  destruct (__PHYSFS_platformSeek _ _) as [h|].
  2:{ injection H as _ <-. rewrite ?states_set_error. apply moves_refl. }
  apply bind_Ret_inv in H as ([[link h'] o] & _ & H).
  apply bind_Ret_inv in H as (st1 & Hst1 & H).
  apply bind_Ret_inv in H as (e1 & _ & [= _ <-]).
  destruct link as [bytes|].
  - apply bind_Ret_inv in Hst1 as ([t st2] & Hfollow & H).
    apply bind_Ret_inv in H as (e2 & He2 & Hset).
    apply zip_follow_symlink_states in Hfollow.
    rewrite ?states_set_error in Hfollow.
    by rewrite (set_entry_same_state i e2 (with_symlink t e2) st2 st1
                  He2 eq_refl Hset).
  - injection Hst1 as <-. rewrite ?states_set_error. apply moves_refl.
Qed.

End with_resolve.

(** The state machine of the resolver: whatever [zip_resolve] is called
    on, every entry of the table keeps its state or goes from unresolved
    to resolved or broken. *)
Lemma zip_resolve_states fuel :
  ∀ st i r st',
    zip_resolve zl fuel st i = Ret (r, st') →
    Forall2 resolve_move (states st) (states st').
Proof.
  induction fuel as [|fuel IH]; intros st i r st'; [done|].
  cbn [zip_resolve]. intros (e & He & H)%bind_Ret_inv.
  pose proof (entry_at_states st i e He) as Hi.
  assert (Hfinal : ∀ st1 st2 st3 fin,
    states st1 = <[Z.to_nat i := ZIP_RESOLVING]> (states st) →
    Forall2 resolve_move (states st1) (states st2) →
    states st3 = <[Z.to_nat i := fin]> (states st2) →
    resolve_move (resolved e) fin →
    Forall2 resolve_move (states st) (states st3)).
  { intros st1 st2 st3 fin H1 H12 H3 Hmove. rewrite H3.
    rewrite <- (list_insert_id (states st) (Z.to_nat i) (resolved e) Hi).
    rewrite <- (list_insert_insert_eq (states st) (Z.to_nat i)
                  (resolved e) ZIP_RESOLVING).
    rewrite <- H1. by apply Forall2_insert. }
  destruct (resolved e) eqn:Hr; cbn [bool_decide decide_rel] in H.
  - (* an unresolved file *)
    rewrite !bool_decide_eq_false_2 in H by done.
    rewrite bool_decide_eq_true_2 in H by done.
    apply bind_Ret_inv in H as (st1 & H1 & H).
    apply bind_Ret_inv in H as ([r2 st2] & H2 & H).
    apply bind_Ret_inv in H as ([r3 st3] & H3 & H).
    rewrite andb_false_r in H3. injection H3 as <- <-.
    apply bind_Ret_inv in H as (e3 & _ & H).
    apply bind_Ret_inv in H as (st4 & H4 & [= _ <-]).
    rewrite bool_decide_eq_false_2, bool_decide_eq_true_2 in H4 by done.
    apply set_entry_states in H1, H4. apply zip_parse_local_states in H2.
    cbn [resolved with_resolved] in H1, H4.
    apply (Hfinal st1 st2 st4 (if r2 then ZIP_RESOLVED else ZIP_BROKEN_FILE)
             H1); [rewrite H2; apply moves_refl|exact H4|].
    right. left. split; [done|]. destruct r2; auto.
  - (* an unresolved symlink *)
    rewrite !bool_decide_eq_false_2 in H by done.
    rewrite bool_decide_eq_true_2 in H by done.
    apply bind_Ret_inv in H as (st1 & H1 & H).
    apply bind_Ret_inv in H as ([r2 st2] & H2 & H).
    apply bind_Ret_inv in H as ([r3 st3] & H3 & H).
    apply bind_Ret_inv in H as (e3 & _ & H).
    apply bind_Ret_inv in H as (st4 & H4 & [= _ <-]).
    rewrite bool_decide_eq_true_2 in H4 by done.
    apply set_entry_states in H1, H4. apply zip_parse_local_states in H2.
    assert (H23 : Forall2 resolve_move (states st2) (states st3)).
    { destruct (r2 && _).
      - by apply (zip_resolve_symlink_states (zip_resolve zl fuel) IH)
          in H3.
      - injection H3 as _ <-. apply moves_refl. }
    cbn [resolved with_resolved] in H1, H4.
    apply (Hfinal st1 st3 st4
             (if r3 then ZIP_RESOLVED else ZIP_BROKEN_SYMLINK) H1);
      [by rewrite <- H2|exact H4|].
    right. right. split; [done|]. destruct r3; auto.
  - (* being resolved: the loop *)
    injection H as _ <-. rewrite ?states_set_error. apply moves_refl.
  - (* resolved *)
    injection H as _ <-. apply moves_refl.
  - injection H as _ <-. rewrite ?states_set_error. apply moves_refl.
  - injection H as _ <-. rewrite ?states_set_error. apply moves_refl.
Qed.

(** So a resolution started on a quiescent table leaves it quiescent. *)
Lemma zip_resolve_quiescent fuel st i r st' :
  quiescent st → zip_resolve zl fuel st i = Ret (r, st') → quiescent st'.
Proof.
  unfold quiescent. intros Hq Hres%zip_resolve_states.
  induction Hres as [|x y l k Hmove _ IH]; [constructor|].
  apply Forall_cons in Hq as [Hx Hl]. constructor; [|by apply IH].
  destruct Hmove as [->|[[-> [->| ->]]|[-> [->| ->]]]]; done.
Qed.

(** And a broken entry stays broken through every resolution. *)
Lemma zip_resolve_keeps_broken fuel st i r st' j e :
  zip_resolve zl fuel st i = Ret (r, st') →
  entry_at (entries (info st)) j = Ret e →
  resolved e = ZIP_BROKEN_FILE ∨ resolved e = ZIP_BROKEN_SYMLINK →
  ∃ e', entry_at (entries (info st')) j = Ret e' ∧ resolved e' = resolved e.
Proof.
  intros Hres%zip_resolve_states He Hb.
  pose proof (entry_at_states st j e He) as Hj.
  apply entry_at_inv in He as [Hj0 _].
  destruct (Forall2_lookup_l _ _ _ _ _ Hres Hj) as (r' & Hr' & Hmove).
  unfold states in Hr'. rewrite list_lookup_fmap in Hr'.
  destruct (entries (info st') !! Z.to_nat j) as [e'|] eqn:He'; [|done].
  injection Hr' as <-. exists e'. split; [by apply entry_at_lookup|].
  destruct Hmove as [->|[[Hu _]|[Hu _]]]; [done| |];
    destruct Hb as [Hb|Hb]; congruence.
Qed.

End resolution_moves.

(** The entries under resolution after a call are those that were under
    resolution before it. *)
Lemma moves_keep_resolving (l k : list ZipResolveType) (j : nat) :
  Forall2 resolve_move l k →
  k !! j = Some ZIP_RESOLVING ↔ l !! j = Some ZIP_RESOLVING.
Proof.
  intros Hmoves. split; intros Hj.
  - destruct (Forall2_lookup_r _ _ _ _ _ Hmoves Hj) as (r & Hr & Hmove).
    rewrite Hr. f_equal.
    destruct Hmove as [->|[[_ [?|?]]|[_ [?|?]]]]; done.
  - destruct (Forall2_lookup_l _ _ _ _ _ Hmoves Hj) as (r & Hr & Hmove).
    rewrite Hr. f_equal.
    destruct Hmove as [->|[[? _]|[? _]]]; done.
Qed.

(** C7. A failed resolution is pinned. Whenever [zip_resolve] fails on an
    entry, in whatever state the other entries are, the entry is left as
    [ZIP_BROKEN_FILE] or [ZIP_BROKEN_SYMLINK], by its kind. The one call
    that fails otherwise is the one that meets the entry in
    [ZIP_RESOLVING], while a resolution of that same entry is under way:
    it reports the loop, changes nothing but the error, and leaves the
    entry to the resolution under way. The entries under resolution
    after the call are those that were under resolution before it, so a
    table on which no resolution is under way, as every table is between
    two operations, is left as such. Once the entry is broken,
    every resolution of any entry leaves it in its broken state, and
    every resolution of the entry itself, on whatever handle, fails with
    [ERR_CORRUPTED] and leaves the table and the handle untouched. For
    the loop [a -> b], [b -> a]: the first [ZIP_openRead] of [a] fails
    with [ERR_SYMLINK_LOOP] and breaks both entries, and every later one
    fails with [ERR_CORRUPTED]. *)
Theorem zip_resolve_failure_is_pinned (zl : zlib) :
  (∀ fuel st i e st',
     entry_at (entries (info st)) i = Ret e →
     zip_resolve zl fuel st i = Ret (false, st') →
     (quiescent st → quiescent st')
     ∧ (∀ j, states st' !! j = Some ZIP_RESOLVING
             ↔ states st !! j = Some ZIP_RESOLVING)
     ∧ (resolved e = ZIP_RESOLVING →
        st' = set_error (Some ERR_SYMLINK_LOOP) st)
     ∧ (resolved e ≠ ZIP_RESOLVING →
        ∃ e', entry_at (entries (info st')) i = Ret e'
          ∧ resolved e' = pinned (resolved e)
          ∧ (resolved e' = ZIP_BROKEN_FILE ∨ resolved e' = ZIP_BROKEN_SYMLINK)
          ∧ (∀ fuel2 st2 j r2 st3 e2,
               entry_at (entries (info st2)) i = Ret e2 →
               resolved e2 = resolved e' →
               zip_resolve zl fuel2 st2 j = Ret (r2, st3) →
               ∃ e3, entry_at (entries (info st3)) i = Ret e3
                     ∧ resolved e3 = resolved e')
          ∧ (∀ fuel2 st2 e2,
               entry_at (entries (info st2)) i = Ret e2 →
               resolved e2 = resolved e' →
               zip_resolve zl (S fuel2) st2 i
               = Ret (false, set_error (Some ERR_CORRUPTED) st2))))
  ∧ (∀ n : nat, ∃ st1,
       ZIP_openRead zl (3 + n) loop_file loop_archive "a" = Ret (None, st1)
       ∧ err st1 = Some ERR_SYMLINK_LOOP
       ∧ states st1 = [ZIP_BROKEN_SYMLINK; ZIP_BROKEN_SYMLINK]
       ∧ ∀ fuel st2, info st2 = info st1 →
           ∃ st3, ZIP_openRead zl (S fuel) loop_file st2 "a" = Ret (None, st3)
             ∧ err st3 = Some ERR_CORRUPTED ∧ info st3 = info st2).
Proof.
  split.
  - intros fuel st i e st' He Hfail.
    split; [intros Hq; by eapply zip_resolve_quiescent|].
    split.
    { intros j. apply moves_keep_resolving.
      by eapply zip_resolve_states. }
    split.
    { intros Hr. destruct fuel as [|fuel]; [done|].
      cbn [zip_resolve] in Hfail. rewrite He in Hfail.
      cbn [mbind result_bind] in Hfail. rewrite Hr in Hfail.
      cbn in Hfail. by injection Hfail as <-. }
    intros Hnr.
    destruct (zip_resolve_failure zl fuel st i e st' He Hnr Hfail)
      as (e' & He' & Hpin & Hbroken).
    exists e'. repeat split; try done.
    + intros fuel2 st2 j r2 st3 e2 He2 Hr2 Hres.
      destruct (zip_resolve_keeps_broken zl fuel2 st2 j r2 st3 i e2 Hres He2)
        as (e3 & He3 & Hr3); [by rewrite Hr2|].
      exists e3. split; [done|]. by rewrite Hr3.
    + intros fuel2 st2 e2 He2 Hr2.
      apply (zip_resolve_broken zl fuel2 st2 i e2 He2). by rewrite Hr2.
  - intros n. eexists. split; [vm_compute; reflexivity|].
    split; [reflexivity|]. split; [reflexivity|].
    intros fuel st2 Hinfo. cbn [info] in Hinfo.
    unfold ZIP_openRead. rewrite Hinfo.
    change (zip_find_entry _ "a") with (@Ret (option Z) (Some 0)).
    cbn [mbind result_bind]. unfold zip_get_file_handle.
    erewrite (zip_resolve_broken zl fuel _ 0).
    + cbn [mbind result_bind]. eexists. split; [reflexivity|].
      cbn [set_error set_src err info]. by rewrite Hinfo.
    + cbn [set_src info]. rewrite Hinfo. reflexivity.
    + cbn. auto.
Qed.

(** The witness is a resolution made while another one is under way: the
    link [l] is being resolved, and the file [d/f] it leads to has no
    local header where the central directory says. *)
Lemma zip_resolve_failure_is_pinned_witness :
  let e := stored_entry "d/f" 0 1 in
  let st :=
    {| info := mounted [e; with_resolved ZIP_RESOLVING
                             (symlink_entry "l" 34 3)];
       src := __PHYSFS_platformOpenRead (bytes_of_string "not a header");
       err := None |} in
  ∃ st',
    entry_at (entries (info st)) 0 = Ret e
    ∧ zip_resolve no_zlib 1 st 0 = Ret (false, st')
    ∧ (quiescent st → quiescent st')
    ∧ (∀ j, states st' !! j = Some ZIP_RESOLVING
            ↔ states st !! j = Some ZIP_RESOLVING)
    ∧ (resolved e = ZIP_RESOLVING →
       st' = set_error (Some ERR_SYMLINK_LOOP) st)
    ∧ (resolved e ≠ ZIP_RESOLVING →
       ∃ e', entry_at (entries (info st')) 0 = Ret e'
         ∧ resolved e' = pinned (resolved e)
         ∧ (resolved e' = ZIP_BROKEN_FILE ∨ resolved e' = ZIP_BROKEN_SYMLINK)
         ∧ (∀ fuel2 st2 j r2 st3 e2,
              entry_at (entries (info st2)) 0 = Ret e2 →
              resolved e2 = resolved e' →
              zip_resolve no_zlib fuel2 st2 j = Ret (r2, st3) →
              ∃ e3, entry_at (entries (info st3)) 0 = Ret e3
                    ∧ resolved e3 = resolved e')
         ∧ (∀ fuel2 st2 e2,
              entry_at (entries (info st2)) 0 = Ret e2 →
              resolved e2 = resolved e' →
              zip_resolve no_zlib (S fuel2) st2 0
              = Ret (false, set_error (Some ERR_CORRUPTED) st2))).
Proof.
  intros e st.
  destruct (zip_resolve no_zlib 1 st 0) as [[[|] st']| |] eqn:E;
    try (by vm_compute in E).
  exists st'.
  assert (H1 : entry_at (entries (info st)) 0 = Ret e) by reflexivity.
  split; [exact H1|]. split; [reflexivity|].
  exact (proj1 (zip_resolve_failure_is_pinned no_zlib) 1%nat st 0 e st' H1 E).
Defined.

(** The chain [link1 -> link2 -> target.txt] resolves to the file. *)
Lemma ZIP_openRead_chain (zl : zlib) :
  ∃ f st, ZIP_openRead zl 4 chain_file chain_archive "link1" = Ret (Some f, st)
    ∧ name (fi_entry f) = "target.txt"
    ∧ resolved <$> entries (info st) = [ZIP_RESOLVED; ZIP_RESOLVED; ZIP_RESOLVED]
    ∧ symlink <$> entries (info st) = [Some 2%nat; Some 2%nat; None].
Proof. do 2 eexists. split; [vm_compute; reflexivity|]. done. Qed.

(* ===================================================================== *)
(** * Open files: seek and read *)
(* ===================================================================== *)

Section open_files.
Context (zl : zlib).
Implicit Types (f : ZIPfileinfo zl) (r : io_result zl).

(** A seek in a stored entry leaves the absolute position in the archive
    where the position in the entry belongs. *)
Lemma ZIP_seek_stored fuel f ofs :
  compression_method (fi_entry f) = COMPMETH_NONE →
  0 <= ofs <= uncompressed_size (fi_entry f) →
  0 <= offset_of (fi_entry f) →
  ofs + offset_of (fi_entry f) < 2 ^ 32 →
  ∃ r, ZIP_seek zl fuel f ofs = Ret r ∧ retval r = 1
       ∧ ZIP_tell (file_after r) = ofs + offset_of (fi_entry f)
       ∧ cursor (fi_handle (file_after r)) = ofs + offset_of (fi_entry f).
Proof.
  intros Hm Hofs Hpos Hmax. unfold ZIP_seek.
  cmp_false (uncompressed_size (fi_entry f)) ofs.
  rewrite Hm. change (COMPMETH_NONE =? COMPMETH_NONE) with true. cbn [andb].
  assert (Hs : s64 (ofs + offset_of (fi_entry f)) = ofs + offset_of (fi_entry f)).
  { unfold s64, signed. rewrite Z.mod_small by lia.
    change (2 ^ (64 - 1)) with 9223372036854775808.
    by cmp_true (ofs + offset_of (fi_entry f)) 9223372036854775808. }
  rewrite Hs. unfold __PHYSFS_platformSeek.
  cmp_true 0 (ofs + offset_of (fi_entry f)).
  eexists. split; [reflexivity|]. cbn. unfold u32.
  rewrite Z.mod_small by lia. auto.
Qed.

(** A second seek in a stored entry forgets the first. *)
Lemma ZIP_seek_stored_twice fuel f a b ra rb :
  compression_method (fi_entry f) = COMPMETH_NONE →
  ZIP_seek zl fuel f a = Ret ra → retval ra = 1 →
  ZIP_seek zl fuel f b = Ret rb → retval rb = 1 →
  ZIP_seek zl fuel (file_after ra) b = Ret rb.
Proof.
  intros Hm. unfold ZIP_seek at 1.
  destruct (uncompressed_size (fi_entry f) <? a).
  { intros [= <-]. done. }
  rewrite Hm. change (COMPMETH_NONE =? COMPMETH_NONE) with true. cbn [andb].
  destruct (__PHYSFS_platformSeek _ _) as [h|] eqn:Hseek.
  2:{ intros [= <-]. done. }
  intros [= <-] _. cbn [file_after]. unfold ZIP_seek.
  cbn [fi_entry fi_handle compressed_position fi_stream fi_input].
  rewrite Hm. change (COMPMETH_NONE =? COMPMETH_NONE) with true. cbn [andb].
  unfold __PHYSFS_platformSeek in *.
  destruct (0 <=? s64 (a + offset_of (fi_entry f))); [|done].
  injection Hseek as <-. cbn [content].
  destruct (uncompressed_size (fi_entry f) <? b); [by intros [= <-]|].
  destruct (0 <=? s64 (b + offset_of (fi_entry f))); [|by intros [= <-]].
  done.
Qed.

(** The other branch does keep the position of the entry: when a seek in
    a compressed entry succeeds, [ZIP_tell] is the offset asked for. *)
Lemma seek_forward_tell fuel :
  ∀ f ofs e r,
    seek_forward zl fuel f ofs e = Ret r → retval r = 1 →
    ZIP_tell (file_after r) = ofs.
Proof.
  induction fuel as [|fuel IH]; intros f ofs e r; [done|].
  cbn [seek_forward].
  destruct (Z.eqb_spec (uncompressed_position f) ofs) as [Heq|Hne].
  - intros [= <-] _. done.
  - intros (r1 & _ & H)%bind_Ret_inv.
    destruct (retval r1 =? 1).
    + intros Hr. by eapply IH.
    + injection H as <-. done.
Qed.

Lemma ZIP_seek_compressed_tell fuel f ofs r :
  compression_method (fi_entry f) ≠ COMPMETH_NONE →
  ZIP_seek zl fuel f ofs = Ret r → retval r = 1 →
  ZIP_tell (file_after r) = ofs.
Proof.
  intros Hm. unfold ZIP_seek.
  destruct (_ <? ofs); [by intros [= <-]|].
  cmp_false (compression_method (fi_entry f)) COMPMETH_NONE.
  destruct (ofs <? uncompressed_position f).
  - destruct (inflateInit2 zl); [|by intros [= <-]].
    destruct (__PHYSFS_platformSeek _ _); [|by intros [= <-]].
    apply seek_forward_tell.
  - apply seek_forward_tell.
Qed.

End open_files.

(** C4. In a stored entry a seek does not leave the position asked for.
    [hello.txt] (14 bytes, its data at offset 39 of the archive) is opened;
    [ZIP_seek] to 5 succeeds and [ZIP_tell] then answers 44; a seek to 0
    leaves 39. The position kept is the absolute one, [offset +
    entry->offset], which the branch for compressed entries does not
    do. *)
Theorem ZIP_seek_stored_tells_archive_position (zl : zlib) :
  ∃ f st,
    ZIP_openRead zl 2 hello_file hello_archive "hello.txt" = Ret (Some f, st)
    ∧ compression_method (fi_entry f) = COMPMETH_NONE
    ∧ ZIP_fileLength f = 14
    ∧ offset_of (fi_entry f) = 39
    ∧ ZIP_tell f = 0
    ∧ (∃ r, ZIP_seek zl 1 f 5 = Ret r ∧ retval r = 1
            ∧ ZIP_tell (file_after r) = 44)
    ∧ (∃ r, ZIP_seek zl 1 f 0 = Ret r ∧ retval r = 1
            ∧ ZIP_tell (file_after r) = 39).
Proof.
  do 2 eexists. split; [vm_compute; reflexivity|].
  repeat split; try reflexivity;
    eexists; (split; [vm_compute; reflexivity|]); split; reflexivity.
Qed.

Section reading.
Context (zl : zlib).
Implicit Types (f : ZIPfileinfo zl) (r : io_result zl).

Lemma platformRead_bounds h size count :
  0 < size → 0 <= count →
  0 <= (__PHYSFS_platformRead h size count).1.1 <= count
  ∧ Z.of_nat (length (__PHYSFS_platformRead h size count).1.2)
    <= (__PHYSFS_platformRead h size count).1.1 * size.
Proof.
  intros Hs Hc. unfold __PHYSFS_platformRead. cbn [fst snd].
  split; [lia|]. rewrite length_take. lia.
Qed.

(** As long as the position of an open stored file is within the entry,
    [ZIP_read] keeps to the entry: it delivers whole objects, no byte past
    [uncompressed_size], and sets [ERR_PAST_EOF] whenever the request
    exceeds what is left, returning 0 when not one object fits. *)
Lemma ZIP_read_stored_within_entry fuel f objSize objCount r :
  compression_method (fi_entry f) = COMPMETH_NONE →
  0 < objSize < 2 ^ 32 → 0 < objCount < 2 ^ 32 →
  objSize * objCount < 2 ^ 63 →
  0 <= uncompressed_position f <= uncompressed_size (fi_entry f) →
  uncompressed_size (fi_entry f) < 2 ^ 32 →
  ZIP_read zl fuel f objSize objCount = Ret r →
  let avail := uncompressed_size (fi_entry f) - uncompressed_position f in
  0 <= retval r
  ∧ retval r * objSize <= avail
  ∧ Z.of_nat (length (delivered r)) <= retval r * objSize
  ∧ uncompressed_position (file_after r)
    = uncompressed_position f + retval r * objSize
  ∧ (avail < objSize * objCount →
     error_set r = Some ERR_PAST_EOF ∧ retval r <= avail / objSize)
  ∧ (avail < objSize → retval r = 0).
Proof.
  intros Hm Hsize Hcount Hprod Hpos Hmax Hread avail. revert Hread.
  unfold ZIP_read.
  assert (Hs64 : s64 (objSize * objCount) = objSize * objCount).
  { unfold s64, signed. rewrite Z.mod_small by nia.
    change (2 ^ (64 - 1)) with (2 ^ 63).
    by cmp_true (objSize * objCount) (2 ^ 63). }
  assert (Havail : s64 (u32 (uncompressed_size (fi_entry f)
                             - uncompressed_position f)) = avail).
  { unfold s64, signed, u32. rewrite (Z.mod_small _ (2 ^ 32)) by lia.
    rewrite Z.mod_small by lia. change (2 ^ (64 - 1)) with (2 ^ 63).
    by cmp_true (uncompressed_size (fi_entry f) - uncompressed_position f)
         (2 ^ 63). }
  rewrite Hs64, Havail, Hm. fold avail.
  change (COMPMETH_NONE =? COMPMETH_NONE) with true. cbn [andb].
  assert (0 < objSize * objCount) by nia.
  cmp_false (objSize * objCount) 0.
  assert (Hq : 0 <= avail / objSize) by (apply Z.div_pos; lia).
  assert (Hqm : objSize * (avail / objSize) <= avail)
    by (apply Z.mul_div_le; lia).
  assert (Hlt : avail < objSize * (avail / objSize) + objSize).
  { pose proof (Z.mod_pos_bound avail objSize ltac:(lia)).
    pose proof (Z.div_mod avail objSize ltac:(lia)). lia. }
  destruct (Z.ltb_spec avail (objSize * objCount)) as [Hclamp|Hfits];
    cbn [andb].
  - (* the request is clamped *)
    rewrite Z.rem_mod_nonneg by lia.
    replace (avail - avail mod objSize) with (objSize * (avail / objSize))
      by (pose proof (Z.div_mod avail objSize ltac:(lia)); lia).
    rewrite Z.quot_div_nonneg by lia.
    rewrite (Z.mul_comm objSize), Z.div_mul by lia.
    assert (Hu : u32 (avail / objSize) = avail / objSize).
    { unfold u32. apply Z.mod_small. split; [done|].
      apply Z.div_lt_upper_bound; lia. }
    rewrite Hu.
    destruct (Z.eqb_spec (avail / objSize) 0) as [Hz|Hnz].
    + intros [= <-]. cbn. repeat split; try lia; try nia.
    + pose proof (platformRead_bounds (fi_handle f) objSize (avail / objSize)
                    ltac:(lia) ltac:(lia)) as [Hn Hlen].
      destruct (__PHYSFS_platformRead (fi_handle f) objSize (avail / objSize))
        as [[n bytes] h]. cbn [fst snd] in Hn, Hlen.
      cbn [mbind result_bind retval].
      destruct (Z.ltb_spec 0 n); intros [= <-]; cbn;
        unfold u32; rewrite ?Z.mod_small by nia;
        repeat split; try lia; try nia.
  - (* the request fits *)
    pose proof (platformRead_bounds (fi_handle f) objSize objCount
                  ltac:(lia) ltac:(lia)) as [Hn Hlen].
    destruct (__PHYSFS_platformRead (fi_handle f) objSize objCount)
      as [[n bytes] h]. cbn [fst snd] in Hn, Hlen.
    cbn [mbind result_bind retval].
    destruct (Z.ltb_spec 0 n); intros [= <-]; cbn;
      unfold u32; rewrite ?Z.mod_small by nia;
      repeat split; try lia; try nia.
Qed.

End reading.

(** C8. After a seek in a stored entry, a read does go past the entry.
    [hello.txt] has 14 bytes; after [ZIP_seek] to 5, nine are left. The
    read of 20 objects of one byte is not clamped and sets no error: it
    returns 20 and delivers the 9 bytes left and the 11 bytes that follow
    the entry in the archive. The position the seek left is 44, above the
    size of the entry, and the difference [uncompressed_size -
    uncompressed_position] wraps around in 32 bits. *)
Theorem ZIP_read_after_seek_passes_entry (zl : zlib) :
  ∃ f st r,
    ZIP_openRead zl 2 hello_file hello_archive "hello.txt" = Ret (Some f, st)
    ∧ ZIP_fileLength f = 14
    ∧ ZIP_seek zl 1 f 5 = Ret r ∧ retval r = 1
    ∧ ∃ r', ZIP_read zl 1 (file_after r) 1 20 = Ret r'
        ∧ retval r' = 20
        ∧ error_set r' = None
        ∧ delivered r' = drop 5 hello_data ++ take 11 (drop 53 hello_file)
        ∧ length (delivered r') = 20%nat.
Proof.
  do 3 eexists. split; [vm_compute; reflexivity|].
  split; [reflexivity|]. split; [vm_compute; reflexivity|].
  split; [reflexivity|]. eexists. split; [vm_compute; reflexivity|].
  repeat split; vm_compute; reflexivity.
Qed.

(** Before any seek the same read is clamped to the 14 bytes of the
    entry, with [ERR_PAST_EOF]; a read at the end returns 0 with it. *)
Lemma ZIP_read_hello (zl : zlib) :
  ∃ f st r,
    ZIP_openRead zl 2 hello_file hello_archive "hello.txt" = Ret (Some f, st)
    ∧ ZIP_read zl 1 f 1 20 = Ret r
    ∧ retval r = 14 ∧ delivered r = hello_data
    ∧ error_set r = Some ERR_PAST_EOF
    ∧ ZIP_tell (file_after r) = 14
    ∧ ∃ r', ZIP_read zl 1 (file_after r) 1 1 = Ret r'
        ∧ retval r' = 0 ∧ delivered r' = []
        ∧ error_set r' = Some ERR_PAST_EOF.
Proof.
  do 3 eexists. split; [vm_compute; reflexivity|].
  split; [vm_compute; reflexivity|].
  repeat split; try (vm_compute; reflexivity).
  eexists. split; [vm_compute; reflexivity|]. repeat split.
Qed.

(** With such a target in a symlink the resolution does not return: the
    link [l -> d/f], where [d/f] is an entry of the archive. *)
Lemma ZIP_openRead_dirlink_diverges (zl : zlib) :
  ∀ fuel : nat, ZIP_openRead zl fuel dirlink_file dirlink_archive "l" = NoFuel.
Proof.
  intros [|fuel]; [reflexivity|].
  assert (Hpath : zip_expand_symlink_path fuel (c_buffer "d/f") = NoFuel).
  { unfold zip_expand_symlink_path. destruct fuel as [|fuel]; [done|].
    change (expand_loop (S fuel) (c_buffer "d/f") 0 0)
      with (expand_loop fuel (c_buffer "d/f") 1 1).
    by apply expand_loop_fixed_state. }
  unfold ZIP_openRead, zip_get_file_handle. cbn [zip_resolve].
  unfold zip_resolve_symlink, zip_follow_symlink.
  set (X := zip_expand_symlink_path fuel) in *.
  set (R := zip_resolve zl fuel).
  clearbody X R. vm_compute in Hpath. vm_compute.
  by rewrite Hpath.
Qed.

(** C3. Resolution does not always terminate. The textual expansion of a
    symlink target never returns on [a/b] (a slash followed by an ordinary
    segment), on [dir/] and on [a/..]: whatever the number of turns
    allowed, no result is reached. Nor does the resolution of the entry
    [l -> d/f] of an archive that holds [d/f]: it reaches neither a
    non-symlink entry nor a failure. *)
Theorem zip_expand_symlink_path_diverges :
  ∀ fuel : nat,
    zip_expand_symlink_path fuel (c_buffer "a/b") = NoFuel
    ∧ zip_expand_symlink_path fuel (c_buffer "dir/") = NoFuel
    ∧ zip_expand_symlink_path fuel (c_buffer "a/..") = NoFuel
    ∧ ∀ zl : zlib,
        ZIP_openRead zl fuel dirlink_file dirlink_archive "l" = NoFuel.
Proof.
  intros fuel.
  destruct (zip_expand_symlink_path_stuck fuel) as (Hab & Hdir & Hup).
  repeat split; try done.
  intros zl. apply ZIP_openRead_dirlink_diverges.
Qed.

(* ===================================================================== *)
(** * Lookup by name: what every search returns *)
(* ===================================================================== *)

Section lookup_any_table.
Implicit Types (a : list ZIPentry) (e : ZIPentry).

(** Whatever the table holds, the search stays between [lo] and [hi], and
    an index it returns carries the name looked for. *)
Lemma zip_find_entry_loop_inside a path :
  ∀ fuel lo hi,
    0 <= lo → hi < Z.of_nat (length a) →
    Z.max 0 (hi - lo + 1) < Z.of_nat fuel →
    ∃ r, zip_find_entry_loop fuel a path lo hi = Ret r
         ∧ ∀ m, r = Some m →
             lo <= m <= hi
             ∧ ∃ e, a !! Z.to_nat m = Some e ∧ strcmp path (name e) = 0.
Proof.
  induction fuel as [|fuel IH]; intros lo hi Hlo Hhi Hfuel; [lia|].
  cbn [zip_find_entry_loop].
  destruct (Z.leb_spec lo hi) as [Hle|Hgt].
  2:{ exists None. split; [done|]. intros m [=]. }
  set (middle := lo + (hi - lo) / 2).
  assert (Hmid : lo <= middle <= hi).
  { unfold middle. pose proof (Z.div_pos (hi - lo) 2 ltac:(lia) ltac:(lia)).
    pose proof (Z.div_le_upper_bound (hi - lo) 2 (hi - lo) ltac:(lia) ltac:(lia)).
    lia. }
  destruct (lookup_lt_is_Some_2 a (Z.to_nat middle) ltac:(lia)) as [em Hem].
  rewrite (entry_at_lookup a middle em) by (done || lia).
  cbn [mbind result_bind].
  destruct (Z.eqb_spec (strcmp path (name em)) 0) as [Heq|Hneq].
  { exists (Some middle). split; [done|]. intros m [= <-]. eauto. }
  destruct (strcmp path (name em) >? 0).
  - destruct (IH (middle + 1) hi) as (r & Hr & Hsound); try lia.
    exists r. split; [done|]. intros m Hm.
    destruct (Hsound m Hm) as [Hrange He]. split; [lia|done].
  - destruct (IH lo (middle - 1)) as (r & Hr & Hsound); try lia.
    exists r. split; [done|]. intros m Hm.
    destruct (Hsound m Hm) as [Hrange He]. split; [lia|done].
Qed.

Lemma s32_small x : - 2 ^ 31 <= x < 2 ^ 31 → s32 x = x.
Proof.
  intros Hx. unfold s32, signed. change (2 ^ (32 - 1)) with (2 ^ 31).
  destruct (Z.lt_ge_cases x 0).
  - replace (x mod 2 ^ 32) with (x + 2 ^ 32).
    + cmp_false (x + 2 ^ 32) (2 ^ 31). lia.
    + apply Z.mod_unique with (-1); lia.
  - rewrite Z.mod_small by lia. by cmp_true x (2 ^ 31).
Qed.

End lookup_any_table.

Section lookup_results.
Implicit Types (a : list ZIPentry) (e : ZIPentry).

Lemma zip_find_entry_returns a path :
  Z.of_nat (length a) <= 65535 →
  ∃ r, zip_find_entry (mounted a) path = Ret r
       ∧ ∀ m, r = Some m →
           0 <= m < Z.of_nat (length a)
           ∧ ∃ e, a !! Z.to_nat m = Some e ∧ strcmp path (name e) = 0.
Proof.
  intros Hlen. unfold zip_find_entry, mounted. cbn [entryCount entries].
  rewrite s32_small by lia.
  destruct (zip_find_entry_loop_inside a path
              (S (Z.to_nat (Z.of_nat (length a)))) 0
              (Z.of_nat (length a) - 1)) as (r & Hr & Hsound); try lia.
  exists r. split; [done|]. intros m Hm.
  destruct (Hsound m Hm) as [Hrange He]. split; [lia|done].
Qed.

Lemma sorted_by_name_StronglySorted a :
  sorted_by_name a → StronglySorted name_le a.
Proof.
  induction a as [|x a IH]; intros Hs; constructor.
  - apply IH. intros i j y z Hij Hy Hz. by apply (Hs (S i) (S j)); [lia|..].
  - apply Forall_forall. intros y [j Hj]%list_elem_of_lookup.
    by apply (Hs 0%nat (S j)); [lia|..].
Qed.

End lookup_results.

(** X1. [zip_find_entry] is safe on every table, sorted or not, and empty
    or not: with the entry count of the table it always returns, reads
    only entries inside the table, and an entry it returns is inside the
    table and compares equal to the path looked for. *)
Theorem zip_find_entry_safe_and_sound (a : list ZIPentry) (path : string) :
  Z.of_nat (length a) <= 65535 →
  ∃ r, zip_find_entry (mounted a) path = Ret r
       ∧ ∀ m, r = Some m →
           0 <= m < Z.of_nat (length a)
           ∧ ∃ e, a !! Z.to_nat m = Some e ∧ strcmp path (name e) = 0.
Proof. apply zip_find_entry_returns. Qed.

Lemma zip_find_entry_safe_and_sound_witness :
  Z.of_nat (length (entries scenario_dirs)) <= 65535
  ∧ ∃ r, zip_find_entry (mounted (entries scenario_dirs)) "d/x" = Ret r
       ∧ ∀ m, r = Some m →
           0 <= m < Z.of_nat (length (entries scenario_dirs))
           ∧ ∃ e, entries scenario_dirs !! Z.to_nat m = Some e
                  ∧ strcmp "d/x" (name e) = 0.
Proof.
  assert (H : Z.of_nat (length (entries scenario_dirs)) <= 65535)
    by (vm_compute; discriminate).
  split; [exact H|].
  exact (zip_find_entry_safe_and_sound (entries scenario_dirs) "d/x" H).
Defined.

(** X2. On a sorted table of C-string names [ZIP_exists] answers true
    exactly for the names of the entries of the table; for any other name,
    and on the empty table, it answers false. *)
Theorem ZIP_exists_iff_entry (a : list ZIPentry) (path : string) :
  sorted_by_name a → c_names a → nul_free path = true →
  Z.of_nat (length a) <= 65535 →
  ∃ b : bool, ZIP_exists (mounted a) path = Ret b
              ∧ (b = true ↔ path ∈ name <$> a).
Proof.
  intros Hs Hc Hp Hlen. unfold ZIP_exists.
  destruct (zip_find_entry_returns a path Hlen) as (r & Hr & Hsound).
  rewrite Hr. cbn [mbind result_bind]. eexists. split; [reflexivity|].
  pose proof Hc as Hc'. unfold c_names in Hc'. rewrite Forall_forall in Hc'.
  destruct r as [m|].
  - destruct (Hsound m eq_refl) as (_ & e & He & Hcmp).
    assert (name e = path) as <-.
    { symmetry. apply strcmp_eq; [done| |done].
      apply Hc'. apply list_elem_of_lookup. eauto. }
    rewrite bool_decide_eq_true_2 by (by eexists).
    split; [intros _|done].
    apply list_elem_of_fmap. exists e. split; [done|].
    apply list_elem_of_lookup. eauto.
  - rewrite bool_decide_eq_false_2 by (by intros [? [=]]).
    split; [done|].
    intros (e & -> & He)%list_elem_of_fmap.
    destruct (zip_find_entry_hit a e (sorted_by_name_StronglySorted a Hs)
                Hlen Hc He) as (m & e' & Hfind & _).
    rewrite Hfind in Hr. done.
Qed.

Lemma ZIP_exists_iff_entry_witness :
  sorted_by_name (entries scenario_dirs)
  ∧ c_names (entries scenario_dirs)
  ∧ nul_free "d/sub/z" = true
  ∧ Z.of_nat (length (entries scenario_dirs)) <= 65535
  ∧ ∃ b : bool, ZIP_exists (mounted (entries scenario_dirs)) "d/sub/z" = Ret b
                ∧ (b = true ↔ "d/sub/z" ∈ name <$> entries scenario_dirs).
Proof.
  assert (H1 : sorted_by_name (entries scenario_dirs)).
  { intros i j x y Hij Hx Hy. unfold name_le.
    do 6 (try destruct i as [|i]); do 6 (try destruct j as [|j]);
      try lia; try done;
      cbn in Hx, Hy; injection Hx as <-; injection Hy as <-;
      vm_compute; discriminate. }
  assert (H2 : c_names (entries scenario_dirs)) by (repeat constructor).
  assert (H3 : nul_free "d/sub/z" = true) by reflexivity.
  assert (H4 : Z.of_nat (length (entries scenario_dirs)) <= 65535)
    by (vm_compute; discriminate).
  repeat split; try assumption.
  exact (ZIP_exists_iff_entry (entries scenario_dirs) "d/sub/z" H1 H2 H3 H4).
Defined.

(* ===================================================================== *)
(** * Queries on a mounted archive *)
(* ===================================================================== *)

Section queries.

Variable a : list ZIPentry.
Variable path : string.
Hypothesis Hsorted : sorted_by_name a.
Hypothesis Hnames : c_names a.
Hypothesis Hpath : nul_free path = true.
Hypothesis Hlen : Z.of_nat (length a) <= 65535.

(** What a lookup gives on a sorted table: nothing, and no entry carries
    the name; or the index of an entry that carries it. *)
Lemma zip_find_entry_sorted :
  (zip_find_entry (mounted a) path = Ret None ∧ path ∉ name <$> a)
  ∨ ∃ m e, zip_find_entry (mounted a) path = Ret (Some m)
           ∧ entry_at a m = Ret e ∧ e ∈ a ∧ name e = path.
Proof.
  destruct (zip_find_entry_returns a path Hlen) as (r & Hr & Hsound).
  pose proof Hnames as Hc. unfold c_names in Hc. rewrite Forall_forall in Hc.
  destruct r as [m|].
  - right. destruct (Hsound m eq_refl) as (Hm & e & He & Hcmp).
    assert (e ∈ a) by (apply list_elem_of_lookup; eauto).
    exists m, e. repeat split; [done| |done|].
    + apply entry_at_lookup; [lia|done].
    + symmetry. apply strcmp_eq; auto.
  - left. split; [done|].
    intros (e & -> & He)%list_elem_of_fmap.
    destruct (zip_find_entry_hit a e (sorted_by_name_StronglySorted a Hsorted)
                Hlen Hnames He) as (m & e' & Hfind & _).
    rewrite Hfind in Hr. done.
Qed.

End queries.

(** X3. On a sorted table [ZIP_getLastModTime] returns -1 with
    [ERR_NO_SUCH_FILE] exactly when no entry carries the name, and
    otherwise the modification time of an entry that carries it, without
    setting an error. *)
Theorem ZIP_getLastModTime_spec (a : list ZIPentry) (path : string) :
  sorted_by_name a → c_names a → nul_free path = true →
  Z.of_nat (length a) <= 65535 →
  (ZIP_getLastModTime (mounted a) path = Ret (-1, Some ERR_NO_SUCH_FILE)
   ∧ path ∉ name <$> a)
  ∨ ∃ e, e ∈ a ∧ name e = path
         ∧ ZIP_getLastModTime (mounted a) path = Ret (last_mod_time e, None).
Proof.
  intros Hs Hc Hp Hlen. unfold ZIP_getLastModTime.
  destruct (zip_find_entry_sorted a path Hs Hc Hp Hlen)
    as [[-> Hno]|(m & e & -> & Hat & He & Hn)].
  - left. done.
  - right. exists e. cbn. rewrite Hat. done.
Qed.

Lemma ZIP_getLastModTime_spec_witness :
  sorted_by_name [stored_entry "hello.txt" 0 14]
  ∧ c_names [stored_entry "hello.txt" 0 14]
  ∧ nul_free "nothing" = true
  ∧ Z.of_nat (length [stored_entry "hello.txt" 0 14]) <= 65535
  ∧ ((ZIP_getLastModTime (mounted [stored_entry "hello.txt" 0 14]) "nothing"
      = Ret (-1, Some ERR_NO_SUCH_FILE)
      ∧ "nothing" ∉ name <$> [stored_entry "hello.txt" 0 14])
     ∨ ∃ e, e ∈ [stored_entry "hello.txt" 0 14] ∧ name e = "nothing"
            ∧ ZIP_getLastModTime (mounted [stored_entry "hello.txt" 0 14])
                "nothing"
              = Ret (last_mod_time e, None)).
Proof.
  assert (H1 : sorted_by_name [stored_entry "hello.txt" 0 14]).
  { intros i j x y Hij Hx Hy. unfold name_le.
    destruct i as [|i]; destruct j as [|j]; try lia; try done.
    cbn in Hx, Hy. injection Hx as <-; injection Hy as <-.
    vm_compute; discriminate. }
  assert (H2 : c_names [stored_entry "hello.txt" 0 14])
    by (repeat constructor).
  assert (H3 : nul_free "nothing" = true) by reflexivity.
  assert (H4 : Z.of_nat (length [stored_entry "hello.txt" 0 14]) <= 65535)
    by (vm_compute; discriminate).
  repeat split; try assumption.
  exact (ZIP_getLastModTime_spec _ "nothing" H1 H2 H3 H4).
Defined.

(** X4. On a sorted table [ZIP_isSymLink] answers 0 with
    [ERR_NO_SUCH_FILE] exactly when no entry carries the name, and
    otherwise what [zip_entry_is_symlink] says of an entry that carries
    it: an entry still to be resolved as a symlink, a broken symlink, or
    an entry that points to its target. No entry is resolved on the way. *)
Theorem ZIP_isSymLink_spec (a : list ZIPentry) (path : string) :
  sorted_by_name a → c_names a → nul_free path = true →
  Z.of_nat (length a) <= 65535 →
  (ZIP_isSymLink (mounted a) path = Ret (false, Some ERR_NO_SUCH_FILE)
   ∧ path ∉ name <$> a)
  ∨ ∃ e, e ∈ a ∧ name e = path
         ∧ ZIP_isSymLink (mounted a) path
           = Ret (bool_decide (resolved e = ZIP_UNRESOLVED_SYMLINK
                               ∨ resolved e = ZIP_BROKEN_SYMLINK
                               ∨ symlink e ≠ None), None).
Proof.
  intros Hs Hc Hp Hlen. unfold ZIP_isSymLink.
  destruct (zip_find_entry_sorted a path Hs Hc Hp Hlen)
    as [[-> Hno]|(m & e & -> & Hat & He & Hn)].
  - left. done.
  - right. exists e. cbn. rewrite Hat. cbn. repeat split; try done.
    do 2 f_equal. unfold zip_entry_is_symlink.
    rewrite !bool_decide_or, orb_assoc. f_equal.
    apply bool_decide_ext. symmetry. apply not_eq_None_Some.
Qed.

Lemma ZIP_isSymLink_spec_witness :
  sorted_by_name [symlink_entry "link" 0 6]
  ∧ c_names [symlink_entry "link" 0 6]
  ∧ nul_free "link" = true
  ∧ Z.of_nat (length [symlink_entry "link" 0 6]) <= 65535
  ∧ ((ZIP_isSymLink (mounted [symlink_entry "link" 0 6]) "link"
      = Ret (false, Some ERR_NO_SUCH_FILE)
      ∧ "link" ∉ name <$> [symlink_entry "link" 0 6])
     ∨ ∃ e, e ∈ [symlink_entry "link" 0 6] ∧ name e = "link"
            ∧ ZIP_isSymLink (mounted [symlink_entry "link" 0 6]) "link"
              = Ret (bool_decide (resolved e = ZIP_UNRESOLVED_SYMLINK
                                  ∨ resolved e = ZIP_BROKEN_SYMLINK
                                  ∨ symlink e ≠ None), None)).
Proof.
  assert (H1 : sorted_by_name [symlink_entry "link" 0 6]).
  { intros i j x y Hij Hx Hy. unfold name_le.
    destruct i as [|i]; destruct j as [|j]; try lia; try done.
    cbn in Hx, Hy. injection Hx as <-; injection Hy as <-.
    vm_compute; discriminate. }
  assert (H2 : c_names [symlink_entry "link" 0 6]) by (repeat constructor).
  assert (H3 : nul_free "link" = true) by reflexivity.
  assert (H4 : Z.of_nat (length [symlink_entry "link" 0 6]) <= 65535)
    by (vm_compute; discriminate).
  repeat split; try assumption.
  exact (ZIP_isSymLink_spec _ "link" H1 H2 H3 H4).
Defined.

(** X5. [ZIP_isDirectory] never answers 0: the result of the search is
    kept in an unsigned variable, so the test [pos >= 0] holds for every
    result, also for the -1 of a search that found nothing, and the code
    behind it, which looks the name up and follows symlinks, is never
    reached. Whenever the call returns, it returns 1 and leaves the table
    and the error state as they were. *)
Theorem ZIP_isDirectory_always_true (zl : zlib) (fuel : nat)
    (file : list ascii) (st : rstate) (nm : string) (r : bool * rstate) :
  ZIP_isDirectory zl fuel file st nm = Ret r → r = (true, st).
Proof.
  unfold ZIP_isDirectory. intros H.
  apply bind_Ret_inv in H as (p & _ & H).
  assert (0 <= u32 p) by (unfold u32; apply Z.mod_pos_bound; lia).
  cbn zeta in H.
  destruct (u32 p >=? 0) eqn:E; [congruence|lia].
Qed.

Lemma ZIP_isDirectory_always_true_witness :
  ZIP_isDirectory no_zlib 0 []
    {| info := scenario_dirs; src := __PHYSFS_platformOpenRead [];
       err := None |} "d/x"
  = Ret (true, {| info := scenario_dirs; src := __PHYSFS_platformOpenRead [];
                  err := None |})
  ∧ (true, {| info := scenario_dirs; src := __PHYSFS_platformOpenRead [];
              err := None |})
    = (true, {| info := scenario_dirs; src := __PHYSFS_platformOpenRead [];
                err := None |}).
Proof.
  assert (H : ZIP_isDirectory no_zlib 0 []
                {| info := scenario_dirs;
                   src := __PHYSFS_platformOpenRead []; err := None |} "d/x"
              = Ret (true, {| info := scenario_dirs;
                              src := __PHYSFS_platformOpenRead [];
                              err := None |}))
    by (vm_compute; reflexivity).
  split; [exact H|].
  exact (ZIP_isDirectory_always_true _ _ _ _ _ _ H).
Defined.

(* ===================================================================== *)
(** * What the directory search returns *)
(* ===================================================================== *)

Lemma substring_0_length (n : nat) (p : string) :
  (n <= String.length p)%nat → String.length (substring 0 n p) = n.
Proof.
  revert p. induction n as [|n IH]; intros [|c p]; simpl; try lia.
  intros H. rewrite IH; lia.
Qed.

Lemma substring_0_all (p : string) : substring 0 (String.length p) p = p.
Proof. induction p as [|c p IH]; simpl; [done|by rewrite IH]. Qed.

Lemma strncmp_prefix (n : nat) :
  ∀ p s, nul_free p = true → (n <= String.length p)%nat →
         strncmp p s n = 0 →
         ∃ rest, s = (substring 0 n p ++ rest)%string.
Proof.
  induction n as [|n IH]; intros p s Hp Hn Hcmp.
  - exists s. by destruct p.
  - destruct p as [|c p]; [simpl in Hn; lia|].
    simpl in Hp. apply andb_prop in Hp as [Hc Hp].
    apply negb_true_iff, Z.eqb_neq in Hc.
    destruct s as [|d s]; simpl in Hcmp; [lia|].
    destruct (code c =? code d) eqn:E.
    + apply Z.eqb_eq, code_inj in E as <-.
      destruct (IH p s Hp ltac:(simpl in Hn; lia) Hcmp) as [rest ->].
      by exists rest.
    + apply Z.eqb_neq in E. lia.
Qed.

Lemma char_at_get (s : string) (k c : Z) :
  char_at s k = Ret c → c ≠ 0 →
  0 <= k ∧ ∃ ch, String.get (Z.to_nat k) s = Some ch ∧ code ch = c.
Proof.
  unfold char_at. intros H Hc.
  destruct ((k <? 0) || (strlen s <? k)) eqn:E; [done|].
  apply orb_false_elim in E as [E _]. apply Z.ltb_ge in E.
  split; [done|].
  destruct (String.get (Z.to_nat k) s) as [ch|]; [|congruence].
  exists ch. split; congruence.
Qed.

Lemma get_after_prefix (pre rest : string) (ch : ascii) :
  String.get (String.length pre) (pre ++ rest)%string = Some ch →
  ∃ rest', rest = String ch rest'.
Proof.
  induction pre as [|c pre IH]; simpl; [|done].
  destruct rest as [|d rest]; simpl; [done|].
  intros [= ->]. by eexists.
Qed.

Lemma code_slash (ch : ascii) : code ch = slash → ch = "/"%char.
Proof. intros H. by apply code_inj. Qed.

Lemma char_val_slash (c : Z) :
  0 <= c < 256 → (char_val c <? slash) = false →
  (char_val c >? slash) = false →
  c = slash.
Proof.
  unfold char_val, signed, slash. intros Hc H1 H2.
  apply Z.ltb_ge in H1. rewrite Z.gtb_ltb in H2. apply Z.ltb_ge in H2.
  change (2 ^ (8 - 1)) with 128 in *. change (2 ^ 8) with 256 in *.
  rewrite Z.mod_small in * by lia.
  destruct (c <? 128) eqn:E; [lia|]. apply Z.ltb_ge in E. lia.
Qed.

Lemma char_at_range (s : string) (k c : Z) :
  char_at s k = Ret c → 0 <= c < 256.
Proof.
  unfold char_at. destruct ((k <? 0) || (strlen s <? k)); [done|].
  destruct (String.get (Z.to_nat k) s) as [ch|]; intros [= <-];
    [apply code_range|lia].
Qed.

(** The last character of a string that ends in a slash. *)
Lemma char_at_last_slash (d : string) :
  char_at (d ++ "/")%string (strlen (d ++ "/")%string - 1) = Ret slash.
Proof.
  unfold char_at, strlen.
  assert (String.length (d ++ "/")%string = S (String.length d)) as ->.
  { induction d as [|c d IH]; simpl; [done|by rewrite IH]. }
  replace (Z.of_nat (S (String.length d)) - 1) with (Z.of_nat (String.length d))
    by lia.
  rewrite Nat2Z.id.
  replace ((Z.of_nat (String.length d) <? 0)
           || (Z.of_nat (S (String.length d)) <? Z.of_nat (String.length d)))
    with false.
  2:{ symmetry. apply orb_false_intro; apply Z.ltb_ge; lia. }
  induction d as [|c d IH]; simpl; [done|apply IH].
Qed.

(** A string whose last character is a slash is the rest with a slash. *)
Lemma strip_last_slash (p : string) :
  String.get (String.length p - 1) p = Some "/"%char →
  p = (substring 0 (String.length p - 1) p ++ "/")%string.
Proof.
  induction p as [|c p IH]; [done|].
  destruct p as [|c' p].
  - simpl. by intros [= ->].
  - intros H. simpl in H, IH |- *. rewrite Nat.sub_0_r in *.
    f_equal. apply IH. exact H.
Qed.

Section directory_search.

Variable a : list ZIPentry.
Variable path : string.
Variable dlen : Z.
Variable stop : bool.

Lemma zip_find_start_of_dir_loop_sound :
  ∀ fuel lo hi retval r,
    retval = -1 ∨ in_directory a path dlen retval →
    zip_find_start_of_dir_loop fuel a path dlen stop lo hi retval = Ret r →
    r = -1 ∨ in_directory a path dlen r.
Proof.
  induction fuel as [|fuel IH]; intros lo hi retval r Hret H; [done|].
  simpl in H. destruct (lo <=? hi); [|by injection H as <-].
  apply bind_Ret_inv in H as (e & He & H).
  destruct (strncmp path (name e) (Z.to_nat dlen) =? 0) eqn:Hrc.
  - apply Z.eqb_eq in Hrc.
    apply bind_Ret_inv in H as (ch & Hch & H).
    destruct (char_val ch <? slash) eqn:H1; [by eapply IH|].
    destruct (char_val ch >? slash) eqn:H2; [by eapply IH|].
    assert (ch = slash) as ->
      by (eapply char_val_slash; eauto using char_at_range).
    assert (in_directory a path dlen (lo + (hi - lo) / 2)) by (by exists e).
    apply bind_Ret_inv in H as (nxt & _ & H).
    destruct ((nxt =? 0) || stop).
    + injection H as <-. by right.
    + eapply IH; [|exact H]. by right.
  - destruct (strncmp path (name e) (Z.to_nat dlen) >? 0); by eapply IH.
Qed.

End directory_search.

Lemma in_directory_name (a : list ZIPentry) (path : string) (dlen m : Z) :
  nul_free path = true → 0 <= dlen <= strlen path →
  in_directory a path dlen m →
  0 <= m ∧ ∃ e rest, a !! Z.to_nat m = Some e
     ∧ name e = (substring 0 (Z.to_nat dlen) path ++ "/" ++ rest)%string.
Proof.
  intros Hp Hd (e & He & Hcmp & Hch).
  apply entry_at_inv in He as [Hm He]. split; [done|].
  exists e.
  assert (Hn : (Z.to_nat dlen <= String.length path)%nat)
    by (unfold strlen in Hd; lia).
  destruct (strncmp_prefix _ _ _ Hp Hn Hcmp) as [rest Hrest].
  apply char_at_get in Hch as (_ & ch & Hget & Hcode); [|done].
  apply code_slash in Hcode as ->.
  rewrite Hrest in Hget.
  rewrite <- (substring_0_length (Z.to_nat dlen) path Hn) in Hget at 1.
  apply get_after_prefix in Hget as [rest' ->].
  by exists rest'.
Qed.

(** X6. What [zip_find_start_of_dir] returns is sound, on every table and
    with either setting of [stop_on_first_find]: 0 for the root, and for
    any other path -1 or the index of an entry whose name is the path,
    without a trailing slash, followed by a slash: an entry of that
    directory. *)
Theorem zip_find_start_of_dir_sound (info : ZIPinfo) (path : string)
    (stop : bool) (r : Z) :
  nul_free path = true → strlen path < 2 ^ 32 →
  zip_find_start_of_dir info path stop = Ret r →
  (path = "" ∧ r = 0)
  ∨ (path ≠ ""
     ∧ (r = -1
        ∨ ∃ e d rest,
            0 <= r ∧ entries info !! Z.to_nat r = Some e
            ∧ name e = (d ++ "/" ++ rest)%string
            ∧ (path = (d ++ "/")%string
               ∨ (path = d ∧ ∀ d', path ≠ (d' ++ "/")%string)))).
Proof.
  intros Hp Hlen H. unfold zip_find_start_of_dir in H.
  destruct path as [|c p] eqn:Epath.
  { left. split; [done|]. vm_compute in H. congruence. }
  right. split; [done|]. rewrite <- Epath in *.
  assert (Hpos : 0 < strlen path) by (subst path; unfold strlen; simpl; lia).
  assert (Hu : u32 (strlen path) = strlen path)
    by (unfold u32; apply Z.mod_small; lia).
  rewrite Hu in H.
  apply bind_Ret_inv in H as (first & Hfirst & H).
  assert ((first =? 0) = false) as Hnz.
  { subst path. simpl in Hp. apply andb_prop in Hp as [Hc _].
    apply negb_true_iff in Hc. vm_compute in Hfirst.
    injection Hfirst as <-. exact Hc. }
  rewrite Hnz in H.
  assert ((0 <? strlen path) = true) as Hlt by (apply Z.ltb_lt; lia).
  rewrite Hlt in H. cbn [andb] in H.
  apply bind_Ret_inv in H as (last & Hlast & H).
  apply zip_find_start_of_dir_loop_sound in H; [|by left].
  destruct H as [->|Hin]; [by left|right].
  destruct (last =? slash) eqn:Eslash.
  - apply Z.eqb_eq in Eslash as ->.
    apply in_directory_name in Hin as (Hr & e & rest & He & Hn);
      [|done|lia].
    exists e, (substring 0 (Z.to_nat (strlen path - 1)) path), rest.
    repeat split; try done. left.
    apply char_at_get in Hlast as (_ & ch & Hget & Hcode); [|done].
    apply code_slash in Hcode as ->.
    unfold strlen in *.
    replace (Z.to_nat (Z.of_nat (String.length path) - 1))
      with (String.length path - 1)%nat in * by lia.
    by apply strip_last_slash.
  - apply in_directory_name in Hin as (Hr & e & rest & He & Hn);
      [|done|lia].
    exists e, path, rest. repeat split; try done.
    + unfold strlen in Hn. rewrite Nat2Z.id, substring_0_all in Hn. exact Hn.
    + right. split; [done|]. intros d' Hd'.
      rewrite Hd' in Hlast at 1 2. rewrite char_at_last_slash in Hlast.
      injection Hlast as <-. done.
Qed.

Lemma zip_find_start_of_dir_sound_witness :
  nul_free "d/sub/" = true ∧ strlen "d/sub/" < 2 ^ 32
  ∧ zip_find_start_of_dir scenario_dirs "d/sub/" false = Ret 1
  ∧ (("d/sub/" = "" ∧ 1 = 0)
     ∨ ("d/sub/" ≠ ""
        ∧ (1 = -1
           ∨ ∃ e d rest,
               0 <= 1 ∧ entries scenario_dirs !! Z.to_nat 1 = Some e
               ∧ name e = (d ++ "/" ++ rest)%string
               ∧ ("d/sub/" = (d ++ "/")%string
                  ∨ ("d/sub/" = d ∧ ∀ d', "d/sub/" ≠ (d' ++ "/")%string))))).
Proof.
  assert (H1 : nul_free "d/sub/" = true) by reflexivity.
  assert (H2 : strlen "d/sub/" < 2 ^ 32) by (vm_compute; reflexivity).
  assert (H3 : zip_find_start_of_dir scenario_dirs "d/sub/" false = Ret 1)
    by (vm_compute; reflexivity).
  repeat split; try assumption.
  exact (zip_find_start_of_dir_sound scenario_dirs "d/sub/" false 1 H1 H2 H3).
Defined.

(* ===================================================================== *)
(** * The names of a listing *)
(* ===================================================================== *)

Lemma strchr_nonneg (s : string) (c k : Z) : strchr s c = Some k → 0 <= k.
Proof.
  revert k. induction s as [|d s IH]; simpl; intros k.
  - destruct (c =? 0); intros [= <-]; lia.
  - destruct (code d =? c); [intros [= <-]; lia|].
    destruct (strchr s c) as [k'|]; [|done].
    intros [= <-]. specialize (IH k' eq_refl). lia.
Qed.

Lemma strchr_cut (s : string) (k : Z) :
  strchr s slash = Some k →
  strchr (substring 0 (Z.to_nat k) s) slash = None.
Proof.
  revert k. induction s as [|d s IH]; simpl; intros k; [done|].
  destruct (code d =? slash) eqn:E; [by intros [= <-]|].
  destruct (strchr s slash) as [k'|] eqn:Ek; [|done].
  intros [= <-]. pose proof (strchr_nonneg _ _ _ Ek).
  replace (Z.to_nat (k' + 1)) with (S (Z.to_nat k')) by lia.
  simpl. rewrite E. by rewrite (IH k').
Qed.

(** The name added for an entry: up to the first slash, or all of it. *)
Lemma added_name_slash_free (add_file : string) :
  strchr
    (substring 0
       (Z.to_nat match strchr add_file slash with
                 | Some k => k
                 | None => strlen add_file
                 end) add_file) slash = None.
Proof.
  destruct (strchr add_file slash) as [k|] eqn:E.
  - by apply strchr_cut.
  - unfold strlen. by rewrite Nat2Z.id, substring_0_all.
Qed.

Lemma enumerate_loop_slash_free (a : list ZIPentry) (dirname : string)
    (dlen : Z) (omit : bool) (max : Z) :
  ∀ fuel i retval,
    Forall (λ n, strchr n slash = None) retval →
    Forall (λ n, strchr n slash = None)
      (enumerate_loop fuel a dirname dlen omit max i retval).1.
Proof.
  induction fuel as [|fuel IH]; intros i retval Hret; [done|].
  simpl. destruct (entry_at a i) as [entry| |]; try done.
  destruct (omit && zip_entry_is_symlink entry); [by apply IH|].
  destruct (char_at (name entry) _) as [c| |]; try done.
  destruct (c =? 0); [by apply IH|].
  set (add_file := str_from (name entry) _).
  assert (Forall (λ n, strchr n slash = None)
            (retval ++
             [substring 0
                (Z.to_nat match strchr add_file slash with
                          | Some k => k
                          | None => strlen add_file
                          end) add_file])) as Hret'.
  { apply Forall_app. split; [done|].
    constructor; [apply added_name_slash_free|constructor]. }
  destruct (i + 1 >=? max); [done|].
  destruct (if 0 <? dlen then entry_at a (i + 1) else Ret entry)
    as [nxt| |]; try done.
  destruct ((0 <? dlen) && negb _); [done|].
  destruct (strchr add_file slash) as [k|]; [|by apply IH].
  destruct (skip_children fuel a dirname dlen (i + 1)) as [i'| |]; try done.
  by apply IH.
Qed.

(** X7. No name that [ZIP_enumerateFiles] puts on its list holds a slash:
    an entry below a subdirectory adds the name of the subdirectory, never
    a path. This holds of the list however the call ends. *)
Theorem ZIP_enumerateFiles_names_slash_free (fuel : nat) (info : ZIPinfo)
    (dirname : string) (omitSymLinks : bool) :
  Forall (λ n, strchr n slash = None)
    (ZIP_enumerateFiles fuel info dirname omitSymLinks).1.
Proof.
  unfold ZIP_enumerateFiles.
  destruct (char_at dirname _) as [last| |]; try done.
  destruct (zip_find_start_of_dir info dirname false) as [i| |]; try done.
  destruct (i =? -1); [done|].
  by apply enumerate_loop_slash_free.
Qed.

(* ===================================================================== *)
(** * What a resolution leaves alone *)
(* ===================================================================== *)

Section resolution_frame.
Context (zl : zlib).
Implicit Types (st : rstate) (i : Z) (e : ZIPentry) (a b c : list ZIPentry).

Lemma same_file_refl e : same_file e e.
Proof. by repeat split. Qed.

Lemma same_file_trans e1 e2 e3 :
  same_file e1 e2 → same_file e2 e3 → same_file e1 e3.
Proof.
  unfold same_file.
  intros (? & ? & ? & ? & ? & ? & ? & ?) (? & ? & ? & ? & ? & ? & ? & ?).
  repeat split; congruence.
Qed.

Lemma entry_step_same e e' : entry_step e e' → same_file e e'.
Proof. intros [->|[H _]]; [apply same_file_refl|done]. Qed.

Lemma entry_step_trans e1 e2 e3 :
  entry_step e1 e2 → entry_step e2 e3 → entry_step e1 e3.
Proof.
  intros [->|[H12 K12]] H23; [done|].
  destruct H23 as [->|[_ [[Hu _]|[Hu _]]]]; [by right| |];
    destruct K12 as [(_ & _ & [?|?])|(_ & [?|[? _]])]; congruence.
Qed.

Lemma steps_refl a : Forall2 entry_step a a.
Proof. induction a; constructor; [by left|done]. Qed.

Lemma steps_trans a b c :
  Forall2 entry_step a b → Forall2 entry_step b c → Forall2 entry_step a c.
Proof.
  intros Hab. revert c. induction Hab as [|x y a b Hxy _ IH]; intros c Hbc.
  - by inversion Hbc.
  - inversion Hbc as [|? z ? c' Hyz Hbc']; subst.
    constructor; [by eapply entry_step_trans|by apply IH].
Qed.

Lemma resolving_refl n a : resolving n a a.
Proof.
  split; [done|]. intros j e e' H1 H2.
  rewrite H1 in H2. injection H2 as <-.
  split; [apply same_file_refl|by left].
Qed.

Lemma resolving_trans n a b c :
  resolving n a b → resolving n b c → resolving n a c.
Proof.
  intros [Hl1 H1] [Hl2 H2]. split; [congruence|].
  intros j e e'' Ha Hc.
  destruct (b !! j) as [e'|] eqn:Hb.
  2:{ apply lookup_ge_None in Hb. apply lookup_lt_Some in Ha. lia. }
  destruct (H1 j e e' Ha Hb) as [S1 T1], (H2 j e' e'' Hb Hc) as [S2 T2].
  split; [by eapply same_file_trans|].
  intros Hj. eapply entry_step_trans; eauto.
Qed.

Lemma steps_resolving n a b : Forall2 entry_step a b → resolving n a b.
Proof.
  intros H. split; [symmetry; by eapply Forall2_length|].
  intros j e e' Ha Hb.
  pose proof (Forall2_lookup_lr _ _ _ _ _ _ H Ha Hb) as Hs.
  split; [by apply entry_step_same|done].
Qed.

(** A store to the entry being resolved. *)
Lemma set_entry_resolving i e e' st st' :
  entry_at (entries (info st)) i = Ret e → same_file e e' →
  set_entry i e' st = Ret st' →
  same_archive (info st) (info st')
  ∧ resolving (Z.to_nat i) (entries (info st)) (entries (info st')).
Proof.
  intros [Hi He]%entry_at_inv Hsame.
  unfold set_entry, store_entry. intros (a' & Ha & [= <-])%bind_Ret_inv.
  cbn [info entries archiveName entryCount]. split; [done|].
  destruct (_ || _); [done|]. injection Ha as <-.
  split; [apply length_insert|].
  intros j x y Hx Hy. destruct (decide (j = Z.to_nat i)) as [->|Hne].
  - rewrite list_lookup_insert_eq in Hy by (by eapply lookup_lt_Some).
    injection Hy as <-. rewrite He in Hx. injection Hx as <-. done.
  - rewrite list_lookup_insert_ne in Hy by done.
    rewrite Hx in Hy. injection Hy as <-.
    split; [apply same_file_refl|by left].
Qed.

(** The end of a resolution: the entry was unresolved when it began, and
    is settled now. *)
Lemma resolving_done n a b e e' :
  a !! n = Some e → b !! n = Some e' →
  (resolved e = ZIP_UNRESOLVED_FILE
   ∧ symlink e' = symlink e
   ∧ (resolved e' = ZIP_RESOLVED ∨ resolved e' = ZIP_BROKEN_FILE))
  ∨ (resolved e = ZIP_UNRESOLVED_SYMLINK
     ∧ (resolved e' = ZIP_BROKEN_SYMLINK
        ∨ (resolved e' = ZIP_RESOLVED ∧ is_Some (symlink e')))) →
  resolving n a b → Forall2 entry_step a b.
Proof.
  intros He He' Hk [Hlen H]. apply Forall2_same_length_lookup.
  split; [done|]. intros j x y Hx Hy.
  destruct (H j x y Hx Hy) as [Hs Hstep].
  destruct (decide (j = n)) as [->|Hne]; [|by apply Hstep].
  rewrite He in Hx. injection Hx as <-.
  rewrite He' in Hy. injection Hy as <-. by right.
Qed.

Lemma same_archive_refl (x : ZIPinfo) : same_archive x x.
Proof. done. Qed.

Lemma same_archive_trans (x y z : ZIPinfo) :
  same_archive x y → same_archive y z → same_archive x z.
Proof. intros [? ?] [? ?]. split; congruence. Qed.

Lemma zip_parse_local_resolving st i r st' :
  zip_parse_local st i = Ret (r, st') →
  same_archive (info st) (info st')
  ∧ resolving (Z.to_nat i) (entries (info st)) (entries (info st')).
Proof.
  unfold zip_parse_local. intros (e & He & H)%bind_Ret_inv.
  destruct (parse_local_header e (src st)) as [ofs h|o].
  - apply bind_Ret_inv in H as (st1 & Hset & [= _ <-]).
    apply (set_entry_resolving i e (with_offset ofs e) (set_src h st) st1);
      [done|by repeat split|done].
  - injection H as _ <-. rewrite ?set_error_info; cbn [set_error set_src info].
    split; [done|apply resolving_refl].
Qed.

Lemma zip_parse_local_entry st i e r st' :
  entry_at (entries (info st)) i = Ret e →
  zip_parse_local st i = Ret (r, st') →
  ∃ e', entry_at (entries (info st')) i = Ret e'
        ∧ symlink e' = symlink e ∧ resolved e' = resolved e.
Proof.
  intros He. unfold zip_parse_local. rewrite He. cbn [mbind result_bind].
  destruct (parse_local_header e (src st)) as [ofs h|o].
  - intros (st1 & Hset & [= _ <-])%bind_Ret_inv.
    apply set_entry_lookup in Hset as (Hset & _). eauto.
  - intros [= _ <-]. rewrite ?set_error_info; cbn [set_error info]. eauto.
Qed.

Section with_resolve.
Context (resolve : rstate → Z → result (bool * rstate)).
Hypothesis resolve_steps : ∀ st i r st',
  resolve st i = Ret (r, st') →
  same_archive (info st) (info st')
  ∧ Forall2 entry_step (entries (info st)) (entries (info st')).

Lemma zip_follow_symlink_steps fuel st path t st' :
  zip_follow_symlink resolve fuel st path = Ret (t, st') →
  same_archive (info st) (info st')
  ∧ Forall2 entry_step (entries (info st)) (entries (info st')).
Proof.
  unfold zip_follow_symlink. intros (p & _ & H)%bind_Ret_inv.
  apply bind_Ret_inv in H as ([k|] & _ & H).
  - apply bind_Ret_inv in H as ([ok st1] & Hres & H).
    apply resolve_steps in Hres.
    destruct ok.
    + apply bind_Ret_inv in H as (e & _ & H).
      by destruct (symlink e); injection H as _ <-.
    + by injection H as _ <-.
  - injection H as _ <-. rewrite ?set_error_info; cbn [set_error set_src info].
    split; [done|apply steps_refl].
Qed.

Lemma zip_resolve_symlink_resolving fuel st i r st' :
  zip_resolve_symlink zl resolve fuel st i = Ret (r, st') →
  same_archive (info st) (info st')
  ∧ resolving (Z.to_nat i) (entries (info st)) (entries (info st')).
Proof.
  unfold zip_resolve_symlink. intros (e & _ & H)%bind_Ret_inv.
  destruct (__PHYSFS_platformSeek _ _) as [h|].
  2:{ injection H as _ <-. rewrite ?set_error_info; cbn [set_error set_src info].
      split; [done|apply resolving_refl]. }
  apply bind_Ret_inv in H as ([[link h'] o] & _ & H).
  apply bind_Ret_inv in H as (st1 & Hst1 & H).
  apply bind_Ret_inv in H as (e1 & _ & [= _ <-]).
  destruct link as [bytes|].
  - apply bind_Ret_inv in Hst1 as ([t st2] & Hfollow & H).
    apply bind_Ret_inv in H as (e2 & He2 & Hset).
    apply zip_follow_symlink_steps in Hfollow as [Ha Hsteps].
    rewrite ?set_error_info in Ha, Hsteps. cbn [set_error set_src info] in Ha, Hsteps.
    apply (set_entry_resolving i e2 (with_symlink t e2)) in Hset
      as [Ha' Hres]; [|done|by repeat split].
    split; [by eapply same_archive_trans|].
    eapply resolving_trans; [by apply steps_resolving|done].
  - injection Hst1 as <-. rewrite ?set_error_info; cbn [set_error set_src info].
    split; [done|apply resolving_refl].
Qed.

Lemma zip_resolve_symlink_true fuel st i st' :
  zip_resolve_symlink zl resolve fuel st i = Ret (true, st') →
  ∃ e', entry_at (entries (info st')) i = Ret e' ∧ is_Some (symlink e').
Proof.
  unfold zip_resolve_symlink. intros (e & _ & H)%bind_Ret_inv.
  destruct (__PHYSFS_platformSeek _ _) as [h|]; [|done].
  apply bind_Ret_inv in H as ([[link h'] o] & _ & H).
  apply bind_Ret_inv in H as (st1 & _ & H).
  apply bind_Ret_inv in H as (e1 & He1 & [= Hd <-]).
  exists e1. split; [done|]. by apply bool_decide_eq_true in Hd.
Qed.

End with_resolve.

(** Whatever [zip_resolve] is called on, and however it ends, every
    entry of the table is left as it was or is settled by its kind. *)
Lemma zip_resolve_steps fuel :
  ∀ st i r st',
    zip_resolve zl fuel st i = Ret (r, st') →
    same_archive (info st) (info st')
    ∧ Forall2 entry_step (entries (info st)) (entries (info st')).
Proof.
  induction fuel as [|fuel IH]; intros st i r st'; [done|].
  cbn [zip_resolve]. intros (e & He & H)%bind_Ret_inv.
  destruct (resolved e) eqn:Hr; cbn [bool_decide decide_rel] in H;
    try (injection H as _ <-; split; [done|apply steps_refl]).
  - (* an unresolved file *)
    rewrite !bool_decide_eq_false_2 in H by done.
    rewrite bool_decide_eq_true_2 in H by done.
    apply bind_Ret_inv in H as (st1 & H1 & H).
    apply bind_Ret_inv in H as ([r2 st2] & H2 & H).
    apply bind_Ret_inv in H as ([r3 st3] & H3 & H).
    rewrite andb_false_r in H3. injection H3 as <- <-.
    apply bind_Ret_inv in H as (e3 & He3 & H).
    apply bind_Ret_inv in H as (st4 & H4 & [= _ <-]).
    rewrite bool_decide_eq_false_2, bool_decide_eq_true_2 in H4 by done.
    pose proof (set_entry_lookup _ _ _ _ H1) as (E1 & _).
    destruct (zip_parse_local_entry _ _ _ _ _ E1 H2) as (e2 & E2 & Hs2 & _).
    rewrite E2 in He3. injection He3 as <-.
    pose proof (set_entry_lookup _ _ _ _ H4) as (E4 & _).
    apply (set_entry_resolving i e (with_resolved ZIP_RESOLVING e)) in H1
      as [A1 R1]; [|done|by repeat split].
    apply zip_parse_local_resolving in H2 as [A2 R2].
    apply (set_entry_resolving i e2) in H4 as [A4 R4];
      [|done|by repeat split].
    split; [eauto using same_archive_trans|].
    apply entry_at_inv in He as [_ He], E4 as [_ E4].
    apply (resolving_done (Z.to_nat i) _ _ _ _ He E4).
    + left. cbn [with_resolved symlink resolved] in *.
      split; [done|]. split; [done|]. destruct r2; auto.
    + eauto using resolving_trans.
  - (* an unresolved symlink *)
    rewrite !bool_decide_eq_false_2 in H by done.
    rewrite bool_decide_eq_true_2 in H by done.
    apply bind_Ret_inv in H as (st1 & H1 & H).
    apply bind_Ret_inv in H as ([r2 st2] & H2 & H).
    apply bind_Ret_inv in H as ([r3 st3] & H3 & H).
    apply bind_Ret_inv in H as (e3 & He3 & H).
    apply bind_Ret_inv in H as (st4 & H4 & [= _ <-]).
    rewrite bool_decide_eq_true_2 in H4 by done.
    pose proof (set_entry_lookup _ _ _ _ H4) as (E4 & _).
    assert (r3 = true → is_Some (symlink e3)) as Hlink.
    { intros ->. rewrite bool_decide_eq_true_2, andb_true_r in H3 by done.
      destruct r2; [|done].
      apply zip_resolve_symlink_true in H3 as (e3' & E3 & Hl).
      rewrite E3 in He3. by injection He3 as <-. }
    apply (set_entry_resolving i e (with_resolved ZIP_RESOLVING e)) in H1
      as [A1 R1]; [|done|by repeat split].
    apply zip_parse_local_resolving in H2 as [A2 R2].
    assert (same_archive (info st2) (info st3)
            ∧ resolving (Z.to_nat i) (entries (info st2)) (entries (info st3)))
      as [A3 R3].
    { destruct (r2 && _).
      - by apply (zip_resolve_symlink_resolving (zip_resolve zl fuel) IH)
          in H3.
      - injection H3 as _ <-. split; [done|apply resolving_refl]. }
    apply (set_entry_resolving i e3) in H4 as [A4 R4];
      [|done|by repeat split].
    split; [eauto using same_archive_trans|].
    apply entry_at_inv in He as [_ He], E4 as [_ E4].
    apply (resolving_done (Z.to_nat i) _ _ _ _ He E4).
    + right. cbn [with_resolved symlink resolved] in *.
      split; [done|]. destruct r3; auto.
    + eauto using resolving_trans.
Qed.

End resolution_frame.

(** X8. What [zip_resolve] does to the table, whatever entry it is called
    on and however it ends. The archive name and the entry count stay.
    Every entry is left exactly as it was, or it was unresolved and is
    settled: what was read from the central directory (name, versions,
    method, CRC, sizes, time) stays, a file ends resolved or broken with
    the link target it had, and a symlink ends broken, or resolved with a
    link target. So an entry that is resolved, broken or being resolved
    is never written to. *)
Theorem zip_resolve_settles_unresolved_entries (zl : zlib) (fuel : nat)
    (st : rstate) (i : Z) (r : bool) (st' : rstate) :
  zip_resolve zl fuel st i = Ret (r, st') →
  archiveName (info st') = archiveName (info st)
  ∧ entryCount (info st') = entryCount (info st)
  ∧ Forall2 entry_step (entries (info st)) (entries (info st')).
Proof.
  intros H. apply zip_resolve_steps in H as [[Hn Hc] Hsteps]. done.
Qed.

Lemma zip_resolve_settles_unresolved_entries_witness :
  ∃ st', zip_resolve no_zlib 4 chain_archive 0 = Ret (true, st')
    ∧ archiveName (info st') = archiveName (info chain_archive)
    ∧ entryCount (info st') = entryCount (info chain_archive)
    ∧ Forall2 entry_step (entries (info chain_archive)) (entries (info st')).
Proof.
  destruct (zip_resolve no_zlib 4 chain_archive 0) as [[[|] st']| |] eqn:E;
    try (by vm_compute in E).
  exists st'. split; [reflexivity|].
  exact (zip_resolve_settles_unresolved_entries no_zlib 4 chain_archive 0
           true st' E).
Defined.

(* ===================================================================== *)
(** * Queries do not see a resolution *)
(* ===================================================================== *)

Lemma entry_step_alike (e e' : ZIPentry) : entry_step e e' → alike e e'.
Proof.
  intros [->|[Hs Hk]]; [done|].
  destruct Hs as (Hn & _ & _ & _ & _ & _ & _ & Ht).
  split; [done|]. split; [done|]. unfold zip_entry_is_symlink.
  destruct Hk as [(-> & -> & [-> | ->])|(-> & [->|[-> Hl]])]; try done.
  by rewrite (bool_decide_eq_true_2 (is_Some (symlink e'))).
Qed.

Section alike_tables.

Variables a a' : list ZIPentry.
Hypothesis Halike : Forall2 alike a a'.

Lemma entry_at_alike (i : Z) :
  match entry_at a i, entry_at a' i with
  | Ret e, Ret e' => alike e e'
  | Undef, Undef => True
  | _, _ => False
  end.
Proof.
  unfold entry_at. rewrite <- (Forall2_length _ _ _ Halike).
  destruct ((i <? 0) || (Z.of_nat (length a) <=? i)) eqn:E; [done|].
  apply orb_false_elim in E as [E0 E]. apply Z.leb_gt in E.
  apply Z.ltb_ge in E0.
  destruct (a !! Z.to_nat i) as [e|] eqn:He.
  2:{ apply lookup_ge_None in He. lia. }
  destruct (Forall2_lookup_l _ _ _ _ _ Halike He) as (e' & -> & H). done.
Qed.

(** Reading an entry of either table: the same outcome, and entries that
    are alike. *)
Ltac read_both i e e' H :=
  let R := fresh in
  pose proof (entry_at_alike i) as R;
  destruct (entry_at a i) as [e| |], (entry_at a' i) as [e'| |];
  try done; try (exfalso; exact R);
  destruct R as (H & ? & ?); cbn [mbind result_bind].

Lemma zip_find_entry_loop_alike (path : string) :
  ∀ fuel lo hi,
    zip_find_entry_loop fuel a' path lo hi = zip_find_entry_loop fuel a path lo hi.
Proof.
  induction fuel as [|fuel IH]; intros lo hi; [done|].
  simpl. destruct (lo <=? hi); [|done].
  read_both (lo + (hi - lo) / 2) e e' Hn. rewrite Hn.
  destruct (strcmp path (name e) =? 0); [done|].
  destruct (strcmp path (name e) >? 0); apply IH.
Qed.

Lemma zip_find_start_of_dir_loop_alike (path : string) (dlen : Z)
    (stop : bool) :
  ∀ fuel lo hi retval,
    zip_find_start_of_dir_loop fuel a' path dlen stop lo hi retval
    = zip_find_start_of_dir_loop fuel a path dlen stop lo hi retval.
Proof.
  induction fuel as [|fuel IH]; intros lo hi retval; [done|].
  simpl. destruct (lo <=? hi); [|done].
  read_both (lo + (hi - lo) / 2) e e' Hn. rewrite Hn.
  destruct (strncmp path (name e) (Z.to_nat dlen) =? 0).
  - destruct (char_at (name e) dlen) as [ch| |]; try done.
    cbn [mbind result_bind].
    destruct (char_val ch <? slash); [apply IH|].
    destruct (char_val ch >? slash); [apply IH|].
    destruct (char_at (name e) (dlen + 1)) as [nxt| |]; try done.
    cbn [mbind result_bind].
    destruct ((nxt =? 0) || stop); [done|apply IH].
  - destruct (strncmp path (name e) (Z.to_nat dlen) >? 0); apply IH.
Qed.

Lemma skip_children_alike (dirname : string) (dlen : Z) :
  ∀ fuel i,
    skip_children fuel a' dirname dlen i = skip_children fuel a dirname dlen i.
Proof.
  induction fuel as [|fuel IH]; intros i; [done|].
  simpl. read_both i e e' Hn. rewrite Hn.
  destruct (strncmp (name e) dirname (Z.to_nat dlen) =? 0); [|done].
  destruct (char_at (name e) dlen) as [ch| |]; try done.
  cbn [mbind result_bind]. destruct (ch =? slash); [apply IH|done].
Qed.

Lemma enumerate_loop_alike (dirname : string) (dlen : Z) (omit : bool)
    (max : Z) :
  ∀ fuel i retval,
    enumerate_loop fuel a' dirname dlen omit max i retval
    = enumerate_loop fuel a dirname dlen omit max i retval.
Proof.
  induction fuel as [|fuel IH]; intros i retval; [done|].
  simpl.
  pose proof (entry_at_alike i) as R.
  destruct (entry_at a i) as [e| |], (entry_at a' i) as [e'| |];
    try done; try (exfalso; exact R).
  destruct R as (Hn & _ & Hs). rewrite Hn, Hs.
  destruct (omit && zip_entry_is_symlink e); [apply IH|].
  destruct (char_at (name e) _) as [c| |]; try done.
  destruct (c =? 0); [apply IH|].
  destruct (i + 1 >=? max); [done|].
  assert ((if 0 <? dlen then entry_at a' (i + 1) else Ret e') = Undef
          ∧ (if 0 <? dlen then entry_at a (i + 1) else Ret e) = Undef
          ∨ ∃ n n', (if 0 <? dlen then entry_at a' (i + 1) else Ret e') = Ret n'
                    ∧ (if 0 <? dlen then entry_at a (i + 1) else Ret e) = Ret n
                    ∧ name n' = name n) as [[-> ->]|(n & n' & -> & -> & Hnn)].
  { destruct (0 <? dlen); [|right; by exists e, e'].
    pose proof (entry_at_alike (i + 1)) as R.
    destruct (entry_at a (i + 1)) as [n| |], (entry_at a' (i + 1)) as [n'| |];
      try done; try (exfalso; exact R); try (by left).
    right. exists n, n'. by destruct R. }
  { done. }
  rewrite Hnn.
  destruct ((0 <? dlen) && negb _); [done|].
  destruct (strchr _ slash); [|apply IH].
  rewrite skip_children_alike.
  by destruct (skip_children fuel a dirname dlen (i + 1)).
Qed.

End alike_tables.

Section alike_archives.

Variables x y : ZIPinfo.
Hypothesis Hcount : entryCount y = entryCount x.
Hypothesis Halike : Forall2 alike (entries x) (entries y).

Lemma zip_find_entry_alike (path : string) :
  zip_find_entry y path = zip_find_entry x path.
Proof.
  unfold zip_find_entry. rewrite Hcount.
  by apply zip_find_entry_loop_alike.
Qed.

Lemma zip_find_start_of_dir_alike (path : string) (stop : bool) :
  zip_find_start_of_dir y path stop = zip_find_start_of_dir x path stop.
Proof.
  unfold zip_find_start_of_dir. rewrite Hcount.
  destruct (char_at path 0) as [first| |]; try done. cbn [mbind result_bind].
  destruct (first =? 0); [done|].
  destruct (if 0 <? u32 (strlen path) then _ else _) as [last| |]; try done.
  cbn [mbind result_bind]. by apply zip_find_start_of_dir_loop_alike.
Qed.

Lemma ZIP_exists_alike (path : string) : ZIP_exists y path = ZIP_exists x path.
Proof. unfold ZIP_exists. by rewrite zip_find_entry_alike. Qed.

Lemma ZIP_getLastModTime_alike (path : string) :
  ZIP_getLastModTime y path = ZIP_getLastModTime x path.
Proof.
  unfold ZIP_getLastModTime. rewrite zip_find_entry_alike.
  destruct (zip_find_entry x path) as [[m|]| |]; try done.
  cbn [mbind result_bind].
  pose proof (entry_at_alike _ _ Halike m) as R.
  destruct (entry_at (entries x) m) as [e| |],
           (entry_at (entries y) m) as [e'| |]; try done.
  destruct R as (_ & Ht & _). cbn. by rewrite Ht.
Qed.

Lemma ZIP_isSymLink_alike (path : string) :
  ZIP_isSymLink y path = ZIP_isSymLink x path.
Proof.
  unfold ZIP_isSymLink. rewrite zip_find_entry_alike.
  destruct (zip_find_entry x path) as [[m|]| |]; try done.
  cbn [mbind result_bind].
  pose proof (entry_at_alike _ _ Halike m) as R.
  destruct (entry_at (entries x) m) as [e| |],
           (entry_at (entries y) m) as [e'| |]; try done.
  destruct R as (_ & _ & Hs). cbn. by rewrite Hs.
Qed.

Lemma ZIP_enumerateFiles_alike (fuel : nat) (dirname : string)
    (omit : bool) :
  ZIP_enumerateFiles fuel y dirname omit = ZIP_enumerateFiles fuel x dirname omit.
Proof.
  unfold ZIP_enumerateFiles. rewrite Hcount, zip_find_start_of_dir_alike.
  destruct (char_at dirname _) as [last| |]; try done.
  destruct (zip_find_start_of_dir x dirname false) as [i| |]; try done.
  destruct (i =? -1); [done|]. by apply enumerate_loop_alike.
Qed.

End alike_archives.

Lemma steps_alike (a b : list ZIPentry) :
  Forall2 entry_step a b → Forall2 alike a b.
Proof. intros H. eapply Forall2_impl; [exact H|]. apply entry_step_alike. Qed.

(** X9. A resolution is not seen by the queries. Whatever entry
    [zip_resolve] was called on, and whether it succeeded or failed, every
    lookup finds what it found before, and [ZIP_exists],
    [ZIP_getLastModTime], [ZIP_isSymLink] and [ZIP_enumerateFiles], with
    and without symlinks, answer as before, for every path. *)
Theorem zip_resolve_keeps_answers (zl : zlib) (fuel : nat) (st : rstate)
    (i : Z) (r : bool) (st' : rstate) :
  zip_resolve zl fuel st i = Ret (r, st') →
  ∀ path : string,
    zip_find_entry (info st') path = zip_find_entry (info st) path
    ∧ ZIP_exists (info st') path = ZIP_exists (info st) path
    ∧ ZIP_getLastModTime (info st') path = ZIP_getLastModTime (info st) path
    ∧ ZIP_isSymLink (info st') path = ZIP_isSymLink (info st) path
    ∧ ∀ (n : nat) (omitSymLinks : bool),
        ZIP_enumerateFiles n (info st') path omitSymLinks
        = ZIP_enumerateFiles n (info st) path omitSymLinks.
Proof.
  intros H path. apply zip_resolve_steps in H as [[_ Hc] Hsteps].
  apply steps_alike in Hsteps.
  split; [by apply zip_find_entry_alike|].
  split; [by apply ZIP_exists_alike|].
  split; [by apply ZIP_getLastModTime_alike|].
  split; [by apply ZIP_isSymLink_alike|].
  intros n omit. by apply ZIP_enumerateFiles_alike.
Qed.

Lemma zip_resolve_keeps_answers_witness :
  ∃ st', zip_resolve no_zlib 4 chain_archive 0 = Ret (true, st')
    ∧ ∀ path : string,
        zip_find_entry (info st') path
        = zip_find_entry (info chain_archive) path
        ∧ ZIP_exists (info st') path = ZIP_exists (info chain_archive) path
        ∧ ZIP_getLastModTime (info st') path
          = ZIP_getLastModTime (info chain_archive) path
        ∧ ZIP_isSymLink (info st') path
          = ZIP_isSymLink (info chain_archive) path
        ∧ ∀ (n : nat) (omitSymLinks : bool),
            ZIP_enumerateFiles n (info st') path omitSymLinks
            = ZIP_enumerateFiles n (info chain_archive) path omitSymLinks.
Proof.
  destruct (zip_resolve no_zlib 4 chain_archive 0) as [[[|] st']| |] eqn:E;
    try (by vm_compute in E).
  exists st'. split; [reflexivity|].
  exact (zip_resolve_keeps_answers no_zlib 4 chain_archive 0 true st' E).
Defined.

(* ===================================================================== *)
(** * A successful resolution *)
(* ===================================================================== *)

Section resolution_success.
Context (zl : zlib).
Implicit Types (st : rstate) (i : Z) (e : ZIPentry).

Lemma zip_resolve_success fuel st i st' :
  zip_resolve zl fuel st i = Ret (true, st') →
  ∃ e', entry_at (entries (info st')) i = Ret e' ∧ resolved e' = ZIP_RESOLVED.
Proof.
  destruct fuel as [|fuel]; [done|].
  cbn [zip_resolve]. intros (e & He & H)%bind_Ret_inv.
  destruct (resolved e) eqn:Hr; cbn [bool_decide decide_rel] in H; try done.
  - rewrite !bool_decide_eq_false_2 in H by done.
    rewrite bool_decide_eq_true_2 in H by done.
    apply bind_Ret_inv in H as (st1 & _ & H).
    apply bind_Ret_inv in H as ([r2 st2] & _ & H).
    apply bind_Ret_inv in H as ([r3 st3] & _ & H).
    apply bind_Ret_inv in H as (e3 & _ & H).
    apply bind_Ret_inv in H as (st4 & H4 & [= -> <-]).
    rewrite bool_decide_eq_false_2, bool_decide_eq_true_2 in H4 by done.
    apply set_entry_lookup in H4 as (H4 & _). eauto.
  - rewrite !bool_decide_eq_false_2 in H by done.
    rewrite bool_decide_eq_true_2 in H by done.
    apply bind_Ret_inv in H as (st1 & _ & H).
    apply bind_Ret_inv in H as ([r2 st2] & _ & H).
    apply bind_Ret_inv in H as ([r3 st3] & _ & H).
    apply bind_Ret_inv in H as (e3 & _ & H).
    apply bind_Ret_inv in H as (st4 & H4 & [= -> <-]).
    rewrite bool_decide_eq_true_2 in H4 by done.
    apply set_entry_lookup in H4 as (H4 & _). eauto.
  - injection H as <-. eauto.
Qed.

(** A resolved entry resolves at once, and nothing is touched. *)
Lemma zip_resolve_resolved fuel st i e :
  entry_at (entries (info st)) i = Ret e → resolved e = ZIP_RESOLVED →
  zip_resolve zl (S fuel) st i = Ret (true, st).
Proof.
  intros He Hr. cbn [zip_resolve]. rewrite He. cbn [mbind result_bind].
  by rewrite Hr.
Qed.

(** An entry that is not unresolved is the same after any resolution. *)
Lemma zip_resolve_keeps_settled fuel st j r st' i e :
  zip_resolve zl fuel st j = Ret (r, st') →
  entry_at (entries (info st)) i = Ret e → ¬ unresolved e →
  entry_at (entries (info st')) i = Ret e.
Proof.
  intros [_ Hsteps]%zip_resolve_steps [Hi He]%entry_at_inv Hu.
  destruct (Forall2_lookup_l _ _ _ _ _ Hsteps He) as (e' & He' & Hstep).
  apply entry_at_lookup; [done|]. rewrite He'. f_equal.
  destruct Hstep as [->|[_ [[? _]|[? _]]]]; [done| |];
    exfalso; apply Hu; unfold unresolved; auto.
Qed.

End resolution_success.

(** X10. A successful resolution is pinned. When [zip_resolve] succeeds
    on an entry, whatever the table was, the entry is left as
    [ZIP_RESOLVED]. From then on no resolution of any entry changes it in
    any field, and every resolution of the entry itself, on whatever
    handle, succeeds at once and leaves the table, the handle and the
    error state untouched. *)
Theorem zip_resolve_success_is_pinned (zl : zlib) (fuel : nat) (st : rstate)
    (i : Z) (st' : rstate) :
  zip_resolve zl fuel st i = Ret (true, st') →
  ∃ e', entry_at (entries (info st')) i = Ret e'
    ∧ resolved e' = ZIP_RESOLVED
    ∧ (∀ fuel2 st2 j r2 st3,
         entry_at (entries (info st2)) i = Ret e' →
         zip_resolve zl fuel2 st2 j = Ret (r2, st3) →
         entry_at (entries (info st3)) i = Ret e')
    ∧ (∀ fuel2 st2,
         entry_at (entries (info st2)) i = Ret e' →
         zip_resolve zl (S fuel2) st2 i = Ret (true, st2)).
Proof.
  intros H. destruct (zip_resolve_success zl fuel st i st' H) as (e' & He' & Hr).
  exists e'. repeat split; try done.
  - intros fuel2 st2 j r2 st3 He2 Hres.
    apply (zip_resolve_keeps_settled zl fuel2 st2 j r2 st3 i e' Hres He2).
    unfold unresolved. rewrite Hr. by intros [?|?].
  - intros fuel2 st2 He2. by apply (zip_resolve_resolved zl fuel2 st2 i e').
Qed.

Lemma zip_resolve_success_is_pinned_witness :
  ∃ st', zip_resolve no_zlib 4 chain_archive 0 = Ret (true, st')
    ∧ ∃ e', entry_at (entries (info st')) 0 = Ret e'
        ∧ resolved e' = ZIP_RESOLVED
        ∧ (∀ fuel2 st2 j r2 st3,
             entry_at (entries (info st2)) 0 = Ret e' →
             zip_resolve no_zlib fuel2 st2 j = Ret (r2, st3) →
             entry_at (entries (info st3)) 0 = Ret e')
        ∧ (∀ fuel2 st2,
             entry_at (entries (info st2)) 0 = Ret e' →
             zip_resolve no_zlib (S fuel2) st2 0 = Ret (true, st2)).
Proof.
  destruct (zip_resolve no_zlib 4 chain_archive 0) as [[[|] st']| |] eqn:E;
    try (by vm_compute in E).
  exists st'. split; [reflexivity|].
  exact (zip_resolve_success_is_pinned no_zlib 4 chain_archive 0 st' E).
Defined.

(* ===================================================================== *)
(** * Link targets *)
(* ===================================================================== *)

Section link_targets.
Context (zl : zlib).
Implicit Types (st : rstate) (i : Z) (e : ZIPentry).

(** A store to an entry that is not resolved, hence is no target. *)
Lemma set_entry_targets i e e' st st' :
  targets_settled (entries (info st)) →
  entry_at (entries (info st)) i = Ret e → resolved e ≠ ZIP_RESOLVED →
  (∀ t, symlink e' = Some t →
        ∃ f, entries (info st) !! t = Some f
             ∧ resolved f = ZIP_RESOLVED ∧ symlink f = None) →
  set_entry i e' st = Ret st' →
  targets_settled (entries (info st')).
Proof.
  intros Hinv [Hi He]%entry_at_inv Hnr Hnew.
  unfold set_entry, store_entry. intros (a' & Ha & [= <-])%bind_Ret_inv.
  cbn [info entries]. destruct (_ || _); [done|]. injection Ha as <-.
  assert (Hkeep : ∀ t f, entries (info st) !! t = Some f →
            resolved f = ZIP_RESOLVED →
            <[Z.to_nat i := e']> (entries (info st)) !! t = Some f).
  { intros t f Hf Hr. rewrite list_lookup_insert_ne; [done|].
    intros <-. rewrite He in Hf. injection Hf as <-. done. }
  intros j x t Hx Hl.
  destruct (decide (j = Z.to_nat i)) as [->|Hne].
  - rewrite list_lookup_insert_eq in Hx by (by eapply lookup_lt_Some).
    injection Hx as <-.
    destruct (Hnew t Hl) as (f & Hf & Hr & Hs). eauto.
  - rewrite list_lookup_insert_ne in Hx by done.
    destruct (Hinv j x t Hx Hl) as (f & Hf & Hr & Hs). eauto.
Qed.

(** The same, for a store that keeps the link target of the entry. *)
Lemma set_entry_targets_same i e e' st st' :
  targets_settled (entries (info st)) →
  entry_at (entries (info st)) i = Ret e → resolved e ≠ ZIP_RESOLVED →
  symlink e' = symlink e →
  set_entry i e' st = Ret st' →
  targets_settled (entries (info st')).
Proof.
  intros Hinv He Hnr Hs. apply (set_entry_targets i e e'); try done.
  intros t Ht. rewrite Hs in Ht.
  apply entry_at_inv in He as [_ He]. by apply (Hinv _ _ _ He).
Qed.

Lemma zip_parse_local_targets st i e r st' :
  targets_settled (entries (info st)) →
  entry_at (entries (info st)) i = Ret e → resolved e ≠ ZIP_RESOLVED →
  zip_parse_local st i = Ret (r, st') →
  targets_settled (entries (info st')).
Proof.
  intros Hinv He Hnr. unfold zip_parse_local. rewrite He.
  cbn [mbind result_bind].
  destruct (parse_local_header e (src st)) as [ofs h|o].
  - intros (st1 & Hset & [= _ <-])%bind_Ret_inv.
    by apply (set_entry_targets_same i e (with_offset ofs e) (set_src h st)).
  - intros [= _ <-]. by rewrite ?set_error_info.
Qed.

Section with_resolve.
Context (resolve : rstate → Z → result (bool * rstate)).
Hypothesis resolve_targets : ∀ st i r st',
  targets_settled (entries (info st)) →
  resolve st i = Ret (r, st') → targets_settled (entries (info st')).
Hypothesis resolve_success : ∀ st i st',
  resolve st i = Ret (true, st') →
  ∃ e', entry_at (entries (info st')) i = Ret e' ∧ resolved e' = ZIP_RESOLVED.
Hypothesis resolve_moves : ∀ st i r st',
  resolve st i = Ret (r, st') → Forall2 resolve_move (states st) (states st').

(** The entry returned is resolved and is not a link. *)
Lemma zip_follow_symlink_target fuel st path t st' :
  targets_settled (entries (info st)) →
  zip_follow_symlink resolve fuel st path = Ret (t, st') →
  targets_settled (entries (info st'))
  ∧ ∀ k, t = Some k →
         ∃ f, entries (info st') !! k = Some f
              ∧ resolved f = ZIP_RESOLVED ∧ symlink f = None.
Proof.
  intros Hinv. unfold zip_follow_symlink. intros (p & _ & H)%bind_Ret_inv.
  apply bind_Ret_inv in H as ([k|] & _ & H).
  - apply bind_Ret_inv in H as ([ok st1] & Hres & H).
    pose proof (resolve_targets _ _ _ _ Hinv Hres) as Hinv1.
    destruct ok.
    + apply bind_Ret_inv in H as (e & He & H).
      destruct (resolve_success _ _ _ Hres) as (e' & He' & Hr).
      rewrite He in He'. injection He' as <-.
      apply entry_at_inv in He as [_ He].
      destruct (symlink e) as [target|] eqn:Hs; injection H as <- <-.
      * split; [done|]. intros ? [= <-]. by apply (Hinv1 _ _ _ He).
      * split; [done|]. intros ? [= <-]. eauto.
    + injection H as <- <-. done.
  - injection H as <- <-. by rewrite ?set_error_info.
Qed.

Lemma zip_resolve_symlink_targets fuel st i e r st' :
  targets_settled (entries (info st)) →
  entry_at (entries (info st)) i = Ret e → resolved e = ZIP_RESOLVING →
  zip_resolve_symlink zl resolve fuel st i = Ret (r, st') →
  targets_settled (entries (info st')).
Proof.
  intros Hinv He Hing. unfold zip_resolve_symlink. rewrite He.
  cbn [mbind result_bind].
  destruct (__PHYSFS_platformSeek _ _) as [h|].
  2:{ intros [= _ <-]. by rewrite ?set_error_info. }
  intros ([[link h'] o] & _ & H)%bind_Ret_inv.
  apply bind_Ret_inv in H as (st1 & Hst1 & H).
  apply bind_Ret_inv in H as (e1 & _ & [= _ <-]).
  destruct link as [bytes|].
  - apply bind_Ret_inv in Hst1 as ([t st2] & Hfollow & H).
    apply bind_Ret_inv in H as (e2 & He2 & Hset).
    pose proof (zip_follow_symlink_states resolve resolve_moves _ _ _ _ _
                  Hfollow) as Hmoves.
    apply zip_follow_symlink_target in Hfollow as [Hinv2 Ht];
      [|by rewrite ?set_error_info].
    rewrite states_set_error in Hmoves.
    change (states (set_src h' st)) with (states st) in Hmoves.
    pose proof (entry_at_states _ _ _ He) as Hi.
    destruct (Forall2_lookup_l _ _ _ _ _ Hmoves Hi) as (r' & Hr' & Hmove).
    rewrite (entry_at_states _ _ _ He2) in Hr'. injection Hr' as <-.
    apply (set_entry_targets i e2 (with_symlink t e2) st2 st1);
      [done|done| |by intros k Hk; apply Ht|done].
    rewrite Hing in Hmove.
    destruct Hmove as [->|[[? _]|[? _]]]; done.
  - injection Hst1 as <-. by rewrite ?set_error_info.
Qed.

End with_resolve.

(** Every resolution keeps the link targets of the table settled. *)
Lemma zip_resolve_targets fuel :
  ∀ st i r st',
    targets_settled (entries (info st)) →
    zip_resolve zl fuel st i = Ret (r, st') →
    targets_settled (entries (info st')).
Proof.
  induction fuel as [|fuel IH]; intros st i r st' Hinv; [done|].
  cbn [zip_resolve]. intros (e & He & H)%bind_Ret_inv.
  destruct (resolved e) eqn:Hr; cbn [bool_decide decide_rel] in H;
    try (injection H as _ <-; by rewrite ?set_error_info).
  - (* an unresolved file *)
    rewrite !bool_decide_eq_false_2 in H by done.
    rewrite bool_decide_eq_true_2 in H by done.
    apply bind_Ret_inv in H as (st1 & H1 & H).
    apply bind_Ret_inv in H as ([r2 st2] & H2 & H).
    apply bind_Ret_inv in H as ([r3 st3] & H3 & H).
    rewrite andb_false_r in H3. injection H3 as <- <-.
    apply bind_Ret_inv in H as (e3 & He3 & H).
    apply bind_Ret_inv in H as (st4 & H4 & [= _ <-]).
    rewrite bool_decide_eq_false_2, bool_decide_eq_true_2 in H4 by done.
    pose proof (set_entry_lookup _ _ _ _ H1) as (E1 & _).
    destruct (zip_parse_local_entry _ _ _ _ _ E1 H2) as (e2 & E2 & _ & Hs2).
    rewrite E2 in He3. injection He3 as <-.
    assert (Hnr : resolved e ≠ ZIP_RESOLVED) by (by rewrite Hr).
    pose proof (set_entry_targets_same i e (with_resolved ZIP_RESOLVING e)
                  st st1 Hinv He Hnr eq_refl H1)
      as Hinv1.
    assert (Hnr1 : resolved (with_resolved ZIP_RESOLVING e) ≠ ZIP_RESOLVED)
      by done.
    pose proof (zip_parse_local_targets st1 i _ r2 st2 Hinv1 E1 Hnr1 H2)
      as Hinv2.
    assert (Hnr2 : resolved e2 ≠ ZIP_RESOLVED) by (by rewrite Hs2).
    exact (set_entry_targets_same i e2
             (with_resolved (if r2 then ZIP_RESOLVED else ZIP_BROKEN_FILE) e2)
             st2 st4 Hinv2 E2 Hnr2 eq_refl H4).
  - (* an unresolved symlink *)
    rewrite !bool_decide_eq_false_2 in H by done.
    rewrite bool_decide_eq_true_2 in H by done.
    apply bind_Ret_inv in H as (st1 & H1 & H).
    apply bind_Ret_inv in H as ([r2 st2] & H2 & H).
    apply bind_Ret_inv in H as ([r3 st3] & H3 & H).
    apply bind_Ret_inv in H as (e3 & He3 & H).
    apply bind_Ret_inv in H as (st4 & H4 & [= _ <-]).
    rewrite bool_decide_eq_true_2 in H4 by done.
    pose proof (set_entry_lookup _ _ _ _ H1) as (E1 & _).
    destruct (zip_parse_local_entry _ _ _ _ _ E1 H2) as (e2 & E2 & _ & Hs2).
    assert (Hnr : resolved e ≠ ZIP_RESOLVED) by (by rewrite Hr).
    pose proof (set_entry_targets_same i e (with_resolved ZIP_RESOLVING e)
                  st st1 Hinv He Hnr eq_refl H1)
      as Hinv1.
    assert (Hnr1 : resolved (with_resolved ZIP_RESOLVING e) ≠ ZIP_RESOLVED)
      by done.
    pose proof (zip_parse_local_targets st1 i _ r2 st2 Hinv1 E1 Hnr1 H2)
      as Hinv2.
    assert (targets_settled (entries (info st3))
            ∧ resolved e3 = ZIP_RESOLVING) as [Hinv3 Hr3].
    { destruct (r2 && _).
      - split.
        + apply (zip_resolve_symlink_targets (zip_resolve zl fuel) IH
                   (zip_resolve_success zl fuel)
                   (zip_resolve_states zl fuel) fuel st2 i e2 r3 st3);
            done.
        + apply (zip_resolve_symlink_states zl (zip_resolve zl fuel)
                   (zip_resolve_states zl fuel)) in H3.
          pose proof (entry_at_states _ _ _ E2) as Hi.
          destruct (Forall2_lookup_l _ _ _ _ _ H3 Hi) as (r' & Hr' & Hmove).
          rewrite (entry_at_states _ _ _ He3) in Hr'. injection Hr' as <-.
          rewrite Hs2 in Hmove. cbn in Hmove.
          destruct Hmove as [->|[[? _]|[? _]]]; done.
      - injection H3 as _ <-. split; [done|].
        rewrite E2 in He3. by injection He3 as <-. }
    assert (Hnr3 : resolved e3 ≠ ZIP_RESOLVED) by (by rewrite Hr3).
    exact (set_entry_targets_same i e3
             (with_resolved (if r3 then ZIP_RESOLVED else ZIP_BROKEN_SYMLINK)
                e3) st3 st4 Hinv3 He3 Hnr3 eq_refl H4).
Qed.

End link_targets.

(** A table in which no link target is recorded, as after the mount. *)
Lemma no_targets_settled (a : list ZIPentry) :
  Forall (λ e, symlink e = None) a → targets_settled a.
Proof.
  intros Hnone j e t Hj Hl. rewrite Forall_forall in Hnone.
  rewrite (Hnone e) in Hl; [done|]. apply list_elem_of_lookup. eauto.
Qed.

(** X11. The link targets stay settled. If every link target recorded in
    the table is an entry of the table that is resolved and is not a link
    itself, as in a table fresh from the mount, where no target is
    recorded, then the same holds after [zip_resolve], whatever entry it
    was called on and however it ended: a chain of links is recorded as a
    link to the file at its end, never as a link to a link, to a broken or
    unresolved entry, or to an entry outside the table. *)
Theorem zip_resolve_keeps_targets_settled (zl : zlib) (fuel : nat)
    (st : rstate) (i : Z) (r : bool) (st' : rstate) :
  targets_settled (entries (info st)) →
  zip_resolve zl fuel st i = Ret (r, st') →
  targets_settled (entries (info st')).
Proof. apply zip_resolve_targets. Qed.

Lemma zip_resolve_keeps_targets_settled_witness :
  ∃ st', targets_settled (entries (info chain_archive))
    ∧ zip_resolve no_zlib 4 chain_archive 0 = Ret (true, st')
    ∧ targets_settled (entries (info st')).
Proof.
  destruct (zip_resolve no_zlib 4 chain_archive 0) as [[[|] st']| |] eqn:E;
    try (by vm_compute in E).
  exists st'.
  assert (H : targets_settled (entries (info chain_archive))).
  { apply no_targets_settled. repeat constructor. }
  split; [exact H|]. split; [reflexivity|].
  exact (zip_resolve_keeps_targets_settled no_zlib 4 chain_archive 0 true st'
           H E).
Defined.

(* ===================================================================== *)
(** * The handle of an opened file *)
(* ===================================================================== *)

Section file_content.

Lemma keeps_content_bind {A B} (m : io A) (k : A → io B) :
  keeps_content m → (∀ a, keeps_content (k a)) → keeps_content (m ≫= k).
Proof.
  intros Hm Hk h. unfold mbind, io_bind.
  specialize (Hm h). destruct (m h) as [a h1|e h1]; cbn in Hm.
  - by rewrite Hk.
  - done.
Qed.

Lemma keeps_content_ret {A} (a : A) : keeps_content (mret a).
Proof. by intros h. Qed.

Lemma platformRead_content h size count :
  content (__PHYSFS_platformRead h size count).2 = content h.
Proof. done. Qed.

Lemma platformSeek_content h pos h' :
  __PHYSFS_platformSeek h pos = Some h' → content h' = content h ∧ cursor h' = pos.
Proof.
  unfold __PHYSFS_platformSeek. destruct (0 <=? pos); [|done].
  by intros [= <-].
Qed.

Lemma keeps_content_get32 : keeps_content get32.
Proof.
  intros h. unfold get32, readui32.
  pose proof (platformRead_content h 4 1) as Hc.
  destruct (__PHYSFS_platformRead h 4 1) as [[n bytes] h1].
  by destruct (n =? 1).
Qed.

Lemma keeps_content_get16 : keeps_content get16.
Proof.
  intros h. unfold get16, readui16.
  pose proof (platformRead_content h 2 1) as Hc.
  destruct (__PHYSFS_platformRead h 2 1) as [[n bytes] h1].
  by destruct (n =? 1).
Qed.

Lemma keeps_content_bail_if c e : keeps_content (bail_if c e).
Proof. intros h. unfold bail_if. by destruct c. Qed.

Lemma keeps_content_seek_to pos : keeps_content (seek_to pos).
Proof.
  intros h. unfold seek_to.
  destruct (__PHYSFS_platformSeek h pos) as [h1|] eqn:E; [|done].
  by apply platformSeek_content in E as [? _].
Qed.

Lemma keeps_content_parse_local_header e : keeps_content (parse_local_header e).
Proof.
  unfold parse_local_header.
  repeat (apply keeps_content_bind;
          [first [apply keeps_content_get32 | apply keeps_content_get16
                 | apply keeps_content_bail_if | apply keeps_content_seek_to]
          |intros ?]).
  apply keeps_content_ret.
Qed.

Context (zl : zlib).
Implicit Types (st : rstate) (i : Z) (e : ZIPentry).

Lemma set_entry_src i e st st' :
  set_entry i e st = Ret st' → src st' = src st.
Proof. by intros (_ & _ & ?)%set_entry_lookup. Qed.

Lemma set_error_src o st : src (set_error o st) = src st.
Proof. by destruct o. Qed.

Lemma zip_parse_local_content st i r st' :
  zip_parse_local st i = Ret (r, st') → content (src st') = content (src st).
Proof.
  unfold zip_parse_local. intros (e & He & H)%bind_Ret_inv.
  pose proof (keeps_content_parse_local_header e (src st)) as Hkeep.
  destruct (parse_local_header e (src st)) as [ofs h|o h];
    cbn [handle_after] in Hkeep.
  - apply bind_Ret_inv in H as (st1 & Hset & [= _ <-]).
    by rewrite (set_entry_src _ _ _ _ Hset).
  - injection H as _ <-. by rewrite set_error_src.
Qed.

Lemma read_link_content e h link h' o :
  read_link zl e h = Ret (link, h', o) → content h' = content h.
Proof.
  unfold read_link.
  destruct (compression_method e =? COMPMETH_NONE).
  - pose proof (platformRead_content h (uncompressed_size e) 1) as Hc.
    destruct (__PHYSFS_platformRead h (uncompressed_size e) 1)
      as [[n bytes] h1].
    by intros [= _ <- _].
  - pose proof (platformRead_content h (compressed_size e) 1) as Hc.
    destruct (__PHYSFS_platformRead h (compressed_size e) 1)
      as [[n bytes] h1].
    destruct (n =? 1); [|by intros [= _ <- _]].
    destruct (inflateInit2 zl) as [stream|]; [|by intros [= _ <- _]].
    destruct (inflate zl stream bytes (uncompressed_size e) Z_FINISH)
      as [[[rc ?] produced] ?].
    destruct ((rc =? Z_OK) || (rc =? Z_STREAM_END)); [|by intros [= _ <- _]].
    destruct (_ =? _); [|done]. by intros [= _ <- _].
Qed.

Section with_resolve.
Context (resolve : rstate → Z → result (bool * rstate)).
Hypothesis resolve_content : ∀ st i r st',
  resolve st i = Ret (r, st') → content (src st') = content (src st).

Lemma zip_follow_symlink_content fuel st path t st' :
  zip_follow_symlink resolve fuel st path = Ret (t, st') →
  content (src st') = content (src st).
Proof.
  unfold zip_follow_symlink. intros (p & _ & H)%bind_Ret_inv.
  apply bind_Ret_inv in H as ([k|] & _ & H).
  - apply bind_Ret_inv in H as ([ok st1] & Hres & H).
    apply resolve_content in Hres.
    destruct ok.
    + apply bind_Ret_inv in H as (e & _ & H).
      by destruct (symlink e); injection H as _ <-.
    + by injection H as _ <-.
  - injection H as _ <-. by rewrite ?set_error_src.
Qed.

Lemma zip_resolve_symlink_content fuel st i r st' :
  zip_resolve_symlink zl resolve fuel st i = Ret (r, st') →
  content (src st') = content (src st).
Proof.
  unfold zip_resolve_symlink. intros (e & _ & H)%bind_Ret_inv.
  destruct (__PHYSFS_platformSeek _ _) as [h|] eqn:Hseek.
  2:{ injection H as _ <-. by rewrite ?set_error_src. }
  apply platformSeek_content in Hseek as [Hseek _].
  apply bind_Ret_inv in H as ([[link h'] o] & Hread & H).
  apply read_link_content in Hread.
  apply bind_Ret_inv in H as (st1 & Hst1 & H).
  apply bind_Ret_inv in H as (e1 & _ & [= _ <-]).
  destruct link as [bytes|].
  - apply bind_Ret_inv in Hst1 as ([t st2] & Hfollow & H).
    apply bind_Ret_inv in H as (e2 & He2 & Hset).
    apply zip_follow_symlink_content in Hfollow.
    rewrite set_error_src in Hfollow. cbn [set_src src] in Hfollow.
    rewrite (set_entry_src _ _ _ _ Hset). congruence.
  - injection Hst1 as <-. rewrite set_error_src. cbn [set_src src].
    congruence.
Qed.

End with_resolve.

(** A resolution moves the handle, and leaves the bytes of the file. *)
Lemma zip_resolve_content fuel :
  ∀ st i r st',
    zip_resolve zl fuel st i = Ret (r, st') →
    content (src st') = content (src st).
Proof.
  induction fuel as [|fuel IH]; intros st i r st'; [done|].
  cbn [zip_resolve]. intros (e & He & H)%bind_Ret_inv.
  destruct (bool_decide (resolved e = ZIP_BROKEN_FILE));
    [by injection H as _ <-|].
  destruct (bool_decide (resolved e = ZIP_BROKEN_SYMLINK));
    [by injection H as _ <-|].
  destruct (bool_decide (resolved e = ZIP_RESOLVING));
    [by injection H as _ <-|].
  destruct (bool_decide (resolved e ≠ ZIP_RESOLVED));
    [|by injection H as _ <-].
  apply bind_Ret_inv in H as (st1 & H1 & H).
  apply bind_Ret_inv in H as ([r2 st2] & H2 & H).
  apply bind_Ret_inv in H as ([r3 st3] & H3 & H).
  apply bind_Ret_inv in H as (e3 & He3 & H).
  apply bind_Ret_inv in H as (st4 & H4 & [= _ <-]).
  apply set_entry_src in H1. apply zip_parse_local_content in H2.
  assert (content (src st3) = content (src st2)) as H23.
  { destruct (r2 && _).
    - by apply (zip_resolve_symlink_content (zip_resolve zl fuel) IH) in H3.
    - by injection H3 as _ <-. }
  assert (src st4 = src st3) as H34.
  { destruct (bool_decide (resolved e = ZIP_UNRESOLVED_SYMLINK));
      [by apply set_entry_src in H4|].
    destruct (bool_decide (resolved e = ZIP_UNRESOLVED_FILE));
      [by apply set_entry_src in H4|by injection H4 as <-]. }
  congruence.
Qed.

End file_content.

(** An index that the search returns carries the name looked for,
    whatever the table and the bounds. *)
Lemma zip_find_entry_loop_found (a : list ZIPentry) (path : string) :
  ∀ fuel lo hi m,
    zip_find_entry_loop fuel a path lo hi = Ret (Some m) →
    ∃ e, entry_at a m = Ret e ∧ strcmp path (name e) = 0.
Proof.
  induction fuel as [|fuel IH]; intros lo hi m; [done|].
  cbn [zip_find_entry_loop]. destruct (lo <=? hi); [|done].
  intros (e & He & H)%bind_Ret_inv.
  destruct (Z.eqb_spec (strcmp path (name e)) 0) as [Heq|].
  { injection H as <-. eauto. }
  destruct (_ >? 0); by apply IH in H.
Qed.

(** X12. What [ZIP_openRead] hands out. On a table whose link targets are
    settled, as after the mount and after every resolution, an open that
    succeeds yields a file on an entry of the table that is resolved and
    is not a link. It is the entry that [zip_find_entry] finds for the
    file name, which compares equal to that name, if that entry records
    no link target, and the entry at the link target that it records
    otherwise: the file at the end of its chain of links. The handle of
    the file reads the bytes of the archive and stands at the data offset
    of that entry; the file position is 0 and nothing is buffered; a
    compressed entry has its zlib stream set up. The link targets of the
    table are still settled. *)
Theorem ZIP_openRead_opens_resolved_file (zl : zlib) (fuel : nat)
    (file : list ascii) (st : rstate) (filename : string)
    (f : ZIPfileinfo zl) (st' : rstate) :
  targets_settled (entries (info st)) →
  ZIP_openRead zl fuel file st filename = Ret (Some f, st') →
  targets_settled (entries (info st'))
  ∧ (∃ k, entries (info st') !! k = Some (fi_entry f))
  ∧ (∃ i e, zip_find_entry (info st) filename = Ret (Some i)
            ∧ entry_at (entries (info st')) i = Ret e
            ∧ strcmp filename (name e) = 0
            ∧ match symlink e with
              | None => fi_entry f = e
              | Some t => entries (info st') !! t = Some (fi_entry f)
              end)
  ∧ resolved (fi_entry f) = ZIP_RESOLVED
  ∧ symlink (fi_entry f) = None
  ∧ content (fi_handle f) = file
  ∧ cursor (fi_handle f) = offset (fi_entry f)
  ∧ ZIP_tell f = 0
  ∧ compressed_position f = 0
  ∧ fi_input f = []
  ∧ (compression_method (fi_entry f) ≠ COMPMETH_NONE → is_Some (fi_stream f)).
Proof.
  intros Hinv. unfold ZIP_openRead.
  intros ([i|] & Hfind & H)%bind_Ret_inv; [|done].
  apply bind_Ret_inv in H as ([h st1] & Hget & H).
  destruct h as [h|]; [|done].
  unfold zip_get_file_handle in Hget.
  apply bind_Ret_inv in Hget as ([ok st2] & Hres & Hget).
  destruct ok; [|done].
  apply bind_Ret_inv in Hget as (e & He & Hget).
  apply bind_Ret_inv in Hget as (ofs & Hofs & Hget).
  destruct (__PHYSFS_platformSeek (src st2) ofs) as [h2|] eqn:Hseek; [|done].
  injection Hget as -> ->.
  apply platformSeek_content in Hseek as [Hcontent Hcursor].
  rewrite (zip_resolve_content zl fuel _ _ _ _ Hres) in Hcontent.
  cbn [set_src src __PHYSFS_platformOpenRead content] in Hcontent.
  pose proof (zip_resolve_targets zl fuel
                (set_src (__PHYSFS_platformOpenRead file) st) i true st1
                Hinv Hres) as Hinv1.
  destruct (zip_resolve_success zl fuel _ _ _ Hres) as (e' & He' & Hr).
  rewrite He in He'. injection He' as <-.
  rewrite He in H. cbn [mbind result_bind] in H.
  (* the entry found keeps its name through the resolution *)
  assert (strcmp filename (name e) = 0) as Hname.
  { unfold zip_find_entry in Hfind.
    apply zip_find_entry_loop_found in Hfind as (e0 & He0 & Hcmp).
    destruct (zip_resolve_steps zl fuel _ _ _ _ Hres) as [_ Hsteps].
    cbn [set_src info] in Hsteps.
    apply entry_at_inv in He0 as [_ He0]. apply entry_at_inv in He as [_ He].
    destruct (Forall2_lookup_l _ _ _ _ _ Hsteps He0) as (e1 & He1 & Hstep).
    rewrite He in He1. injection He1 as <-.
    destruct Hstep as [->|[(Hn & _) _]]; [done|]. by rewrite Hn. }
  assert (∃ g k, entries (info st1) !! k = Some g
                 ∧ resolved g = ZIP_RESOLVED ∧ symlink g = None
                 ∧ ofs = offset g
                 ∧ match symlink e with
                   | None => g = e
                   | Some t => entries (info st1) !! t = Some g
                   end
                 ∧ match symlink e with
                   | Some t => entry_at (entries (info st1)) (Z.of_nat t)
                   | None => Ret e
                   end = Ret g)
    as (g & k & Hk & Hrg & Hsg & Hog & Hlink & Hg).
  { pose proof He as Hat. apply entry_at_inv in He as [_ He].
    destruct (symlink e) as [t|] eqn:Hs.
    - destruct (Hinv1 _ _ _ He Hs) as (g & Hg & Hrg & Hsg).
      assert (entry_at (entries (info st1)) (Z.of_nat t) = Ret g) as Hat'
        by (apply entry_at_lookup; [lia|by rewrite Nat2Z.id]).
      rewrite Hat' in Hofs. injection Hofs as <-.
      exists g, t. done.
    - injection Hofs as <-. exists e, (Z.to_nat i). done. }
  rewrite Hg in H. cbn [mbind result_bind] in H.
  assert (∃ i e, zip_find_entry (info st) filename = Ret (Some i)
                 ∧ entry_at (entries (info st1)) i = Ret e
                 ∧ strcmp filename (name e) = 0
                 ∧ match symlink e with
                   | None => g = e
                   | Some t => entries (info st1) !! t = Some g
                   end) as Hnamed by (exists i, e; done).
  destruct (compression_method g =? COMPMETH_NONE) eqn:Hm.
  - injection H as <- <-. cbn. apply Z.eqb_eq in Hm.
    split_and!; eauto; try congruence.
  - destruct (inflateInit2 zl) as [s|]; [|done].
    injection H as <- <-. cbn. split_and!; eauto; try congruence.
Qed.

Lemma ZIP_openRead_opens_resolved_file_witness :
  ∃ f st',
    targets_settled (entries (info chain_archive))
    ∧ ZIP_openRead no_zlib 4 chain_file chain_archive "link1"
      = Ret (Some f, st')
    ∧ targets_settled (entries (info st'))
    ∧ (∃ k, entries (info st') !! k = Some (fi_entry f))
    ∧ (∃ i e, zip_find_entry (info chain_archive) "link1" = Ret (Some i)
              ∧ entry_at (entries (info st')) i = Ret e
              ∧ strcmp "link1" (name e) = 0
              ∧ match symlink e with
                | None => fi_entry f = e
                | Some t => entries (info st') !! t = Some (fi_entry f)
                end)
    ∧ resolved (fi_entry f) = ZIP_RESOLVED
    ∧ symlink (fi_entry f) = None
    ∧ content (fi_handle f) = chain_file
    ∧ cursor (fi_handle f) = offset (fi_entry f)
    ∧ ZIP_tell f = 0
    ∧ compressed_position f = 0
    ∧ fi_input f = []
    ∧ (compression_method (fi_entry f) ≠ COMPMETH_NONE
       → is_Some (fi_stream f)).
Proof.
  destruct (ZIP_openRead no_zlib 4 chain_file chain_archive "link1")
    as [[[f|] st']| |] eqn:E; try (by vm_compute in E).
  exists f, st'.
  assert (H : targets_settled (entries (info chain_archive))).
  { apply no_targets_settled. repeat constructor. }
  split; [exact H|]. split; [reflexivity|].
  exact (ZIP_openRead_opens_resolved_file no_zlib 4 chain_file chain_archive
           "link1" f st' H E).
Defined.

(* ===================================================================== *)
(** * Reading the records of the archive *)
(* ===================================================================== *)

Lemma read_block_inv (size : Z) (h : handle) (bytes : list ascii)
    (h' : handle) :
  read_block size h = Go bytes h' →
  0 < size
  ∧ bytes = take (Z.to_nat size) (drop (Z.to_nat (cursor h)) (content h))
  ∧ h' = advance h size.
Proof.
  unfold read_block.
  destruct (__PHYSFS_platformRead h size 1) as [[n bs] h1] eqn:Hr.
  destruct (Z.eqb_spec n 1) as [->|]; [|done].
  assert (0 < size) as Hs.
  { unfold __PHYSFS_platformRead in Hr. injection Hr as Hn _ _.
    destruct (Z.lt_trichotomy size 0) as [Hneg|[->|Hpos]]; [| |done].
    - assert (Z.max 0 (Z.of_nat (length (content h)) - cursor h) / size
              <= 0).
      { rewrite <- Z.div_opp_opp by lia.
        apply Z.div_le_upper_bound; lia. }
      lia.
    - rewrite Z.div_0_r in Hn. lia. }
  rewrite platformRead_one in Hr by (done || by rewrite Hr).
  injection Hr as <- <-. by intros [= <- <-].
Qed.

Lemma seek_to_inv (pos : Z) (h h' : handle) :
  seek_to pos h = Go tt h' →
  0 <= pos
  ∧ h' = {| content := content h; cursor := pos;
            length_error := length_error h |}.
Proof.
  unfold seek_to, __PHYSFS_platformSeek.
  destruct (Z.leb_spec 0 pos); [|done]. by intros [= <-].
Qed.

Lemma zip_load_entry_record (mktime : tm → Z) (fixup : Z) (h : handle)
    (e : ZIPentry) (h' : handle) :
  zip_load_entry mktime fixup h = Go e h' →
  field h 0 4 = ZIP_CENTRAL_DIR_SIG
  ∧ version e = field h 4 2
  ∧ version_needed e = field h 6 2
  ∧ compression_method e = field h 10 2
  ∧ last_mod_time e = zip_dos_time_to_physfs_time mktime (field h 12 4)
  ∧ crc e = field h 16 4
  ∧ compressed_size e = field h 20 4
  ∧ uncompressed_size e = field h 24 4
  ∧ offset e = u32 (field h 42 4 + fixup)
  ∧ symlink e = None
  ∧ name e
    = c_string
        (zip_convert_dos_path e
           (take (Z.to_nat (field h 28 2))
              (drop (Z.to_nat (cursor h + 46)) (content h)) ++ [NUL]))
  ∧ content h' = content h
  ∧ cursor h' = cursor h + 46 + field h 28 2 + field h 30 2 + field h 32 2.
Proof.
  unfold zip_load_entry. cbv [mbind io_bind mret io_ret]. intros H.
  next_read H.
  unfold bail_if at 1 in H.
  destruct (Z.eqb_spec (field h 0 4) ZIP_CENTRAL_DIR_SIG) as [Hsig|];
    cbn [negb] in H; [|discriminate H].
  do 15 (next_read H).
  destruct (read_block _ _) as [bytes h1|] eqn:Hread; [|discriminate H].
  apply read_block_inv in Hread as (_ & -> & ->).
  unfold tell in H.
  destruct (seek_to _ _) as [[] h2|] eqn:Hseek; [|discriminate H].
  apply seek_to_inv in Hseek as (_ & ->).
  injection H as <- <-.
  cbn [version version_needed compression_method last_mod_time crc
       compressed_size uncompressed_size offset symlink name content cursor].
  rewrite ?advance_advance, ?field_advance. cbn [Z.add Pos.add Pos.succ].
  unfold __PHYSFS_platformTell, advance, zip_convert_dos_path.
  cbn [content cursor version].
  rewrite ?advance_advance, ?field_advance.
  repeat match goal with
         | |- context [field h ?k ?w] =>
             progress (let k' := eval vm_compute in k in change k with k')
         end.
  repeat split; try done; [|lia].
  match goal with
  | |- context [drop (Z.to_nat ?x)] =>
      replace x with (cursor h + 46) by lia
  end.
  done.
Qed.

(** X13. What [zip_load_entry] makes of a central-directory record. When
    it succeeds, the record under the cursor starts with the signature
    [PK\001\002], and every field of the entry is decoded from its place
    in the record: version made by at byte 4, version needed at 6, method
    at 10, DOS time at 12, CRC at 16, sizes at 20 and 24, and the offset
    of the local header at 42, moved by the fix-up modulo 2^32. No link
    target is recorded. The name is the bytes behind the 46 bytes of the
    fixed part, up to the first NUL, with the backslashes turned for an
    entry made on FAT. The cursor is left behind the name, the extra field
    and the comment: on the next record. *)
Theorem zip_load_entry_reads_record (mktime : tm → Z) (fixup : Z)
    (h : handle) (e : ZIPentry) (h' : handle) :
  zip_load_entry mktime fixup h = Go e h' →
  field h 0 4 = ZIP_CENTRAL_DIR_SIG
  ∧ version e = field h 4 2
  ∧ version_needed e = field h 6 2
  ∧ compression_method e = field h 10 2
  ∧ last_mod_time e = zip_dos_time_to_physfs_time mktime (field h 12 4)
  ∧ crc e = field h 16 4
  ∧ compressed_size e = field h 20 4
  ∧ uncompressed_size e = field h 24 4
  ∧ offset e = u32 (field h 42 4 + fixup)
  ∧ symlink e = None
  ∧ name e
    = c_string
        (zip_convert_dos_path e
           (take (Z.to_nat (field h 28 2))
              (drop (Z.to_nat (cursor h + 46)) (content h)) ++ [NUL]))
  ∧ content h' = content h
  ∧ cursor h' = cursor h + 46 + field h 28 2 + field h 30 2 + field h 32 2.
Proof. apply zip_load_entry_record. Qed.

Lemma zip_load_entry_reads_record_witness :
  let h := __PHYSFS_platformOpenRead
             (central_record 0x0314 20 0 0 1 1 "link" 0xA1FF0000 7) in
  ∃ e h', zip_load_entry (λ _, 0) 10 h = Go e h'
    ∧ field h 0 4 = ZIP_CENTRAL_DIR_SIG
    ∧ version e = field h 4 2
    ∧ version_needed e = field h 6 2
    ∧ compression_method e = field h 10 2
    ∧ last_mod_time e = zip_dos_time_to_physfs_time (λ _, 0) (field h 12 4)
    ∧ crc e = field h 16 4
    ∧ compressed_size e = field h 20 4
    ∧ uncompressed_size e = field h 24 4
    ∧ offset e = u32 (field h 42 4 + 10)
    ∧ symlink e = None
    ∧ name e
      = c_string
          (zip_convert_dos_path e
             (take (Z.to_nat (field h 28 2))
                (drop (Z.to_nat (cursor h + 46)) (content h)) ++ [NUL]))
    ∧ content h' = content h
    ∧ cursor h' = cursor h + 46 + field h 28 2 + field h 30 2 + field h 32 2.
Proof.
  intros h.
  destruct (zip_load_entry (λ _, 0) 10 h) as [e h'|] eqn:E;
    [|by vm_compute in E].
  exists e, h'. split; [done|].
  exact (zip_load_entry_reads_record (λ _, 0) 10 h e h' E).
Defined.

(** The next step of a parser is a check [BAIL_IF_MACRO(v != w, ...)]. *)
Ltac next_check H :=
  unfold bail_if at 1 in H;
  match type of H with
  | context [negb (?v =? ?w)] =>
      let E := fresh "Hcheck" in
      destruct (Z.eqb_spec v w) as [E|]; cbn [negb] in H; [|discriminate H]
  end.

Lemma parse_local_header_inv (e : ZIPentry) (h : handle) (ofs : Z)
    (h' : handle) :
  parse_local_header e h = Go ofs h' →
  let hd := {| content := content h; cursor := offset e;
               length_error := length_error h |} in
  0 <= offset e
  ∧ field hd 0 4 = ZIP_LOCAL_FILE_SIG
  ∧ field hd 4 2 = version_needed e
  ∧ field hd 8 2 = compression_method e
  ∧ field hd 14 4 = crc e
  ∧ field hd 18 4 = compressed_size e
  ∧ field hd 22 4 = uncompressed_size e
  ∧ ofs = u32 (offset e + (field hd 26 2 + field hd 28 2 + 30))
  ∧ h' = advance hd 30.
Proof.
  intros H hd. unfold parse_local_header in H.
  cbv [mbind io_bind mret io_ret] in H.
  destruct (seek_to _ _) as [[] h1|] eqn:Hseek; [|discriminate H].
  apply seek_to_inv in Hseek as (Hpos & ->). fold hd in H.
  next_read H. next_check H.
  next_read H. next_check H.
  next_read H.
  next_read H. next_check H.
  next_read H.
  next_read H. next_check H.
  next_read H. next_check H.
  next_read H. next_check H.
  next_read H. next_read H.
  injection H as <- <-.
  rewrite ?advance_advance, ?field_advance in *.
  repeat match goal with
         | H : context [field hd ?k ?w] |- _ =>
             progress (let k' := eval vm_compute in k in
                       change k with k' in H)
         | |- context [field hd ?k ?w] =>
             progress (let k' := eval vm_compute in k in change k with k')
         end.
  repeat split; try done.
Qed.

(** X14. What [zip_parse_local] accepts. It succeeds on an entry only if
    the bytes at the offset of the entry are a local file header: the
    signature [PK\003\004], and the version needed, the method, the CRC
    and both sizes that the central directory gave for the entry. The
    entry is then stored with its offset moved behind the header, its
    file name and its extra field, modulo 2^32, and with every other
    field as it was; the handle is left behind the 30 bytes of the fixed
    part, and no error is set. *)
Theorem zip_parse_local_checks_header (st : rstate) (i : Z) (e : ZIPentry)
    (st' : rstate) :
  entry_at (entries (info st)) i = Ret e →
  zip_parse_local st i = Ret (true, st') →
  let hd := {| content := content (src st); cursor := offset e;
               length_error := length_error (src st) |} in
  0 <= offset e
  ∧ field hd 0 4 = ZIP_LOCAL_FILE_SIG
  ∧ field hd 4 2 = version_needed e
  ∧ field hd 8 2 = compression_method e
  ∧ field hd 14 4 = crc e
  ∧ field hd 18 4 = compressed_size e
  ∧ field hd 22 4 = uncompressed_size e
  ∧ entry_at (entries (info st')) i
    = Ret (with_offset
             (u32 (offset e + (field hd 26 2 + field hd 28 2 + 30))) e)
  ∧ src st' = advance hd 30
  ∧ err st' = err st.
Proof.
  intros He H hd. unfold zip_parse_local in H. rewrite He in H.
  cbn [mbind result_bind] in H.
  destruct (parse_local_header e (src st)) as [ofs h|o] eqn:Hparse; [|done].
  apply bind_Ret_inv in H as (st1 & Hset & [= <-]).
  apply parse_local_header_inv in Hparse
    as (H0 & H1 & H2 & H3 & H4 & H5 & H6 & -> & ->).
  apply set_entry_lookup in Hset as (Hat & Herr & Hsrc).
  repeat split; try done.
Qed.

Lemma zip_parse_local_checks_header_witness :
  ∃ st',
    entry_at (entries (info hello_archive)) 0
    = Ret (stored_entry "hello.txt" 0 14)
    ∧ zip_parse_local hello_archive 0 = Ret (true, st')
    ∧ let hd := {| content := content (src hello_archive);
                   cursor := offset (stored_entry "hello.txt" 0 14);
                   length_error := length_error (src hello_archive) |} in
      0 <= offset (stored_entry "hello.txt" 0 14)
      ∧ field hd 0 4 = ZIP_LOCAL_FILE_SIG
      ∧ field hd 4 2 = version_needed (stored_entry "hello.txt" 0 14)
      ∧ field hd 8 2 = compression_method (stored_entry "hello.txt" 0 14)
      ∧ field hd 14 4 = crc (stored_entry "hello.txt" 0 14)
      ∧ field hd 18 4 = compressed_size (stored_entry "hello.txt" 0 14)
      ∧ field hd 22 4 = uncompressed_size (stored_entry "hello.txt" 0 14)
      ∧ entry_at (entries (info st')) 0
        = Ret (with_offset
                 (u32 (offset (stored_entry "hello.txt" 0 14)
                       + (field hd 26 2 + field hd 28 2 + 30)))
                 (stored_entry "hello.txt" 0 14))
      ∧ src st' = advance hd 30
      ∧ err st' = err hello_archive.
Proof.
  destruct (zip_parse_local hello_archive 0) as [[[|] st']| |] eqn:E;
    try (by vm_compute in E).
  exists st'.
  assert (H : entry_at (entries (info hello_archive)) 0
              = Ret (stored_entry "hello.txt" 0 14)) by reflexivity.
  split; [exact H|]. split; [reflexivity|].
  exact (zip_parse_local_checks_header hello_archive 0
           (stored_entry "hello.txt" 0 14) st' H E).
Defined.

Lemma take_drop_within (l : list ascii) (ofs size pos k : nat) :
  (pos + k <= size)%nat →
  take k (drop pos (take size (drop ofs l))) = take k (drop (ofs + pos) l).
Proof.
  intros Hk.
  assert (drop pos (take size (drop ofs l))
          = take (size - pos) (drop pos (drop ofs l))) as ->.
  { rewrite (take_drop_commute (drop ofs l) (size - pos) pos).
    by replace (pos + (size - pos))%nat with size by lia. }
  rewrite take_take, drop_drop. f_equal. lia.
Qed.

(* ===================================================================== *)
(** * What the locator returns *)
(* ===================================================================== *)

Section locator.

Lemma scan_window_sound (buf : list ascii) :
  ∀ (k : nat) (i : Z),
    scan_window buf k = Some i →
    1 <= i <= Z.of_nat k ∧ signature_at buf (Z.to_nat i) = true.
Proof.
  induction k as [|k IH]; intros i; [done|].
  cbn [scan_window]. destruct (signature_at buf (S k)) eqn:E.
  - intros [= <-]. rewrite Nat2Z.id. split; [lia|done].
  - intros H. apply IH in H as [? ?]. split; [lia|done].
Qed.

(** A signature seen in the window read at [filepos] is in the file. *)
Lemma signature_at_window (C : list ascii) (filepos maxread i : nat) :
  (i + 4 <= maxread)%nat →
  signature_at (take maxread (drop filepos C)) i = true →
  signature_at C (filepos + i) = true.
Proof.
  intros Hi. unfold signature_at.
  assert (take 4 (drop i (take maxread (drop filepos C)))
          = take 4 (drop (filepos + i) C)) as ->; [|done].
  rewrite <- (take_drop_within C filepos maxread i 4) by lia.
  done.
Qed.

Variable C : list ascii.
Variables filelen maxread : Z.
Hypothesis Hmaxread :
  (maxread = 256 ∧ 256 < filelen) ∨ (maxread = filelen ∧ filelen <= 256).

(** What is known of [extra] when a turn begins: nothing in the first
    turn; later the first four bytes of the window read before, which lie
    right behind the window to read now. The loop leaves the bytes of the
    file alone; it ends without a position, or on a signature of the
    file, with the length written. *)
Lemma find_eocd_loop_sound :
  ∀ fuel h filepos totalread extra l,
    content h = C →
    0 <= totalread < 2 ^ 30 →
    (totalread = 0
     ∨ filelen <= totalread
     ∨ (4 <= maxread
        ∧ 0 <= filepos + (maxread - 4)
        ∧ extra = take 4 (drop (Z.to_nat (filepos + (maxread - 4))) C))) →
    find_eocd_loop fuel h filelen filepos maxread totalread extra = Ret l →
    content (loc_handle l) = C
    ∧ length_error (loc_handle l) = length_error h
    ∧ ((loc_pos l = -1 ∧ loc_len l = None)
       ∨ (loc_error l = None ∧ loc_len l = Some filelen ∧ 1 <= loc_pos l
          ∧ signature_at C (Z.to_nat (loc_pos l)) = true)).
Proof.
  induction fuel as [|fuel IH];
    intros h filepos totalread extra l Hc Htot Hinv; [done|].
  cbn [find_eocd_loop].
  destruct (Z.ltb_spec totalread filelen) as [Hlt|]; cbn [andb];
    [|intros [= <-]; cbn; auto].
  destruct (Z.ltb_spec totalread 65557) as [Hlt2|];
    [|intros [= <-]; cbn; auto].
  unfold __PHYSFS_platformSeek.
  destruct (Z.leb_spec 0 filepos) as [Hpos|]; [|intros [= <-]; cbn; auto].
  set (h1 := {| content := content h; cursor := filepos;
               length_error := length_error h |}).
  set (want := if totalread =? 0 then maxread else maxread - 4).
  destruct (__PHYSFS_platformRead h1 want 1) as [[n bytes] h2] eqn:Hread.
  destruct (Z.eqb_spec n 1) as [->|].
  2:{ intros [= <-]. cbn [loc_handle loc_pos loc_len].
      unfold __PHYSFS_platformRead in Hread. injection Hread as _ _ <-.
      cbn [content length_error]. auto. }
  assert (Hwant : 0 < want).
  { destruct (Z.lt_trichotomy want 0) as [Hneg|[Hz|Hp]]; [| |done];
      unfold __PHYSFS_platformRead in Hread; injection Hread as Hn _ _.
    - match type of Hn with
      | context [Z.min 1 (?x / want)] =>
          assert (x / want <= 0); [|lia];
          rewrite <- Z.div_opp_opp by lia; apply Z.div_le_upper_bound; lia
      end.
    - rewrite Hz, Z.div_0_r in Hn. lia. }
  assert (Hfull : cursor h1 + want <= Z.of_nat (length (content h1))).
  { unfold __PHYSFS_platformRead in Hread. injection Hread as Hn _ _.
    match type of Hn with
    | context [Z.min 1 (?x / want)] =>
        assert (1 <= x / want) by lia;
        assert (want * 1 <= x)
          by (etrans; [|apply (Z.mul_div_le _ want); lia];
              apply Z.mul_le_mono_nonneg_l; lia);
        unfold h1 in *; cbn [content cursor] in *; lia
    end. }
  rewrite platformRead_one in Hread by (done || by rewrite Hread).
  injection Hread as <- <-.
  unfold h1 in Hfull. cbn [content cursor] in Hfull.
  rewrite Hc in Hfull |- *.
  (* the window is the part of the file at [filepos] *)
  assert (Hmax : 0 <= maxread <= 256) by lia.
  set (buf := if totalread =? 0 then _ else _).
  assert (Hbuf : buf = take (Z.to_nat maxread) (drop (Z.to_nat filepos) C)).
  { unfold buf, want. destruct (Z.eqb_spec totalread 0) as [Hz|Hnz]; [done|].
    destruct Hinv as [?|[?|(H4 & Hp4 & ->)]]; [lia|lia|].
    unfold want in Hfull, Hwant.
    destruct (Z.eqb_spec totalread 0); [done|].
    replace (Z.to_nat (filepos + (maxread - 4)))
      with (Z.to_nat filepos + Z.to_nat (maxread - 4))%nat by lia.
    rewrite <- drop_drop, take_take_drop. f_equal. lia. }
  assert (Htot' : s32 (totalread + want) = totalread + want).
  { apply s32_small. unfold want. destruct (totalread =? 0); lia. }
  rewrite Htot'.
  destruct (scan_window buf (Z.to_nat (maxread - 4))) as [i|] eqn:Hscan.
  - intros [= <-]. cbn [loc_handle loc_pos loc_len loc_error].
    apply scan_window_sound in Hscan as [Hi Hsig].
    split; [by rewrite <- Hc|]. split; [done|]. right.
    split; [done|]. split; [done|]. split; [lia|].
    rewrite Hbuf in Hsig. apply signature_at_window in Hsig; [|lia].
    by replace (Z.to_nat (filepos + i))
         with (Z.to_nat filepos + Z.to_nat i)%nat by lia.
  - intros Hloop.
    apply IH in Hloop as (H1 & H2 & H3); [done|exact Hc| |].
    + unfold want. destruct (totalread =? 0); lia.
    + destruct (Z.lt_ge_cases maxread 4) as [Hsmall|Hbig].
      * (* a file shorter than a signature: the first turn read all *)
        right; left. unfold want.
        destruct Hmaxread as [[? ?]|[? ?]]; [lia|].
        destruct Hinv as [->|[?|(? & _)]]; [|lia|lia].
        cbn [Z.eqb]. lia.
      * right; right. split; [done|].
        replace (filepos - (maxread - 4) + (maxread - 4)) with filepos
          by lia.
        split; [done|]. rewrite Hbuf, take_take. f_equal. lia.
Qed.

End locator.

(** What the locator leaves behind, by what the platform says of the
    length of the file. *)
Lemma locate_end_of_central_dir_inv (h : handle) (l : located) :
  locate_end_of_central_dir h = Ret l →
  content (loc_handle l) = content h
  ∧ length_error (loc_handle l) = length_error h
  ∧ match length_error h with
    | Some x => loc_pos l = 0 ∧ loc_error l = Some x ∧ loc_len l = None
    | None =>
        (loc_pos l = -1 ∧ loc_len l = None)
        ∨ (loc_error l = None
           ∧ loc_len l = Some (Z.of_nat (length (content h)))
           ∧ 1 <= loc_pos l
           ∧ signature_at (content h) (Z.to_nat (loc_pos l)) = true)
    end.
Proof.
  unfold locate_end_of_central_dir, __PHYSFS_platformFileLength.
  destruct (length_error h) as [x|] eqn:Hx.
  { cbn [Z.eqb]. intros [= <-]. cbn. by rewrite Hx. }
  set (filelen := Z.of_nat (length (content h))) in *.
  assert (Hlen : 0 <= filelen) by (unfold filelen; lia).
  assert (Hzero : 0 <= 0 < 2 ^ 30) by lia.
  cmp_false filelen (-1).
  destruct (Z.ltb_spec 256 filelen) as [Hbig|Hsmall].
  - intros H.
    destruct (find_eocd_loop_sound (content h) filelen 256
                (or_introl (conj eq_refl Hbig)) 300 h (filelen - 256) 0 []
                l eq_refl Hzero (or_introl eq_refl) H)
      as (Hc & He & Hl).
    by rewrite He, Hx.
  - rewrite s32_small by lia. intros H.
    destruct (find_eocd_loop_sound (content h) filelen filelen
                (or_intror (conj eq_refl Hsmall)) 300 h 0 0 []
                l eq_refl Hzero (or_introl eq_refl) H)
      as (Hc & He & Hl).
    by rewrite He, Hx.
Qed.

(** X26. What the locator returns. When the platform cannot tell the
    length of the file, [zip_find_end_of_central_dir] returns 0, which is
    not the -1 of its failures, and leaves the error of the platform.
    Otherwise, whenever it returns a position other than -1, no error is
    set, the position is at least 1, and the four bytes of the file at
    that position are [PK\005\006]: the windows it scans, and the four
    bytes it carries over from one window to the next, are parts of the
    file as they lie there. *)
Theorem zip_find_end_of_central_dir_sound (h : handle) :
  (∀ x, length_error h = Some x →
        zip_find_end_of_central_dir h = Ret (0, Some x))
  ∧ (∀ pos e,
       length_error h = None →
       zip_find_end_of_central_dir h = Ret (pos, e) →
       pos ≠ -1 →
       e = None ∧ 1 <= pos ∧ eocd_signature_at (content h) pos).
Proof.
  split.
  - intros x Hx. unfold zip_find_end_of_central_dir,
      locate_end_of_central_dir, __PHYSFS_platformFileLength.
    by rewrite Hx.
  - intros pos e Hx. unfold zip_find_end_of_central_dir.
    intros (l & Hl & [= <- <-])%bind_Ret_inv Hpos.
    apply locate_end_of_central_dir_inv in Hl as (_ & _ & Hl).
    rewrite Hx in Hl. destruct Hl as [[? _]|(He & _ & Hp & Hsig)]; [done|].
    split; [done|]. split; [done|]. split; [lia|done].
Qed.

Lemma zip_find_end_of_central_dir_sound_witness :
  (let h := {| content := hello_file; cursor := 0;
               length_error := Some ERR_IO |} in
   length_error h = Some ERR_IO
   ∧ zip_find_end_of_central_dir h = Ret (0, Some ERR_IO))
  ∧ length_error (__PHYSFS_platformOpenRead hello_file) = None
  ∧ zip_find_end_of_central_dir (__PHYSFS_platformOpenRead hello_file)
    = Ret (108, None)
  ∧ 108 ≠ -1
  ∧ @None PHYSFS_error = None ∧ 1 <= 108
  ∧ eocd_signature_at (content (__PHYSFS_platformOpenRead hello_file)) 108.
Proof.
  assert (H1 : length_error (__PHYSFS_platformOpenRead hello_file) = None)
    by reflexivity.
  assert (H2 : zip_find_end_of_central_dir
                 (__PHYSFS_platformOpenRead hello_file) = Ret (108, None))
    by (vm_compute; reflexivity).
  assert (H3 : 108 ≠ -1) by discriminate.
  split.
  { split; [reflexivity|].
    exact (proj1 (zip_find_end_of_central_dir_sound
                    {| content := hello_file; cursor := 0;
                       length_error := Some ERR_IO |}) ERR_IO eq_refl). }
  split; [exact H1|]. split; [exact H2|]. split; [exact H3|].
  exact (proj2 (zip_find_end_of_central_dir_sound
                  (__PHYSFS_platformOpenRead hello_file)) 108 None H1 H2 H3).
Defined.

Lemma parse_eocd_at_inv (pos : Z) (h : handle) (r : eocd_result)
    (ui16 : Z) (h' : handle) :
  parse_eocd_at pos h = Go (r, ui16) h' →
  let hd := {| content := content h; cursor := pos;
               length_error := length_error h |} in
  0 <= pos
  ∧ field hd 0 4 = ZIP_END_OF_CENTRAL_DIR_SIG
  ∧ field hd 4 2 = 0
  ∧ field hd 6 2 = 0
  ∧ field hd 8 2 = field hd 10 2
  ∧ eocd_entryCount r = field hd 10 2
  ∧ u32 (field hd 16 4 + field hd 12 4) <= pos
  ∧ eocd_data_start r = u32 (pos - u32 (field hd 16 4 + field hd 12 4))
  ∧ eocd_central_dir_ofs r = u32 (field hd 16 4 + eocd_data_start r)
  ∧ ui16 = field hd 20 2
  ∧ h' = advance hd 22.
Proof.
  intros H hd. unfold parse_eocd_at in H.
  cbv [mbind io_bind mret io_ret] in H.
  destruct (seek_to _ _) as [[] h1|] eqn:Hseek; [|discriminate H].
  apply seek_to_inv in Hseek as (Hpos & ->). fold hd in H.
  next_read H. next_check H.
  next_read H. next_check H.
  next_read H. next_check H.
  next_read H.
  next_read H. next_check H.
  next_read H. next_read H.
  unfold bail_if at 1 in H.
  match type of H with
  | context [?x <? ?y] => destruct (Z.ltb_spec x y) as [|Hfit];
                          [discriminate H|]
  end.
  next_read H.
  injection H as <- <- <-. cbn [eocd_entryCount eocd_data_start
                                eocd_central_dir_ofs].
  rewrite ?advance_advance, ?field_advance in *.
  repeat match goal with
         | H : context [field hd ?k ?w] |- _ =>
             progress (let k' := eval vm_compute in k in
                       change k with k' in H)
         | |- context [field hd ?k ?w] =>
             progress (let k' := eval vm_compute in k in change k with k')
         end.
  repeat split; try done.
Qed.

(** A successful parse of the end record: the platform has told the
    length of the file, the locator has stopped on a signature and the
    record at that place has passed the checks. *)
Lemma zip_parse_end_of_central_dir_inv (h : handle) (r : eocd_result)
    (h' : handle) :
  zip_parse_end_of_central_dir h = Ret (Go r h') →
  length_error h = None
  ∧ ∃ pos,
      let hd := {| content := content h; cursor := pos;
                   length_error := length_error h |} in
      1 <= pos
      ∧ field hd 0 4 = ZIP_END_OF_CENTRAL_DIR_SIG
      ∧ field hd 4 2 = 0
      ∧ field hd 6 2 = 0
      ∧ field hd 8 2 = field hd 10 2
      ∧ eocd_entryCount r = field hd 10 2
      ∧ u32 (field hd 16 4 + field hd 12 4) <= pos
      ∧ eocd_data_start r = u32 (pos - u32 (field hd 16 4 + field hd 12 4))
      ∧ eocd_central_dir_ofs r = u32 (field hd 16 4 + eocd_data_start r)
      ∧ pos + 22 + field hd 20 2 = Z.of_nat (length (content h))
      ∧ h' = advance hd 22.
Proof.
  unfold zip_parse_end_of_central_dir.
  intros (l & Hl & H)%bind_Ret_inv.
  apply locate_end_of_central_dir_inv in Hl as (Hc & Hle & Hl).
  destruct (Z.eqb_spec (loc_pos l) (-1)) as [|Hfound]; [done|].
  destruct (parse_eocd_at (loc_pos l) (loc_handle l))
    as [[r1 ui16] h1|] eqn:Hparse; [|done].
  apply parse_eocd_at_inv in Hparse
    as (H0 & H1 & H2 & H3 & H4 & H5 & H6 & H7 & H8 & H9 & H10).
  rewrite Hc, Hle in *.
  destruct (length_error h) as [x|].
  { destruct Hl as (_ & _ & Hlen). by rewrite Hlen in H. }
  destruct Hl as [[? _]|(_ & Hlen & Hpos & _)]; [done|].
  rewrite Hlen in H. cbn [of_option mbind result_bind] in H.
  destruct (Z.eqb_spec (loc_pos l + 22 + ui16)
              (Z.of_nat (length (content h)))) as [Hend|];
    cbn [negb] in H; [|done].
  injection H as <- <-. split; [done|]. exists (loc_pos l). cbn zeta.
  rewrite <- H9. done.
Qed.

(** X15. What [zip_parse_end_of_central_dir] accepts. It succeeds only
    if the platform can tell the length of the file and, at some offset
    of the file, there is an end-of-central-directory record: the
    signature [PK\005\006], both disk numbers 0, the two entry counts
    equal, the central directory (its offset plus its size, modulo 2^32)
    not reaching past the record, and the comment length of the record
    leading exactly to the end of the file. The entry count returned is
    the count of the record; the data start is the distance from the end
    of the central directory to the record, and the offset of the central
    directory is moved by it. Where nothing wraps, the central directory
    so ends where the record starts. When the platform cannot tell the
    length, the call goes on at offset 0, the value that the locator
    returned; it never succeeds then, and where it returns it has failed
    with an error set. Where the record at offset 0 passes the checks,
    the comment length is compared with a length that was never written,
    and the call has no defined result. *)
Theorem zip_parse_end_of_central_dir_sound (h : handle) :
  (∀ r h',
     zip_parse_end_of_central_dir h = Ret (Go r h') →
     length_error h = None
     ∧ ∃ pos,
         let hd := {| content := content h; cursor := pos;
                      length_error := length_error h |} in
         let size := field hd 12 4 in
         let ofs := field hd 16 4 in
         1 <= pos
         ∧ field hd 0 4 = ZIP_END_OF_CENTRAL_DIR_SIG
         ∧ field hd 4 2 = 0
         ∧ field hd 6 2 = 0
         ∧ field hd 8 2 = field hd 10 2
         ∧ eocd_entryCount r = field hd 10 2
         ∧ 0 <= eocd_entryCount r <= 65535
         ∧ u32 (ofs + size) <= pos
         ∧ eocd_data_start r = u32 (pos - u32 (ofs + size))
         ∧ eocd_central_dir_ofs r = u32 (ofs + eocd_data_start r)
         ∧ pos + 22 + field hd 20 2 = Z.of_nat (length (content h))
         ∧ (ofs + size < 2 ^ 32 → pos < 2 ^ 32 →
            eocd_data_start r = pos - (ofs + size)
            ∧ eocd_central_dir_ofs r + size = pos)
         ∧ h' = advance hd 22)
  ∧ (∀ x s,
       length_error h = Some x →
       zip_parse_end_of_central_dir h = Ret s →
       ∃ e h', s = Bail (Some e) h')
  ∧ (∀ x r c h',
       length_error h = Some x →
       parse_eocd_at 0 h = Go (r, c) h' →
       zip_parse_end_of_central_dir h = Undef).
Proof.
  split; [|split].
  - intros r h' H.
    apply zip_parse_end_of_central_dir_inv in H as (Hx & pos & H).
    split; [done|]. exists pos. cbn zeta in *.
    set (hd := {| content := content h; cursor := pos;
                  length_error := length_error h |}) in *.
    destruct H as (H0 & H1 & H2 & H3 & H4 & H5 & H6 & H7 & H8 & H9 & H10).
    pose proof (field_bound hd 10 2).
    pose proof (field_bound hd 12 4).
    pose proof (field_bound hd 16 4).
    change (256 ^ Z.of_nat 2) with 65536 in *.
    change (256 ^ Z.of_nat 4) with (2 ^ 32) in *.
    assert (field hd 16 4 + field hd 12 4 < 2 ^ 32 → pos < 2 ^ 32 →
            eocd_data_start r = pos - (field hd 16 4 + field hd 12 4))
      as Hstart.
    { intros Hsum Hpos. rewrite H7. unfold u32 in *.
      rewrite (Z.mod_small (_ + _)) in * by lia.
      apply Z.mod_small. lia. }
    split_and!; try done; try lia.
    intros Hsum Hpos. split; [by apply Hstart|].
    rewrite H8, (Hstart Hsum Hpos). unfold u32 in *.
    rewrite (Z.mod_small (field _ 16 4 + field _ 12 4)) in H6 by lia.
    rewrite Z.mod_small by lia. lia.
  - intros x s Hx. unfold zip_parse_end_of_central_dir.
    intros (l & Hl & H)%bind_Ret_inv.
    apply locate_end_of_central_dir_inv in Hl as (_ & _ & Hl).
    rewrite Hx in Hl. destruct Hl as (Hpos & He & Hlen).
    rewrite Hpos, He, Hlen in H. cbn [Z.eqb] in H.
    destruct (parse_eocd_at 0 (loc_handle l)) as [[r ui16] h1|e h1].
    + done.
    + injection H as <-. destruct e as [e|]; cbn [error_after]; eauto.
  - intros x r c h' Hx Hparse. unfold zip_parse_end_of_central_dir,
      locate_end_of_central_dir, __PHYSFS_platformFileLength.
    rewrite Hx. change (-1 =? -1) with true.
    cbn [mbind result_bind loc_pos loc_handle loc_len].
    change (0 =? -1) with false. cbv iota. by rewrite Hparse.
Qed.

Lemma zip_parse_end_of_central_dir_sound_witness :
  ∃ r h',
    zip_parse_end_of_central_dir (__PHYSFS_platformOpenRead hello_file)
    = Ret (Go r h')
    ∧ length_error (__PHYSFS_platformOpenRead hello_file) = None
    ∧ ∃ pos,
        let hd := {| content := content (__PHYSFS_platformOpenRead hello_file);
                     cursor := pos;
                     length_error :=
                       length_error (__PHYSFS_platformOpenRead hello_file) |} in
        let size := field hd 12 4 in
        let ofs := field hd 16 4 in
        1 <= pos
        ∧ field hd 0 4 = ZIP_END_OF_CENTRAL_DIR_SIG
        ∧ field hd 4 2 = 0
        ∧ field hd 6 2 = 0
        ∧ field hd 8 2 = field hd 10 2
        ∧ eocd_entryCount r = field hd 10 2
        ∧ 0 <= eocd_entryCount r <= 65535
        ∧ u32 (ofs + size) <= pos
        ∧ eocd_data_start r = u32 (pos - u32 (ofs + size))
        ∧ eocd_central_dir_ofs r = u32 (ofs + eocd_data_start r)
        ∧ pos + 22 + field hd 20 2
          = Z.of_nat (length (content (__PHYSFS_platformOpenRead hello_file)))
        ∧ (ofs + size < 2 ^ 32 → pos < 2 ^ 32 →
           eocd_data_start r = pos - (ofs + size)
           ∧ eocd_central_dir_ofs r + size = pos)
        ∧ h' = advance hd 22.
Proof.
  destruct (zip_parse_end_of_central_dir
              (__PHYSFS_platformOpenRead hello_file))
    as [[r h'|]| |] eqn:E; try (by vm_compute in E).
  exists r, h'. split; [reflexivity|].
  exact (proj1 (zip_parse_end_of_central_dir_sound
                  (__PHYSFS_platformOpenRead hello_file)) r h' E).
Defined.

(** With a platform that cannot tell the length, the archive of
    [hello.txt] is refused at offset 0, where its first local header
    lies, and a file that starts with an end record has no defined
    result. *)
Example zip_parse_end_of_central_dir_without_length :
  zip_parse_end_of_central_dir
    {| content := hello_file; cursor := 0; length_error := Some ERR_IO |}
  = Ret (Bail (Some ERR_NOT_AN_ARCHIVE)
           {| content := hello_file; cursor := 4;
              length_error := Some ERR_IO |})
  ∧ zip_parse_end_of_central_dir
      {| content := empty_eocd []; cursor := 0;
         length_error := Some ERR_IO |}
    = Undef.
Proof. split; vm_compute; reflexivity. Qed.

(* ===================================================================== *)
(** * The table of a mount *)
(* ===================================================================== *)

Section mount_table.
Context (mktime : tm → Z).

Lemma load_entries_loop_fresh (fixup : Z) (n : nat) :
  ∀ h a h', load_entries_loop mktime fixup n h = Go a h' →
            Forall (λ e, unresolved e ∧ symlink e = None) a.
Proof.
  induction n as [|n IH]; intros h a h'; cbn [load_entries_loop].
  - intros [= <- <-]. constructor.
  - cbv [mbind io_bind mret io_ret].
    destruct (zip_load_entry mktime fixup h) as [e h1|] eqn:He; [|done].
    destruct (load_entries_loop mktime fixup n h1) as [rest h2|] eqn:Hrest;
      [|done].
    intros [= <- <-]. constructor; [|by eapply IH].
    pose proof (zip_load_entry_fields _ _ _ _ _ He) as (_ & _ & Hr).
    pose proof (zip_load_entry_record _ _ _ _ _ He)
      as (_ & _ & _ & _ & _ & _ & _ & _ & _ & Hs & _).
    split; [|done]. unfold unresolved. rewrite Hr.
    destruct (zip_has_symlink_attr _ _); auto.
Qed.

(** The table that [zip_load_entries] hands over. *)
Lemma zip_load_entries_table (h : handle) (max data_ofs central_ofs : Z)
    (a : list ZIPentry) (h' : handle) :
  0 <= max <= 65535 →
  zip_load_entries mktime h max data_ofs central_ofs = Ret (Go a h') →
  1 <= max
  ∧ (∃ a0, read_central_directory mktime max data_ofs central_ofs h
           = Go a0 h'
           ∧ a0 ≡ₚ a)
  ∧ Z.of_nat (length a) = max
  ∧ sorted_by_name a
  ∧ c_names a
  ∧ Forall (λ e, unresolved e ∧ symlink e = None) a.
Proof.
  intros Hmax. unfold zip_load_entries.
  destruct (read_central_directory mktime max data_ofs central_ofs h)
    as [a0 h1|] eqn:Hread; [|done].
  intros (a1 & Hsort & [= <- <-])%bind_Ret_inv.
  destruct (read_central_directory_table mktime max data_ofs central_ofs
              h a0 h1 (proj1 Hmax) Hread) as [Hlen Hc].
  destruct a0 as [|x a0].
  { cbn [length] in Hlen. subst max. done. }
  destruct (zip_sort_entries_then_find (x :: a0) ltac:(done) ltac:(lia) Hc)
    as (a2 & Hsort2 & Hperm & Hsorted & _).
  rewrite Hlen, Hsort in Hsort2. injection Hsort2 as <-.
  split; [cbn [length] in Hlen; lia|].
  split; [by exists (x :: a0)|].
  split; [apply Permutation_length in Hperm; lia|].
  split; [done|].
  unfold read_central_directory in Hread. cbv [mbind io_bind] in Hread.
  destruct (seek_to central_ofs h) as [[] h2|]; [|done].
  apply load_entries_loop_fresh in Hread.
  unfold c_names in *. by rewrite <- Hperm.
Qed.

End mount_table.

(** X16. The table of a mounted archive. [ZIP_openArchive] never mounts
    an archive for writing. When it mounts one, the handle carries the
    name given, and the file holds an end-of-central-directory record, at
    an offset from 1 on, whose comment leads to the end of the file: the
    entry count of the handle is the count of that record, between 1 and
    65535, and the table is a rearrangement of the entries that are read
    from the central directory which the record points to. The table
    holds that many entries, sorted by name, with NUL-free names; every
    entry is unresolved and records no link target, so no resolution is
    under way and the link targets of the table are settled. *)
Theorem ZIP_openArchive_table (mktime : tm → Z) (nm : string)
    (file : list ascii) (forWriting : bool) (inf : ZIPinfo) :
  ZIP_openArchive mktime nm file forWriting = Ret (inl inf) →
  forWriting = false
  ∧ archiveName inf = nm
  ∧ (∃ pos a0 h0,
       let hd := {| content := file; cursor := pos; length_error := None |} in
       let data_start := u32 (pos - u32 (field hd 16 4 + field hd 12 4)) in
       1 <= pos
       ∧ field hd 0 4 = ZIP_END_OF_CENTRAL_DIR_SIG
       ∧ pos + 22 + field hd 20 2 = Z.of_nat (length file)
       ∧ entryCount inf = field hd 10 2
       ∧ read_central_directory mktime (field hd 10 2) data_start
           (u32 (field hd 16 4 + data_start)) (advance hd 22)
         = Go a0 h0
       ∧ a0 ≡ₚ entries inf)
  ∧ 1 <= entryCount inf <= 65535
  ∧ Z.of_nat (length (entries inf)) = entryCount inf
  ∧ sorted_by_name (entries inf)
  ∧ c_names (entries inf)
  ∧ Forall (λ e, unresolved e ∧ symlink e = None) (entries inf)
  ∧ targets_settled (entries inf).
Proof.
  unfold ZIP_openArchive. destruct forWriting; [done|].
  intros ([r h|o] & Hparse & H)%bind_Ret_inv; [|done].
  apply bind_Ret_inv in H as ([a h'|o] & Hload & H); [|done].
  injection H as <-. cbn [archiveName entryCount entries].
  apply zip_parse_end_of_central_dir_inv in Hparse as (_ & pos & Hparse).
  cbn [__PHYSFS_platformOpenRead content length_error] in Hparse.
  cbn zeta in Hparse.
  set (hd := {| content := file; cursor := pos; length_error := None |}) in *.
  destruct Hparse as (H0 & H1 & H2 & H3 & H4 & H5 & H6 & H7 & H8 & H9 & ->).
  pose proof (field_bound hd 10 2) as Hcount.
  change (256 ^ Z.of_nat 2) with 65536 in Hcount.
  apply zip_load_entries_table in Hload
    as (Hone & (a0 & Hread & Hperm) & Hlen & Hsorted & Hnames & Hfresh);
    [|lia].
  split; [done|]. split; [done|]. split.
  { exists pos, a0, h'. cbn zeta. fold hd.
    rewrite H5, H8, H7 in Hread. done. }
  split_and!; try done; try lia.
  apply no_targets_settled. eapply Forall_impl; [exact Hfresh|].
  by intros e [_ ?].
Qed.

Lemma ZIP_openArchive_table_witness :
  ∃ inf,
    ZIP_openArchive (λ _, 0) "hello.zip" hello_file false = Ret (inl inf)
    ∧ false = false
    ∧ archiveName inf = "hello.zip"
    ∧ (∃ pos a0 h0,
         let hd := {| content := hello_file; cursor := pos;
                      length_error := None |} in
         let data_start :=
           u32 (pos - u32 (field hd 16 4 + field hd 12 4)) in
         1 <= pos
         ∧ field hd 0 4 = ZIP_END_OF_CENTRAL_DIR_SIG
         ∧ pos + 22 + field hd 20 2 = Z.of_nat (length hello_file)
         ∧ entryCount inf = field hd 10 2
         ∧ read_central_directory (λ _, 0) (field hd 10 2) data_start
             (u32 (field hd 16 4 + data_start)) (advance hd 22)
           = Go a0 h0
         ∧ a0 ≡ₚ entries inf)
    ∧ 1 <= entryCount inf <= 65535
    ∧ Z.of_nat (length (entries inf)) = entryCount inf
    ∧ sorted_by_name (entries inf)
    ∧ c_names (entries inf)
    ∧ Forall (λ e, unresolved e ∧ symlink e = None) (entries inf)
    ∧ targets_settled (entries inf).
Proof.
  destruct (ZIP_openArchive (λ _, 0) "hello.zip" hello_file false)
    as [[inf|]| |] eqn:E; try (by vm_compute in E).
  exists inf. split; [reflexivity|].
  exact (ZIP_openArchive_table (λ _, 0) "hello.zip" hello_file false inf E).
Defined.

(** X17. An archive without entries cannot be mounted. When the end
    record gives an entry count of 0 and the central directory can be
    sought, the table is allocated for no entries (the allocation is
    taken to succeed, as everywhere) and [zip_sort_entries] is called with
    [max = 0]: the count is not above the threshold, so the quicksort is
    run, from 0 to [max - 1], which is 2^32 - 1 in the unsigned type, and
    its first comparison reads [a[0]] of a table of no entries. *)
Theorem ZIP_openArchive_without_entries (mktime : tm → Z) (nm : string)
    (file : list ascii) (r : eocd_result) (h h' : handle) :
  zip_parse_end_of_central_dir (__PHYSFS_platformOpenRead file)
  = Ret (Go r h) →
  eocd_entryCount r = 0 →
  seek_to (eocd_central_dir_ofs r) h = Go tt h' →
  ZIP_openArchive mktime nm file false = Undef.
Proof.
  intros Hparse Hcount Hseek. unfold ZIP_openArchive.
  rewrite Hparse. cbn [mbind result_bind]. rewrite Hcount.
  unfold zip_load_entries, read_central_directory.
  cbv [mbind io_bind]. rewrite Hseek. reflexivity.
Qed.

Lemma ZIP_openArchive_without_entries_witness :
  ∃ r h h',
    zip_parse_end_of_central_dir (__PHYSFS_platformOpenRead (bytes_of_string "x" ++ empty_eocd []))
    = Ret (Go r h)
    ∧ eocd_entryCount r = 0
    ∧ seek_to (eocd_central_dir_ofs r) h = Go tt h'
    ∧ ZIP_openArchive (λ _, 0) "empty.zip" (bytes_of_string "x" ++ empty_eocd []) false = Undef.
Proof.
  destruct (zip_parse_end_of_central_dir
              (__PHYSFS_platformOpenRead (bytes_of_string "x" ++ empty_eocd [])))
    as [[r h|]| |] eqn:E; try (by vm_compute in E).
  assert (Hr : eocd_entryCount r = 0)
    by (vm_compute in E; by injection E as <- <-).
  destruct (seek_to (eocd_central_dir_ofs r) h) as [[] h'|] eqn:Hseek.
  2:{ vm_compute in E. injection E as <- <-. by vm_compute in Hseek. }
  exists r, h, h'. split; [reflexivity|]. split; [exact Hr|].
  split; [exact Hseek|].
  exact (ZIP_openArchive_without_entries (λ _, 0) "empty.zip" (bytes_of_string "x" ++ empty_eocd [])
           r h h' E Hr Hseek).
Defined.

(* ===================================================================== *)
(** * Modification times *)
(* ===================================================================== *)

Lemma land_low (x : Z) (k : Z) (m : Z) :
  0 <= k → m = Z.ones k → Z.land x m = x mod 2 ^ k.
Proof. intros Hk ->. by apply Z.land_ones. Qed.

Lemma land_double_62 (x : Z) : Z.land (Z.shiftl x 1) 0x3E = 2 * (x mod 32).
Proof.
  change 0x3E with (Z.shiftl 31 1). rewrite <- Z.shiftl_land.
  rewrite (land_low x 5 31) by done.
  rewrite Z.shiftl_mul_pow2 by lia. change (2 ^ 5) with 32. lia.
Qed.

(** The decoding in arithmetic: the fields of the word, by division. *)
Lemma zip_dos_time_to_physfs_time_fields (mktime : tm → Z) (dostime : Z) :
  0 <= dostime < 2 ^ 32 →
  zip_dos_time_to_physfs_time mktime dostime
  = s64 (mktime {| tm_year := dostime / 2 ^ 25 + 80;
                   tm_mon := dostime / 2 ^ 21 mod 16 - 1;
                   tm_mday := dostime / 2 ^ 16 mod 32;
                   tm_hour := dostime / 2 ^ 11 mod 32;
                   tm_min := dostime / 2 ^ 5 mod 64;
                   tm_sec := 2 * (dostime mod 32);
                   tm_isdst := -1 |}).
Proof.
  intros Hd. unfold zip_dos_time_to_physfs_time.
  rewrite land_double_62.
  rewrite !Z.shiftr_div_pow2 by lia.
  rewrite (land_low _ 16 0xFFFF), (land_low _ 16 0xFFFF) by done.
  rewrite (land_low _ 7 0x7F), (land_low _ 4 0x0F) by done.
  rewrite (land_low _ 5 0x1F), (land_low _ 5 0x1F) by done.
  rewrite (land_low _ 6 0x3F) by done.
  unfold u32. do 2 f_equal.
  change (2 ^ 32) with 4294967296 in *. change (2 ^ 25) with 33554432.
  change (2 ^ 21) with 2097152. change (2 ^ 16) with 65536.
  change (2 ^ 11) with 2048. change (2 ^ 9) with 512.
  change (2 ^ 7) with 128. change (2 ^ 6) with 64. change (2 ^ 5) with 32.
  change (2 ^ 4) with 16.
  f_equal; Z.div_mod_to_equations; lia.
Qed.

(** X18. The modification time is decoded from the DOS word field by
    field. For a moment from 1980 to 2107, the word that holds the year
    from 1980, the month, the day, the hour, the minute and the halved
    second is handed to [mktime] as that moment: the year from 1900, the
    month from 0, the second rounded down to an even one, and the
    daylight-saving flag left to [mktime]. *)
Theorem zip_dos_time_to_physfs_time_decodes (mktime : tm → Z)
    (year month day hour minute second : Z) :
  1980 <= year <= 2107 → 0 <= month <= 15 → 0 <= day <= 31 →
  0 <= hour <= 31 → 0 <= minute <= 63 → 0 <= second <= 63 →
  zip_dos_time_to_physfs_time mktime
    (dos_time_word year month day hour minute second)
  = s64 (mktime {| tm_year := year - 1900;
                   tm_mon := month - 1;
                   tm_mday := day;
                   tm_hour := hour;
                   tm_min := minute;
                   tm_sec := 2 * (second / 2);
                   tm_isdst := -1 |}).
Proof.
  intros Hy Hmo Hd Hh Hmi Hs.
  rewrite zip_dos_time_to_physfs_time_fields.
  2:{ unfold dos_time_word. change (2 ^ 32) with 4294967296.
      change (2 ^ 16) with 65536. change (2 ^ 11) with 2048.
      change (2 ^ 9) with 512. change (2 ^ 5) with 32.
      Z.div_mod_to_equations. lia. }
  unfold dos_time_word.
  change (2 ^ 25) with 33554432.
  change (2 ^ 21) with 2097152. change (2 ^ 16) with 65536.
  change (2 ^ 11) with 2048. change (2 ^ 9) with 512.
  change (2 ^ 5) with 32.
  do 2 f_equal. f_equal; Z.div_mod_to_equations; lia.
Qed.

Lemma zip_dos_time_to_physfs_time_decodes_witness :
  1980 <= 2003 <= 2107 ∧ 0 <= 7 <= 15 ∧ 0 <= 14 <= 31
  ∧ 0 <= 23 <= 31 ∧ 0 <= 59 <= 63 ∧ 0 <= 31 <= 63
  ∧ zip_dos_time_to_physfs_time tm_year (dos_time_word 2003 7 14 23 59 31)
    = s64 (tm_year {| tm_year := 2003 - 1900;
                      tm_mon := 7 - 1;
                      tm_mday := 14;
                      tm_hour := 23;
                      tm_min := 59;
                      tm_sec := 2 * (31 / 2);
                      tm_isdst := -1 |}).
Proof.
  assert (H1 : 1980 <= 2003 <= 2107) by lia.
  assert (H2 : 0 <= 7 <= 15) by lia.
  assert (H3 : 0 <= 14 <= 31) by lia.
  assert (H4 : 0 <= 23 <= 31) by lia.
  assert (H5 : 0 <= 59 <= 63) by lia.
  assert (H6 : 0 <= 31 <= 63) by lia.
  split; [exact H1|]. split; [exact H2|]. split; [exact H3|].
  split; [exact H4|]. split; [exact H5|]. split; [exact H6|].
  exact (zip_dos_time_to_physfs_time_decodes tm_year 2003 7 14 23 59 31
           H1 H2 H3 H4 H5 H6).
Defined.

(* ===================================================================== *)
(** * Names from DOS zippers *)
(* ===================================================================== *)

Lemma c_string_convert_backslashes (b : list ascii) :
  strchr (c_string (convert_backslashes b)) backslash = None
  ∧ String.length (c_string (convert_backslashes b))
    = String.length (c_string b)
  ∧ ∀ k c, String.get k (c_string b) = Some c →
           String.get k (c_string (convert_backslashes b))
           = Some (if code c =? backslash then "/"%char else c).
Proof.
  induction b as [|x b (IH1 & IH2 & IH3)]; [done|].
  cbn [convert_backslashes c_string].
  destruct (code x =? 0) eqn:Hx.
  { cbn [c_string]. rewrite Hx. done. }
  cbn [c_string].
  destruct (code x =? backslash) eqn:Hb.
  - change (code "/" =? 0) with false. cbn [strchr String.length].
    change (code "/" =? backslash) with false. rewrite IH1, IH2.
    split; [done|]. split; [done|].
    intros [|k] c; cbn [String.get].
    + intros [= <-]. by rewrite Hb.
    + apply IH3.
  - rewrite Hx. cbn [strchr String.length]. rewrite Hb, IH1, IH2.
    split; [done|]. split; [done|].
    intros [|k] c; cbn [String.get].
    + intros [= <-]. by rewrite Hb.
    + apply IH3.
Qed.

(** X19. The name of an entry made by a DOS zipper. The name that
    [zip_load_entry] gives an entry is the name field of the record, up
    to its first NUL. If the host byte of the version-made-by field is 0
    (FAT), every backslash of it is turned into a slash, so that the name
    holds no backslash, and nothing else is changed; for every other host
    the name is taken as it is. *)
Theorem zip_load_entry_name_slashes (mktime : tm → Z) (fixup : Z)
    (h : handle) (e : ZIPentry) (h' : handle) :
  zip_load_entry mktime fixup h = Go e h' →
  let raw := c_string (take (Z.to_nat (field h 28 2))
                         (drop (Z.to_nat (cursor h + 46)) (content h))
                       ++ [NUL]) in
  (hosttype (version e) ≠ 0 → name e = raw)
  ∧ (hosttype (version e) = 0 →
     strchr (name e) backslash = None
     ∧ String.length (name e) = String.length raw
     ∧ ∀ k c, String.get k raw = Some c →
              String.get k (name e)
              = Some (if code c =? backslash then "/"%char else c)).
Proof.
  intros H raw.
  pose proof (zip_load_entry_record _ _ _ _ _ H)
    as (_ & _ & _ & _ & _ & _ & _ & _ & _ & _ & Hname & _).
  unfold zip_convert_dos_path in Hname. split.
  - intros Hhost. apply Z.eqb_neq in Hhost. by rewrite Hhost in Hname.
  - intros Hhost. rewrite Hhost in Hname. cbn [Z.eqb] in Hname.
    rewrite Hname. apply c_string_convert_backslashes.
Qed.

Lemma zip_load_entry_name_slashes_witness :
  let h := __PHYSFS_platformOpenRead
             (central_record 0x0014 20 0 0 1 1 "dir\sub\f.txt" 0 0) in
  ∃ e h', zip_load_entry (λ _, 0) 0 h = Go e h'
    ∧ name e = "dir/sub/f.txt"
    ∧ let raw := c_string (take (Z.to_nat (field h 28 2))
                             (drop (Z.to_nat (cursor h + 46)) (content h))
                           ++ [NUL]) in
      (hosttype (version e) ≠ 0 → name e = raw)
      ∧ (hosttype (version e) = 0 →
         strchr (name e) backslash = None
         ∧ String.length (name e) = String.length raw
         ∧ ∀ k c, String.get k raw = Some c →
                  String.get k (name e)
                  = Some (if code c =? backslash then "/"%char else c)).
Proof.
  intros h.
  destruct (zip_load_entry (λ _, 0) 0 h) as [e h'|] eqn:E;
    [|by vm_compute in E].
  exists e, h'. split; [done|]. split.
  - vm_compute in E. by injection E as <- <-.
  - exact (zip_load_entry_name_slashes (λ _, 0) 0 h e h' E).
Defined.

(* ===================================================================== *)
(** * When the expansion of a link target returns *)
(* ===================================================================== *)

Section expansion_returns.

(** Searching a C string held in a buffer, with anything behind it. *)
Lemma find_char_none (s : string) (rest : list ascii) :
  nul_free s = true → strchr s slash = None →
  find_char (bytes_of_string s ++ NUL :: rest) slash = Ret None.
Proof.
  induction s as [|c s IH]; [done|].
  cbn [nul_free strchr bytes_of_string list_ascii_of_string app find_char].
  intros [Hc Hs]%andb_prop. apply negb_true_iff in Hc.
  destruct (code c =? slash); [done|]. rewrite Hc.
  destruct (strchr s slash) eqn:E; [done|]. intros _.
  unfold bytes_of_string in IH. by rewrite IH.
Qed.

Lemma find_char_first (pre : string) (rest : list ascii) :
  nul_free pre = true → strchr pre slash = None →
  find_char (bytes_of_string pre ++ "/"%char :: rest) slash
  = Ret (Some (strlen pre)).
Proof.
  induction pre as [|c s IH]; [done|].
  cbn [nul_free strchr bytes_of_string list_ascii_of_string app find_char].
  intros [Hc Hs]%andb_prop. apply negb_true_iff in Hc.
  destruct (code c =? slash); [done|]. rewrite Hc.
  destruct (strchr s slash) eqn:E; [done|]. intros _.
  unfold bytes_of_string in IH. rewrite IH by done.
  cbn. unfold strlen. cbn [String.length]. do 2 f_equal. lia.
Qed.

Lemma bytes_of_string_app (s t : string) :
  bytes_of_string (s ++ t)%string = bytes_of_string s ++ bytes_of_string t.
Proof.
  unfold bytes_of_string. induction s as [|c s IH]; [done|].
  cbn. by rewrite IH.
Qed.

Lemma length_bytes_of_string (s : string) :
  length (bytes_of_string s) = String.length s.
Proof.
  unfold bytes_of_string. induction s as [|c s IH]; [done|].
  cbn. by rewrite IH.
Qed.

Lemma nul_free_app (s t : string) :
  nul_free (s ++ t)%string = nul_free s && nul_free t.
Proof.
  induction s as [|c s IH]; [done|]. cbn. rewrite IH. by rewrite andb_assoc.
Qed.

End expansion_returns.

(** X20. When the expansion of a link target returns. On a target
    without a slash [zip_expand_symlink_path] returns in its first turn
    and leaves the target as it is. On a target whose first slash is
    followed by anything but a dot (a name, another slash, or the end of
    the target) it never returns: the turn leaves [ptr] on that slash,
    and the next [strchr] finds it again. *)
Theorem zip_expand_symlink_path_returns (fuel : nat) (s : string) :
  nul_free s = true →
  (strchr s slash = None →
   zip_expand_symlink_path (S fuel) (c_buffer s) = Ret (c_buffer s))
  ∧ (∀ pre rest : string,
       s = (pre ++ "/" ++ rest)%string → strchr pre slash = None →
       (∀ rest', rest ≠ String "."%char rest') →
       zip_expand_symlink_path fuel (c_buffer s) = NoFuel).
Proof.
  intros Hs. split.
  - intros Hnone. unfold zip_expand_symlink_path, c_buffer.
    cbn [expand_loop]. unfold expand_turn, buf_strchr.
    cbn [Z.ltb Z.to_nat drop orb Z.compare].
    replace (Z.of_nat (length (bytes_of_string s ++ [NUL])) <? 0) with false
      by (symmetry; apply Z.ltb_ge; lia).
    change (Z.to_nat 0) with 0%nat. rewrite drop_0.
    rewrite find_char_none by done. reflexivity.
  - intros pre rest -> Hpre Hrest.
    rewrite nul_free_app in Hs. apply andb_prop in Hs as [Hs1 Hs2].
    destruct fuel as [|fuel]; [done|].
    unfold zip_expand_symlink_path, c_buffer.
    rewrite !bytes_of_string_app, <- !app_assoc.
    change (bytes_of_string "/") with ["/"%char]. cbn [app].
    set (tail := bytes_of_string rest ++ [NUL]).
    set (b := bytes_of_string pre ++ "/"%char :: tail).
    assert (Hslash : b !! Z.to_nat (strlen pre) = Some "/"%char).
    { unfold b, strlen. rewrite Nat2Z.id.
      rewrite lookup_app_r by (rewrite length_bytes_of_string; lia).
      by rewrite length_bytes_of_string, Nat.sub_diag. }
    assert (∃ d, b !! Z.to_nat (strlen pre + 1) = Some d ∧ code d ≠ dot)
      as (d & Hd & Hdot).
    { unfold b, strlen.
      replace (Z.to_nat (Z.of_nat (String.length pre) + 1))
        with (S (String.length pre)) by lia.
      rewrite lookup_app_r by (rewrite length_bytes_of_string; lia).
      rewrite length_bytes_of_string.
      replace (S (String.length pre) - String.length pre)%nat with 1%nat
        by lia.
      cbn [lookup list_lookup]. unfold tail.
      destruct rest as [|c rest]; [by exists NUL|].
      exists c. split; [done|]. intros Hc.
      apply (Hrest rest). f_equal. by apply code_inj. }
    assert (Hp : 0 <= strlen pre) by (unfold strlen; lia).
    cbn [expand_loop].
    assert (expand_turn b 0 0 = Ret (Again b (strlen pre) (strlen pre)))
      as ->.
    { unfold expand_turn, buf_strchr.
      cbn [Z.ltb Z.to_nat drop orb Z.compare].
      replace (Z.of_nat (length b) <? 0) with false
        by (symmetry; apply Z.ltb_ge; lia).
      cbn [orb]. change (Z.to_nat 0) with 0%nat. rewrite drop_0.
      replace (find_char b slash) with (@Ret (option Z) (Some (strlen pre)))
        by (unfold b; symmetry; by apply find_char_first).
      cbn [mbind result_bind fmap option_fmap option_map Z.add].
      rewrite !(Z.add_0_l (strlen pre)).
      rewrite (peek_lookup b (strlen pre + 1) d) by (done || lia).
      cbn [mbind result_bind].
      by destruct (Z.eqb_spec (code d) dot). }
    cbn [mbind result_bind].
    by apply (expand_loop_never_returns b (strlen pre) "/"%char d).
Qed.

Lemma zip_expand_symlink_path_returns_witness :
  nul_free "target.txt" = true
  ∧ (strchr "target.txt" slash = None →
     zip_expand_symlink_path 1 (c_buffer "target.txt")
     = Ret (c_buffer "target.txt"))
  ∧ (∀ pre rest : string,
       "target.txt" = (pre ++ "/" ++ rest)%string →
       strchr pre slash = None →
       (∀ rest', rest ≠ String "."%char rest') →
       zip_expand_symlink_path 0 (c_buffer "target.txt") = NoFuel).
Proof.
  assert (H : nul_free "target.txt" = true) by reflexivity.
  split; [exact H|].
  exact (zip_expand_symlink_path_returns 0 "target.txt" H).
Defined.

(* ===================================================================== *)
(** * Reading a stored file *)
(* ===================================================================== *)

Section stored_reading.
Context (zl : zlib).
Implicit Types (f : ZIPfileinfo zl) (r : io_result zl).

(** A read that the file has the bytes for. *)
Lemma platformRead_all h size count :
  0 < size → 0 <= count → 0 <= cursor h →
  cursor h + count * size <= Z.of_nat (length (content h)) →
  __PHYSFS_platformRead h size count
  = (count,
     take (Z.to_nat (count * size)) (drop (Z.to_nat (cursor h)) (content h)),
     advance h (count * size)).
Proof.
  intros Hs Hc Hcur Hfit. unfold __PHYSFS_platformRead, advance.
  assert (count <= Z.max 0 (Z.of_nat (length (content h)) - cursor h) / size)
    by (apply Z.div_le_lower_bound; lia).
  replace (Z.max 0 (Z.min count _)) with count by lia. done.
Qed.

Lemma ZIP_read_stored_spec fuel f objSize objCount :
  stored_file_ok f →
  0 < objSize → 0 < objCount → objSize * objCount < 2 ^ 63 →
  let avail := uncompressed_size (fi_entry f) - uncompressed_position f in
  ∃ r, ZIP_read zl fuel f objSize objCount = Ret r
    ∧ retval r = Z.min objCount (avail / objSize)
    ∧ delivered r
      = take (Z.to_nat (retval r * objSize))
          (drop (Z.to_nat (uncompressed_position f)) (entry_data f))
    ∧ Z.of_nat (length (delivered r)) = retval r * objSize
    ∧ error_set r
      = (if avail <? objSize * objCount then Some ERR_PAST_EOF else None)
    ∧ fi_entry (file_after r) = fi_entry f
    ∧ content (fi_handle (file_after r)) = content (fi_handle f)
    ∧ ZIP_tell (file_after r) = uncompressed_position f + retval r * objSize
    ∧ stored_file_ok (file_after r).
Proof.
  intros (Hm & Hofs & Hsz & Hfit & Hpos & Hcur) Hsize Hcount Hprod avail.
  unfold ZIP_read.
  assert (Hs64 : s64 (objSize * objCount) = objSize * objCount).
  { unfold s64, signed. rewrite Z.mod_small by nia.
    change (2 ^ (64 - 1)) with (2 ^ 63).
    by cmp_true (objSize * objCount) (2 ^ 63). }
  assert (Havail : s64 (u32 (uncompressed_size (fi_entry f)
                             - uncompressed_position f)) = avail).
  { unfold s64, signed, u32. rewrite (Z.mod_small _ (2 ^ 32)) by lia.
    rewrite Z.mod_small by lia. change (2 ^ (64 - 1)) with (2 ^ 63).
    by cmp_true (uncompressed_size (fi_entry f) - uncompressed_position f)
         (2 ^ 63). }
  rewrite Hs64, Havail, Hm. fold avail.
  change (COMPMETH_NONE =? COMPMETH_NONE) with true. cbn [andb].
  assert (0 < objSize * objCount) by nia.
  cmp_false (objSize * objCount) 0.
  assert (Hav : 0 <= avail < 2 ^ 32) by (unfold avail; lia).
  assert (Hq : 0 <= avail / objSize) by (apply Z.div_pos; lia).
  assert (Hqm : objSize * (avail / objSize) <= avail)
    by (apply Z.mul_div_le; lia).
  assert (Hlt : avail < objSize * (avail / objSize) + objSize).
  { pose proof (Z.mod_pos_bound avail objSize ltac:(lia)).
    pose proof (Z.div_mod avail objSize ltac:(lia)). lia. }
  (* the number of objects read, one way or the other *)
  set (n := Z.min objCount (avail / objSize)).
  assert (Hn : 0 <= n ∧ n * objSize <= avail) by (unfold n; nia).
  assert (Hdata : ∀ k, 0 <= k → k * objSize <= avail →
            take (Z.to_nat (k * objSize))
              (drop (Z.to_nat (cursor (fi_handle f))) (content (fi_handle f)))
            = take (Z.to_nat (k * objSize))
                (drop (Z.to_nat (uncompressed_position f)) (entry_data f))).
  { intros k Hk Hka. unfold entry_data. rewrite take_drop_within by lia.
    f_equal. f_equal. lia. }
  assert (Hlen : ∀ k, 0 <= k → k * objSize <= avail →
            Z.of_nat (length
              (take (Z.to_nat (k * objSize))
                 (drop (Z.to_nat (cursor (fi_handle f)))
                    (content (fi_handle f))))) = k * objSize).
  { intros k Hk Hka. rewrite length_take, length_drop. nia. }
  assert (Hread : ∀ k, 0 < k → k * objSize <= avail →
            __PHYSFS_platformRead (fi_handle f) objSize k
            = (k,
               take (Z.to_nat (k * objSize))
                 (drop (Z.to_nat (cursor (fi_handle f)))
                    (content (fi_handle f))),
               advance (fi_handle f) (k * objSize))).
  { intros k Hk Hka. apply platformRead_all; lia. }
  assert (Hdone : ∀ k e, 0 < k → k * objSize <= avail → k = n →
            e = (if avail <? objSize * objCount
                 then Some ERR_PAST_EOF else None) →
            ∃ r,
              (let '(n0, bytes, h) :=
                 __PHYSFS_platformRead (fi_handle f) objSize k in
               Ret (mkio_result n0 bytes
                      {| fi_entry := fi_entry f; fi_handle := h;
                         compressed_position := compressed_position f;
                         uncompressed_position := uncompressed_position f;
                         fi_stream := fi_stream f;
                         fi_input := fi_input f |} e))
              ≫= (λ r0, if 0 <? retval r0
                        then Ret (mkio_result (retval r0) (delivered r0)
                                    (advance_position (file_after r0)
                                       (retval r0 * objSize))
                                    (error_set r0))
                        else Ret r0) = Ret r
              ∧ retval r = n
              ∧ delivered r
                = take (Z.to_nat (retval r * objSize))
                    (drop (Z.to_nat (uncompressed_position f)) (entry_data f))
              ∧ Z.of_nat (length (delivered r)) = retval r * objSize
              ∧ error_set r
                = (if avail <? objSize * objCount
                   then Some ERR_PAST_EOF else None)
              ∧ fi_entry (file_after r) = fi_entry f
              ∧ content (fi_handle (file_after r)) = content (fi_handle f)
              ∧ ZIP_tell (file_after r)
                = uncompressed_position f + retval r * objSize
              ∧ stored_file_ok (file_after r)).
  { intros k e Hk Hka Hkn He. rewrite (Hread k Hk Hka).
    cbn [mbind result_bind retval]. cmp_true 0 k.
    eexists. split; [reflexivity|].
    cbn [retval delivered error_set file_after advance_position fi_entry
         fi_handle uncompressed_position ZIP_tell advance content cursor].
    assert (u32 (uncompressed_position f + k * objSize)
            = uncompressed_position f + k * objSize) as Hu
      by (unfold u32; apply Z.mod_small; unfold avail in *; lia).
    split_and!; try done.
    - by apply Hdata; lia.
    - apply Hlen; lia.
    - unfold stored_file_ok, advance_position, advance.
      cbn [fi_entry fi_handle uncompressed_position content cursor].
      rewrite Hu. unfold avail in *. split_and!; try done; lia. }
  destruct (Z.ltb_spec avail (objSize * objCount)) as [Hclamp|Hfits];
    cbn [andb].
  - (* the request is clamped *)
    rewrite Z.rem_mod_nonneg by lia.
    replace (avail - avail mod objSize) with (objSize * (avail / objSize))
      by (pose proof (Z.div_mod avail objSize ltac:(lia)); lia).
    rewrite Z.quot_div_nonneg by lia.
    rewrite (Z.mul_comm objSize), Z.div_mul by lia.
    assert (Hu : u32 (avail / objSize) = avail / objSize).
    { unfold u32. apply Z.mod_small. split; [done|].
      apply Z.div_lt_upper_bound; lia. }
    rewrite Hu.
    assert (Hmin : n = avail / objSize).
    { unfold n. apply Z.min_r.
      assert (avail / objSize < objCount); [|lia].
      apply Z.div_lt_upper_bound; lia. }
    destruct (Z.eqb_spec (avail / objSize) 0) as [Hz|Hnz].
    + exists (mkio_result 0 [] f (Some ERR_PAST_EOF)).
      cbn [retval delivered error_set file_after ZIP_tell].
      assert (Hn0 : n = 0) by lia.
      split_and!; try done; try lia.
      unfold ZIP_tell. lia.
    + apply Hdone; try lia; done.
  - (* the request fits *)
    assert (Hmin : n = objCount).
    { unfold n. apply Z.min_l. apply Z.div_le_lower_bound; lia. }
    apply Hdone; try lia; done.
Qed.

End stored_reading.

(** X21. Reading a stored file. As long as an open stored file is in
    step with its handle (the data of the entry lies in the archive, the
    position is within the entry, the handle stands at the data offset
    plus the position), as it is when [ZIP_openRead] hands it out,
    [ZIP_read] returns, for every object size and count: it reads as many
    whole objects as were asked for and are left in the entry, delivers
    exactly those bytes of the entry from the position on, sets
    [ERR_PAST_EOF] exactly when fewer bytes are left than were asked for,
    moves the position by the bytes delivered, and leaves the file in step
    with its handle, so that the next read goes on where this one ended. *)
Theorem ZIP_read_stored_delivers_entry_bytes (zl : zlib) (fuel : nat)
    (f : ZIPfileinfo zl) (objSize objCount : Z) :
  stored_file_ok f →
  0 < objSize → 0 < objCount → objSize * objCount < 2 ^ 63 →
  let avail := uncompressed_size (fi_entry f) - uncompressed_position f in
  ∃ r, ZIP_read zl fuel f objSize objCount = Ret r
    ∧ retval r = Z.min objCount (avail / objSize)
    ∧ delivered r
      = take (Z.to_nat (retval r * objSize))
          (drop (Z.to_nat (uncompressed_position f)) (entry_data f))
    ∧ Z.of_nat (length (delivered r)) = retval r * objSize
    ∧ error_set r
      = (if avail <? objSize * objCount then Some ERR_PAST_EOF else None)
    ∧ fi_entry (file_after r) = fi_entry f
    ∧ content (fi_handle (file_after r)) = content (fi_handle f)
    ∧ ZIP_tell (file_after r) = uncompressed_position f + retval r * objSize
    ∧ stored_file_ok (file_after r).
Proof. apply ZIP_read_stored_spec. Qed.

Lemma ZIP_read_stored_delivers_entry_bytes_witness :
  let f : ZIPfileinfo no_zlib :=
    mkZIPfileinfo (stored_entry "hello.txt" 39 14)
      {| content := hello_file; cursor := 44; length_error := None |}
      0 5 None [] in
  stored_file_ok f ∧ 0 < 2 ∧ 0 < 10 ∧ 2 * 10 < 2 ^ 63
  ∧ let avail := uncompressed_size (fi_entry f) - uncompressed_position f in
    ∃ r, ZIP_read no_zlib 0 f 2 10 = Ret r
      ∧ retval r = Z.min 10 (avail / 2)
      ∧ delivered r
        = take (Z.to_nat (retval r * 2))
            (drop (Z.to_nat (uncompressed_position f)) (entry_data f))
      ∧ Z.of_nat (length (delivered r)) = retval r * 2
      ∧ error_set r
        = (if avail <? 2 * 10 then Some ERR_PAST_EOF else None)
      ∧ fi_entry (file_after r) = fi_entry f
      ∧ content (fi_handle (file_after r)) = content (fi_handle f)
      ∧ ZIP_tell (file_after r) = uncompressed_position f + retval r * 2
      ∧ stored_file_ok (file_after r).
Proof.
  intros f.
  assert (H1 : stored_file_ok f).
  { unfold stored_file_ok. split; [reflexivity|].
    split; [vm_compute; discriminate|].
    split; [split; [vm_compute; discriminate|reflexivity]|].
    split; [vm_compute; discriminate|].
    split; [split; vm_compute; discriminate|reflexivity]. }
  assert (H2 : 0 < 2) by lia.
  assert (H3 : 0 < 10) by lia.
  assert (H4 : 2 * 10 < 2 ^ 63) by lia.
  split; [exact H1|]. split; [exact H2|]. split; [exact H3|].
  split; [exact H4|].
  exact (ZIP_read_stored_delivers_entry_bytes no_zlib 0 f 2 10 H1 H2 H3 H4).
Defined.

(* ===================================================================== *)
(** * Compressed files *)
(* ===================================================================== *)

Section compressed_files.
Context (zl : zlib).
Implicit Types (f : ZIPfileinfo zl) (r : io_result zl).

(** Whatever the inflater does, the loop reads from the archive only what
    is left of the compressed data of the entry. *)
Lemma inflate_loop_in_entry fuel :
  ∀ f maxread retval avail_out out e r,
    compressed_file_ok f →
    inflate_loop zl fuel f maxread retval avail_out out e = Ret r →
    fi_entry (file_after r) = fi_entry f ∧ compressed_file_ok (file_after r).
Proof.
  induction fuel as [|fuel IH];
    intros f maxread retval avail_out out e r Hok; [done|].
  cbn [inflate_loop].
  destruct (retval <? maxread); [|by intros [= <-]].
  pose proof Hok as (Hofs & Hsz & Hcp & Hcur).
  set (refilled := match fi_input f with [] => _ | _ :: _ => _ end).
  assert (Hrefilled : ∀ f', refilled = Some f' →
            fi_entry f' = fi_entry f ∧ compressed_file_ok f').
  { intros f'. unfold refilled.
    destruct (fi_input f); [|by intros [= <-]].
    assert (s64 (u32 (compressed_size (fi_entry f) - compressed_position f))
            = compressed_size (fi_entry f) - compressed_position f) as ->.
    { unfold s64, signed, u32. rewrite (Z.mod_small _ (2 ^ 32)) by lia.
      rewrite Z.mod_small by lia. change (2 ^ (64 - 1)) with (2 ^ 63).
      by cmp_true (compressed_size (fi_entry f) - compressed_position f)
           (2 ^ 63). }
    destruct (Z.ltb_spec 0
                (compressed_size (fi_entry f) - compressed_position f));
      [|intros [= <-]; done].
    set (br := if ZIP_READBUFSIZE <? _ then _ else _).
    assert (Hbr : br <= compressed_size (fi_entry f) - compressed_position f).
    { unfold br. destruct (Z.ltb_spec ZIP_READBUFSIZE
        (compressed_size (fi_entry f) - compressed_position f)); lia. }
    unfold __PHYSFS_platformRead.
    set (n := Z.max 0 (Z.min br _)).
    assert (Hn : 0 <= n <= br ∨ n = 0) by lia.
    destruct (Z.leb_spec n 0); [done|]. intros [= <-].
    split; [done|]. unfold compressed_file_ok.
    cbn [fi_entry fi_handle compressed_position cursor].
    unfold u32. rewrite Z.mod_small by lia. lia. }
  clearbody refilled.
  destruct refilled as [f'|]; [|by intros [= <-]].
  destruct (Hrefilled f' eq_refl) as [He' Hok'].
  intros (stream & _ & H)%bind_Ret_inv.
  destruct (inflate zl stream (fi_input f') avail_out Z_SYNC_FLUSH)
    as [[[rc consumed] produced] stream'].
  assert (Hnext : compressed_file_ok
            {| fi_entry := fi_entry f; fi_handle := fi_handle f';
               compressed_position := compressed_position f';
               uncompressed_position := uncompressed_position f';
               fi_stream := Some stream';
               fi_input := drop (Z.to_nat consumed) (fi_input f') |}).
  { unfold compressed_file_ok in *.
    cbn [fi_entry fi_handle compressed_position]. by rewrite <- He'. }
  destruct (rc =? Z_OK).
  - apply IH in H as [He2 Hok2]; [|done]. done.
  - by injection H as <-.
Qed.

Lemma ZIP_read_in_entry fuel f objSize objCount r :
  compression_method (fi_entry f) ≠ COMPMETH_NONE →
  compressed_file_ok f →
  ZIP_read zl fuel f objSize objCount = Ret r →
  fi_entry (file_after r) = fi_entry f ∧ compressed_file_ok (file_after r).
Proof.
  intros Hm Hok. unfold ZIP_read.
  destruct (_ =? 0); [by intros [= <-]|].
  destruct (_ && _); [by intros [= <-]|].
  cmp_false (compression_method (fi_entry f)) COMPMETH_NONE.
  intros (r1 & Hr1 & H)%bind_Ret_inv.
  apply bind_Ret_inv in Hr1 as (r0 & Hloop & [= <-]).
  apply inflate_loop_in_entry in Hloop as [He Hok0]; [|done].
  cbn [retval delivered file_after error_set] in H.
  destruct (0 <? _); by injection H as <-.
Qed.

Lemma seek_forward_in_entry fuel :
  ∀ f ofs e r,
    compression_method (fi_entry f) ≠ COMPMETH_NONE →
    compressed_file_ok f →
    seek_forward zl fuel f ofs e = Ret r →
    fi_entry (file_after r) = fi_entry f ∧ compressed_file_ok (file_after r).
Proof.
  induction fuel as [|fuel IH]; intros f ofs e r Hm Hok; [done|].
  cbn [seek_forward].
  destruct (_ =? ofs); [by intros [= <-]|].
  intros (r1 & Hread & H)%bind_Ret_inv.
  apply ZIP_read_in_entry in Hread as [He1 Hok1]; [|done..].
  destruct (retval r1 =? 1).
  - apply IH in H as [He2 Hok2]; [|by rewrite He1|done].
    split; [congruence|done].
  - by injection H as <-.
Qed.

Lemma ZIP_seek_in_entry fuel f ofs r :
  compression_method (fi_entry f) ≠ COMPMETH_NONE →
  compressed_file_ok f →
  ZIP_seek zl fuel f ofs = Ret r →
  fi_entry (file_after r) = fi_entry f ∧ compressed_file_ok (file_after r).
Proof.
  intros Hm Hok. unfold ZIP_seek.
  destruct (_ <? ofs); [by intros [= <-]|].
  cmp_false (compression_method (fi_entry f)) COMPMETH_NONE.
  destruct (ofs <? uncompressed_position f).
  - destruct (inflateInit2 zl) as [str|]; [|by intros [= <-]].
    destruct (__PHYSFS_platformSeek _ _) as [h|] eqn:Hseek;
      [|by intros [= <-]].
    apply platformSeek_content in Hseek as [_ Hcur].
    intros H. apply seek_forward_in_entry in H; [done|done|].
    destruct Hok as (Hofs & Hsz & Hcp & _).
    unfold compressed_file_ok, offset_of in *.
    cbn [fi_entry fi_handle compressed_position]. lia.
  - by apply seek_forward_in_entry.
Qed.

End compressed_files.

(** X22. A compressed file keeps to its entry. As long as an open
    compressed file is in step with its handle (the compressed position
    within the compressed data of the entry, the handle at the data offset
    plus that position), every [ZIP_read] and every [ZIP_seek], forwards
    or backwards, successful or not, and whatever the inflater does with
    the bytes, leaves it so: the handle is never moved before the data of
    the entry or past its compressed size, and the file stays on its
    entry. *)
Theorem compressed_file_keeps_to_entry (zl : zlib) (f : ZIPfileinfo zl) :
  compression_method (fi_entry f) ≠ COMPMETH_NONE →
  compressed_file_ok f →
  (∀ fuel objSize objCount r,
     ZIP_read zl fuel f objSize objCount = Ret r →
     fi_entry (file_after r) = fi_entry f
     ∧ compressed_file_ok (file_after r)
     ∧ offset (fi_entry f) <= cursor (fi_handle (file_after r))
       <= offset (fi_entry f) + compressed_size (fi_entry f))
  ∧ (∀ fuel ofs r,
       ZIP_seek zl fuel f ofs = Ret r →
       fi_entry (file_after r) = fi_entry f
       ∧ compressed_file_ok (file_after r)
       ∧ offset (fi_entry f) <= cursor (fi_handle (file_after r))
         <= offset (fi_entry f) + compressed_size (fi_entry f)).
Proof.
  intros Hm Hok. split.
  - intros fuel objSize objCount r H.
    apply ZIP_read_in_entry in H as [He Hok']; [|done..].
    split; [done|]. split; [done|].
    destruct Hok' as (_ & _ & Hcp & Hcur). rewrite He in *. lia.
  - intros fuel ofs r H.
    apply ZIP_seek_in_entry in H as [He Hok']; [|done..].
    split; [done|]. split; [done|].
    destruct Hok' as (_ & _ & Hcp & Hcur). rewrite He in *. lia.
Qed.

Lemma compressed_file_keeps_to_entry_witness :
  compression_method (fi_entry hello_compressed) ≠ COMPMETH_NONE
  ∧ compressed_file_ok hello_compressed
  ∧ ∃ r, ZIP_read copy_zlib 3 hello_compressed 1 20 = Ret r
      ∧ fi_entry (file_after r) = fi_entry hello_compressed
      ∧ compressed_file_ok (file_after r)
      ∧ offset (fi_entry hello_compressed) <= cursor (fi_handle (file_after r))
        <= offset (fi_entry hello_compressed)
           + compressed_size (fi_entry hello_compressed).
Proof.
  assert (H1 : compression_method (fi_entry hello_compressed) ≠ COMPMETH_NONE)
    by (vm_compute; discriminate).
  assert (H2 : compressed_file_ok hello_compressed).
  { unfold compressed_file_ok. split; [vm_compute; discriminate|].
    split; [split; [vm_compute; discriminate|reflexivity]|].
    split; [split; vm_compute; discriminate|reflexivity]. }
  split; [exact H1|]. split; [exact H2|].
  destruct (ZIP_read copy_zlib 3 hello_compressed 1 20) as [r| |] eqn:E;
    try (by vm_compute in E).
  exists r. split; [reflexivity|].
  exact (proj1 (compressed_file_keeps_to_entry copy_zlib hello_compressed
                  H1 H2) 3%nat 1 20 r E).
Defined.

(** X23. In a compressed entry a seek leaves the position asked for.
    When [ZIP_seek] succeeds on a compressed file, forwards or after a
    rewind, [ZIP_tell] answers the offset that was asked for. *)
Theorem ZIP_seek_compressed_tells_offset (zl : zlib) (fuel : nat)
    (f : ZIPfileinfo zl) (ofs : Z) (r : io_result zl) :
  compression_method (fi_entry f) ≠ COMPMETH_NONE →
  ZIP_seek zl fuel f ofs = Ret r → retval r = 1 →
  ZIP_tell (file_after r) = ofs.
Proof. apply ZIP_seek_compressed_tell. Qed.

Lemma ZIP_seek_compressed_tells_offset_witness :
  ∃ r1 r2,
    compression_method (fi_entry hello_compressed) ≠ COMPMETH_NONE
    ∧ ZIP_seek copy_zlib 5 hello_compressed 5 = Ret r1
    ∧ retval r1 = 1
    ∧ ZIP_tell (file_after r1) = 5
    ∧ compression_method (fi_entry (file_after r1)) ≠ COMPMETH_NONE
    ∧ ZIP_seek copy_zlib 5 (file_after r1) 2 = Ret r2
    ∧ retval r2 = 1
    ∧ ZIP_tell (file_after r2) = 2.
Proof.
  destruct (ZIP_seek copy_zlib 5 hello_compressed 5) as [r1| |] eqn:E1;
    try (by vm_compute in E1).
  assert (Hr1 : retval r1 = 1) by (vm_compute in E1; by injection E1 as <-).
  assert (Hm1 : compression_method (fi_entry (file_after r1)) ≠ COMPMETH_NONE)
    by (vm_compute in E1; injection E1 as <-; vm_compute; discriminate).
  destruct (ZIP_seek copy_zlib 5 (file_after r1) 2) as [r2| |] eqn:E2;
    try (by vm_compute in E1; injection E1 as <-; vm_compute in E2).
  assert (Hr2 : retval r2 = 1).
  { vm_compute in E1. injection E1 as <-. vm_compute in E2.
    by injection E2 as <-. }
  assert (H0 : compression_method (fi_entry hello_compressed) ≠ COMPMETH_NONE)
    by (vm_compute; discriminate).
  exists r1, r2.
  split; [exact H0|]. split; [reflexivity|]. split; [exact Hr1|].
  split; [exact (ZIP_seek_compressed_tells_offset copy_zlib 5
                   hello_compressed 5 r1 H0 E1 Hr1)|].
  split; [exact Hm1|]. split; [exact E2|]. split; [exact Hr2|].
  exact (ZIP_seek_compressed_tells_offset copy_zlib 5 (file_after r1) 2 r2
           Hm1 E2 Hr2).
Defined.

(* ===================================================================== *)
(** * Edge cases of the queries *)
(* ===================================================================== *)

(** X24. The root cannot be enumerated. For the empty directory name
    [dlen] is 0, and the test for a trailing slash reads
    [dirname[dlen - 1]] with [dlen - 1] taken in the unsigned type: a byte
    far outside the string. This is so for every archive, with and without
    symlinks, before any entry is looked at. *)
Theorem ZIP_enumerateFiles_root_reads_outside (fuel : nat) (info : ZIPinfo)
    (omitSymLinks : bool) :
  ZIP_enumerateFiles fuel info "" omitSymLinks = ([], Undef).
Proof. reflexivity. Qed.

(** X25. Opening a name that is not in the archive. On a sorted table
    [ZIP_openRead] of a name that no entry carries returns NULL with
    [ERR_NO_SUCH_FILE]; it opens nothing, resolves nothing and leaves the
    table and the handle as they were. *)
Theorem ZIP_openRead_no_such_file (zl : zlib) (fuel : nat)
    (file : list ascii) (st : rstate) (a : list ZIPentry)
    (filename : string) :
  info st = mounted a →
  sorted_by_name a → c_names a → nul_free filename = true →
  Z.of_nat (length a) <= 65535 →
  filename ∉ name <$> a →
  ZIP_openRead zl fuel file st filename
  = Ret (None, {| info := info st; src := src st;
                  err := Some ERR_NO_SUCH_FILE |}).
Proof.
  intros Hinfo Hs Hc Hp Hlen Hno. unfold ZIP_openRead. rewrite Hinfo.
  destruct (zip_find_entry_sorted a filename Hs Hc Hp Hlen)
    as [[-> _]|(m & e & _ & _ & He & Hn)].
  - cbn [mbind result_bind set_error]. by rewrite Hinfo.
  - exfalso. apply Hno. apply list_elem_of_fmap. eauto.
Qed.

Lemma ZIP_openRead_no_such_file_witness :
  info hello_archive = mounted [stored_entry "hello.txt" 0 14]
  ∧ sorted_by_name [stored_entry "hello.txt" 0 14]
  ∧ c_names [stored_entry "hello.txt" 0 14]
  ∧ nul_free "nothing" = true
  ∧ Z.of_nat (length [stored_entry "hello.txt" 0 14]) <= 65535
  ∧ ("nothing" ∉ name <$> [stored_entry "hello.txt" 0 14])
  ∧ ZIP_openRead no_zlib 0 hello_file hello_archive "nothing"
    = Ret (None, {| info := info hello_archive; src := src hello_archive;
                    err := Some ERR_NO_SUCH_FILE |}).
Proof.
  assert (H0 : info hello_archive = mounted [stored_entry "hello.txt" 0 14])
    by reflexivity.
  assert (H1 : sorted_by_name [stored_entry "hello.txt" 0 14]).
  { intros i j x y Hij Hx Hy. unfold name_le.
    destruct i as [|i]; destruct j as [|j]; try lia; try done.
    cbn in Hx, Hy. injection Hx as <-; injection Hy as <-.
    vm_compute; discriminate. }
  assert (H2 : c_names [stored_entry "hello.txt" 0 14])
    by (repeat constructor).
  assert (H3 : nul_free "nothing" = true) by reflexivity.
  assert (H4 : Z.of_nat (length [stored_entry "hello.txt" 0 14]) <= 65535)
    by (vm_compute; discriminate).
  assert (H5 : "nothing" ∉ (name <$> [stored_entry "hello.txt" 0 14])).
  { intros H. apply list_elem_of_fmap in H as (e & He & Hin).
    apply list_elem_of_singleton in Hin as ->. discriminate He. }
  split; [exact H0|]. split; [exact H1|]. split; [exact H2|].
  split; [exact H3|]. split; [exact H4|]. split; [exact H5|].
  exact (ZIP_openRead_no_such_file no_zlib 0 hello_file hello_archive
           [stored_entry "hello.txt" 0 14] "nothing" H0 H1 H2 H3 H4 H5).
Defined.

(* ===================================================================== *)
(** * Resolving a regular file *)
(* ===================================================================== *)

Lemma set_entry_Ret (i : Z) (x : ZIPentry) (st : rstate) :
  0 <= i → (Z.to_nat i < length (entries (info st)))%nat →
  set_entry i x st
  = Ret {| info := {| archiveName := archiveName (info st);
                      entryCount := entryCount (info st);
                      entries := <[Z.to_nat i := x]> (entries (info st)) |};
           src := src st; err := err st |}.
Proof.
  intros Hi Hlen. unfold set_entry, store_entry.
  cmp_false i 0. by cmp_false (Z.of_nat (length (entries (info st)))) i.
Qed.

(** X27. A regular file always resolves in one call. For an entry that is
    an unresolved file, [zip_resolve] returns without calling itself,
    whatever the archive holds. It succeeds exactly when the local header
    of the entry is accepted: the entry is then resolved, with its offset
    moved to its data, the handle is left behind the header and no error
    is set. Otherwise the entry is broken, the handle is left where the
    seek and the reads before the failed step have moved it, and the
    error of the failed step, if it set one, is the error of the call.
    Either way the handle still reads the same file, and no other entry
    of the table is changed. *)
Theorem zip_resolve_file (zl : zlib) (fuel : nat) (st : rstate) (i : Z)
    (e : ZIPentry) :
  entry_at (entries (info st)) i = Ret e →
  resolved e = ZIP_UNRESOLVED_FILE →
  ∃ r st',
    zip_resolve zl (S fuel) st i = Ret (r, st')
    ∧ match parse_local_header e (src st) with
      | Go ofs h =>
          r = true
          ∧ entry_at (entries (info st')) i
            = Ret (with_resolved ZIP_RESOLVED (with_offset ofs e))
          ∧ src st' = h ∧ err st' = err st
      | Bail o h =>
          r = false
          ∧ entry_at (entries (info st')) i
            = Ret (with_resolved ZIP_BROKEN_FILE e)
          ∧ src st' = h
          ∧ err st' = match o with Some x => Some x | None => err st end
      end
    ∧ content (src st') = content (src st)
    ∧ ∀ j, j ≠ Z.to_nat i →
           entries (info st') !! j = entries (info st) !! j.
Proof.
  intros He Hr. pose proof (entry_at_inv _ _ _ He) as [Hi Hl].
  assert (Hlen : (Z.to_nat i < length (entries (info st)))%nat)
    by (by eapply lookup_lt_Some).
  assert (Hdecide :
    bool_decide (ZIP_UNRESOLVED_FILE = ZIP_BROKEN_FILE) = false
    ∧ bool_decide (ZIP_UNRESOLVED_FILE = ZIP_BROKEN_SYMLINK) = false
    ∧ bool_decide (ZIP_UNRESOLVED_FILE = ZIP_RESOLVING) = false
    ∧ bool_decide (ZIP_UNRESOLVED_FILE ≠ ZIP_RESOLVED) = true) by done.
  destruct Hdecide as (D1 & D2 & D3 & D4).
  assert (Hstart :
    zip_resolve zl (S fuel) st i
    = '(retval, st1) ←
        zip_parse_local
          {| info := {| archiveName := archiveName (info st);
                        entryCount := entryCount (info st);
                        entries := <[Z.to_nat i := with_resolved ZIP_RESOLVING e]>
                                     (entries (info st)) |};
             src := src st; err := err st |} i;
      entry ← entry_at (entries (info st1)) i;
      st2 ← set_entry i
              (with_resolved
                 (if retval : bool then ZIP_RESOLVED else ZIP_BROKEN_FILE)
                 entry) st1;
      Ret (retval, st2)).
  { cbn [zip_resolve]. rewrite He. cbn [mbind result_bind]. rewrite Hr.
    rewrite D1, D2, D3, D4. rewrite set_entry_Ret by done.
    cbn [mbind result_bind].
    destruct (zip_parse_local _ i) as [[r2 st2]| |]; [|done..].
    cbn [mbind result_bind]. rewrite andb_false_r.
    cbn [mbind result_bind]. done. }
  rewrite Hstart. unfold zip_parse_local. cbn [info entries src].
  rewrite (entry_at_lookup _ i (with_resolved ZIP_RESOLVING e))
    by (done || by apply list_lookup_insert_eq).
  cbn [mbind result_bind].
  change (parse_local_header (with_resolved ZIP_RESOLVING e) (src st))
    with (parse_local_header e (src st)).
  pose proof (keeps_content_parse_local_header e (src st)) as Hkeep.
  destruct (parse_local_header e (src st)) as [ofs h|o h];
    cbn [handle_after] in Hkeep.
  - rewrite set_entry_Ret
      by (done || (cbn [set_src info entries]; by rewrite length_insert)).
    cbn [mbind result_bind set_src info entries src err archiveName
         entryCount].
    rewrite (entry_at_lookup _ i
               (with_offset ofs (with_resolved ZIP_RESOLVING e)))
      by (done || (apply list_lookup_insert_eq; by rewrite length_insert)).
    cbn [mbind result_bind].
    rewrite set_entry_Ret
      by (done || (cbn [info entries]; by rewrite !length_insert)).
    cbn [mbind result_bind info entries src err].
    do 2 eexists. split; [reflexivity|]. cbn [info entries src err]. split.
    + split; [done|]. split; [|done].
      apply entry_at_lookup; [done|].
      apply list_lookup_insert_eq. by rewrite !length_insert.
    + split; [done|]. intros j Hj. by rewrite !list_lookup_insert_ne.
  - cbn [mbind result_bind]. rewrite set_error_info.
    cbn [set_src info entries].
    rewrite (entry_at_lookup _ i (with_resolved ZIP_RESOLVING e))
      by (done || by apply list_lookup_insert_eq).
    cbn [mbind result_bind].
    rewrite set_entry_Ret
      by (done || (rewrite set_error_info; cbn [set_src info entries];
                   by rewrite length_insert)).
    do 2 eexists. split; [reflexivity|]. cbn [info entries src err].
    rewrite set_error_info, set_error_src. cbn [set_src info entries src err].
    split.
    + split; [done|]. split.
      * apply entry_at_lookup; [done|].
        apply list_lookup_insert_eq. by rewrite !length_insert.
      * split; [done|]. by destruct o.
    + split; [done|]. intros j Hj. by rewrite !list_lookup_insert_ne.
Qed.

Lemma zip_resolve_file_witness :
  entry_at (entries (info hello_archive)) 0
  = Ret (stored_entry "hello.txt" 0 14)
  ∧ resolved (stored_entry "hello.txt" 0 14) = ZIP_UNRESOLVED_FILE
  ∧ ∃ r st',
      zip_resolve no_zlib 1 hello_archive 0 = Ret (r, st')
      ∧ match parse_local_header (stored_entry "hello.txt" 0 14)
                (src hello_archive) with
        | Go ofs h =>
            r = true
            ∧ entry_at (entries (info st')) 0
              = Ret (with_resolved ZIP_RESOLVED
                       (with_offset ofs (stored_entry "hello.txt" 0 14)))
            ∧ src st' = h ∧ err st' = err hello_archive
        | Bail o h =>
            r = false
            ∧ entry_at (entries (info st')) 0
              = Ret (with_resolved ZIP_BROKEN_FILE
                       (stored_entry "hello.txt" 0 14))
            ∧ src st' = h
            ∧ err st' = match o with
                        | Some x => Some x
                        | None => err hello_archive
                        end
        end
      ∧ content (src st') = content (src hello_archive)
      ∧ ∀ j, j ≠ Z.to_nat 0 →
             entries (info st') !! j = entries (info hello_archive) !! j.
Proof.
  assert (H1 : entry_at (entries (info hello_archive)) 0
               = Ret (stored_entry "hello.txt" 0 14)) by reflexivity.
  assert (H2 : resolved (stored_entry "hello.txt" 0 14)
               = ZIP_UNRESOLVED_FILE) by reflexivity.
  split; [exact H1|]. split; [exact H2|].
  exact (zip_resolve_file no_zlib 0 hello_archive 0
           (stored_entry "hello.txt" 0 14) H1 H2).
Defined.

(** On a file that holds no local header the failed resolution leaves
    the handle behind the four bytes that were read as the signature. *)
Example failed_file_resolution_moves_handle :
  ∃ st',
    zip_resolve no_zlib 1
      {| info := mounted [stored_entry "hello.txt" 0 14];
         src := __PHYSFS_platformOpenRead (bytes_of_string "not a header");
         err := None |} 0
    = Ret (false, st')
    ∧ cursor (src st') = 4
    ∧ err st' = Some ERR_CORRUPTED
    ∧ states st' = [ZIP_BROKEN_FILE].
Proof. eexists. split; [vm_compute; reflexivity|]. done. Qed.

(* ===================================================================== *)
(** * Unmounting an archive *)
(* ===================================================================== *)

Lemma free_gone (hp hp' : heap) (b : block) :
  free hp b = Ret hp' → b ∉ hp'.
Proof.
  unfold free. destruct (bool_decide (b ∈ hp)); [|done].
  intros [= <-]. rewrite list_elem_of_filter. by intros [? _].
Qed.

Lemma free_again (hp hp' : heap) (b : block) :
  free hp b = Ret hp' → free hp' b = Undef.
Proof.
  intros H%free_gone. unfold free. by rewrite bool_decide_eq_false_2.
Qed.

(** X28. Unmounting frees the entry table twice. [zip_free_entries] ends
    with [free(entries)], and [ZIP_dirClose], after calling it, goes on
    with [free(zi->entries)]: the same block. So [ZIP_dirClose] never
    returns in a defined way, whatever the archive and the heap: if the
    frees of [zip_free_entries] are all defined, the next one is a second
    [free] of the table. *)
Theorem ZIP_dirClose_frees_entries_twice (hp : heap) (h : DirHandle) :
  ZIP_dirClose hp h = Undef
  ∧ ∀ hp', zip_free_entries hp (entries_block h) (name_blocks h)
             (dh_entryCount h) = Ret hp' →
           free hp' (entries_block h) = Undef.
Proof.
  assert (Hsecond : ∀ hp',
    zip_free_entries hp (entries_block h) (name_blocks h) (dh_entryCount h)
    = Ret hp' → free hp' (entries_block h) = Undef).
  { intros hp'. unfold zip_free_entries.
    intros (hp1 & _ & H)%bind_Ret_inv. by eapply free_again. }
  split; [|done]. unfold ZIP_dirClose.
  destruct (zip_free_entries hp (entries_block h) (name_blocks h)
              (dh_entryCount h)) as [hp'| |] eqn:E.
  - cbn [mbind result_bind]. by rewrite (Hsecond hp' eq_refl).
  - done.
  - exfalso. unfold zip_free_entries in E.
    assert (∀ n hp0 i, zip_free_entries_loop n hp0 (name_blocks h) i
                       ≠ NoFuel) as Hloop.
    { induction n as [|n IH]; intros hp0 i; [done|].
      cbn [zip_free_entries_loop].
      destruct (name_blocks h !! i) as [[b|]|]; cbn; [|apply IH|done].
      unfold free. destruct (bool_decide (b ∈ hp0)); cbn; [apply IH|done]. }
    destruct (zip_free_entries_loop _ hp (name_blocks h) 0) as [hp1| |] eqn:E1;
      [|done|by apply Hloop in E1].
    cbn in E. unfold free in E. by destruct (bool_decide _).
Qed.

(** The frees of [zip_free_entries] alone are defined on a heap that holds
    the table and the names: what is undefined in [ZIP_dirClose] is the
    free that follows. *)
Example zip_free_entries_alone :
  zip_free_entries [1; 2; 3; 4; 5; 6]%nat 4%nat [Some 5%nat; Some 6%nat] 2
  = Ret [1; 2; 3]%nat.
Proof. reflexivity. Qed.
